(** * A shallow embedding of [Deque.h]

    The container keeps a heap-allocated array of block pointers (the
    "map"), each block being raw storage for [BLOCK_SIZE] elements, and a
    handful of [size_t] cursors.  The embedding keeps that shape:

    - [size_t] and [ptrdiff_t] are 64-bit (LP64); values are [Z] and every
      arithmetic step writes its wrap-around out ([wrap], [to_signed]);
    - the free store is a finite map from addresses to objects; a pointer is
      an optional address, [nullptr] being [None];
    - member functions are computations in a state-and-error monad whose
      state is the free store together with the object [*this]; they end
      normally, by throwing [std::out_of_range], or in undefined behaviour
      (a dereference of a null, dangling or out-of-bounds pointer, a read of
      a cell that holds no object).

    Allocation never fails in this model ([std::bad_alloc] is not
    represented), and [operator new] hands out addresses that were never
    used before. *)

From Stdlib Require Import ZArith Lia.
From stdpp Require Import base option list gmap.

Open Scope Z_scope.

(** ** Machine integers *)

Definition wrap (z : Z) : Z := z mod 2 ^ 64.
Definition to_signed (z : Z) : Z := (z + 2 ^ 63) mod 2 ^ 64 - 2 ^ 63.

Definition BLOCK_SIZE : Z := 64.

(** ** The free store *)

Definition loc := positive.
Definition ptr := option loc.
Definition nullptr : ptr := None.

(** A reference to one element cell: the block it lives in and its index. *)
Definition ref : Type := loc * Z.

Inductive object (T : Type) : Type :=
| MapArr (slots : list ptr)
| BlockArr (cells : list (option T)).
Arguments MapArr {T} slots.
Arguments BlockArr {T} cells.

Record heap (T : Type) : Type := Heap { objs : gmap loc (object T); next : loc }.
Arguments Heap {T} objs next.
Arguments objs {T} h.
Arguments next {T} h.

(** ** The object representation *)

Record Deque : Type := MkDeque {
  _map : ptr;
  _size : Z;
  _map_size : Z;
  _start_block : Z;
  _start_offset : Z;
  _finish_block : Z;
  _finish_offset : Z
}.

Definition with_map (v : ptr) (d : Deque) : Deque :=
  MkDeque v (_size d) (_map_size d) (_start_block d) (_start_offset d)
          (_finish_block d) (_finish_offset d).
Definition with_size (v : Z) (d : Deque) : Deque :=
  MkDeque (_map d) v (_map_size d) (_start_block d) (_start_offset d)
          (_finish_block d) (_finish_offset d).
Definition with_map_size (v : Z) (d : Deque) : Deque :=
  MkDeque (_map d) (_size d) v (_start_block d) (_start_offset d)
          (_finish_block d) (_finish_offset d).
Definition with_start_block (v : Z) (d : Deque) : Deque :=
  MkDeque (_map d) (_size d) (_map_size d) v (_start_offset d)
          (_finish_block d) (_finish_offset d).
Definition with_start_offset (v : Z) (d : Deque) : Deque :=
  MkDeque (_map d) (_size d) (_map_size d) (_start_block d) v
          (_finish_block d) (_finish_offset d).
Definition with_finish_block (v : Z) (d : Deque) : Deque :=
  MkDeque (_map d) (_size d) (_map_size d) (_start_block d) (_start_offset d)
          v (_finish_offset d).
Definition with_finish_offset (v : Z) (d : Deque) : Deque :=
  MkDeque (_map d) (_size d) (_map_size d) (_start_block d) (_start_offset d)
          (_finish_block d) v.

(** ** The monad of member functions *)

Record state (T : Type) : Type := State { mem : heap T; self : Deque }.
Arguments State {T} mem self.
Arguments mem {T} s.
Arguments self {T} s.

Inductive result (S A : Type) : Type :=
| Ok (a : A) (s : S)
| Throw (s : S)
| UB.
Arguments Ok {S A} a s.
Arguments Throw {S A} s.
Arguments UB {S A}.

Definition M (T A : Type) : Type := state T -> result (state T) A.

Definition ret {T A} (a : A) : M T A := fun s => Ok a s.

Definition bind {T A B} (c : M T A) (k : A -> M T B) : M T B :=
  fun s => match c s with
           | Ok a s' => k a s'
           | Throw s' => Throw s'
           | UB => UB
           end.

Declare Scope cpp_scope.
Delimit Scope cpp_scope with cpp.
Notation "x <- c ;; k" := (bind c (fun x => k))
  (at level 100, c at next level, right associativity) : cpp_scope.
Notation "c ;; k" := (bind c (fun _ => k))
  (at level 100, right associativity) : cpp_scope.
Open Scope cpp_scope.

Section Members.

Context {T : Type}.

Local Abbreviation M := (M T).

Definition throw_out_of_range {A} : M A := fun s => Throw s.
Definition undefined {A} : M A := fun _ => UB.

Definition get {A} (f : Deque -> A) : M A := fun s => Ok (f (self s)) s.
Definition set (f : Deque -> Deque) : M unit :=
  fun s => Ok tt (State (mem s) (f (self s))).

(** A counted loop [for (i = 0; i < n; ++i) body(i)]. *)
Fixpoint for_from (k : nat) (i : Z) (body : Z -> M unit) : M unit :=
  match k with
  | O => ret tt
  | S k' => body i ;; for_from k' (wrap (i + 1)) body
  end.
Definition for_upto (n : Z) (body : Z -> M unit) : M unit :=
  for_from (Z.to_nat n) 0 body.

(** *** Free-store primitives *)

(** [::operator new] *)
Definition new_ (o : object T) : M ptr :=
  fun s =>
    let h := mem s in
    Ok (Some (next h))
       (State (Heap (<[next h := o]> (objs h)) (Pos.succ (next h))) (self s)).

(** [::operator delete]: a no-op on [nullptr]. *)
Definition delete_ (p : ptr) : M unit :=
  fun s =>
    match p with
    | None => Ok tt s
    | Some l =>
        match objs (mem s) !! l with
        | Some _ => Ok tt (State (Heap (delete l (objs (mem s))) (next (mem s))) (self s))
        | None => UB
        end
    end.

(** [m[i]] read as an rvalue, [m] being a map pointer. *)
Definition map_load (m : ptr) (i : Z) : M ptr :=
  fun s =>
    match m with
    | None => UB
    | Some l =>
        match objs (mem s) !! l with
        | Some (MapArr slots) =>
            match slots !! Z.to_nat i with
            | Some p => if 0 <=? i then Ok p s else UB
            | None => UB
            end
        | _ => UB
        end
    end.

(** [m[i] = p] *)
Definition map_store (m : ptr) (i : Z) (p : ptr) : M unit :=
  fun s =>
    match m with
    | None => UB
    | Some l =>
        match objs (mem s) !! l with
        | Some (MapArr slots) =>
            if (0 <=? i) && (i <? Z.of_nat (length slots))
            then Ok tt (State (Heap (<[l := MapArr (<[Z.to_nat i := p]> slots)]> (objs (mem s)))
                                    (next (mem s))) (self s))
            else UB
        | _ => UB
        end
    end.

(** [m[block][offset]] as an lvalue, equally [m[block] + offset]. *)
Definition map_elem (m : ptr) (block offset : Z) : M ref :=
  p <- map_load m block ;;
  match p with
  | Some b => ret (b, offset)
  | None => undefined
  end.

Definition cell_update (r : ref) (c : option T) : M unit :=
  fun s =>
    match objs (mem s) !! r.1 with
    | Some (BlockArr cells) =>
        if (0 <=? r.2) && (r.2 <? Z.of_nat (length cells))
        then Ok tt (State (Heap (<[r.1 := BlockArr (<[Z.to_nat r.2 := c]> cells)]> (objs (mem s)))
                                (next (mem s))) (self s))
        else UB
    | _ => UB
    end.

(** Placement [new (p) value_type(v)]. *)
Definition construct_at (r : ref) (v : T) : M unit := cell_update r (Some v).

(** [std::destroy_at(p)] and [p->~_Ty()]: the cell holds no object afterwards. *)
Definition destroy_at (r : ref) : M unit := cell_update r None.

(** Assignment through a reference. *)
Definition store (r : ref) (v : T) : M unit := cell_update r (Some v).

(** Lvalue-to-rvalue conversion. *)
Definition load (r : ref) : M T :=
  fun s =>
    match objs (mem s) !! r.1 with
    | Some (BlockArr cells) =>
        match cells !! Z.to_nat r.2 with
        | Some (Some v) => if 0 <=? r.2 then Ok v s else UB
        | _ => UB
        end
    | _ => UB
    end.

(** *** Map and block lifecycle *)

Definition allocate_map (n_blocks : Z) : M unit :=
  let n_blocks := if n_blocks <? 8 then 8 else n_blocks in
  m <- new_ (MapArr (replicate (Z.to_nat n_blocks) nullptr)) ;;
  set (with_map m) ;;
  set (with_map_size n_blocks).

Definition reallocate_map (add_to_front : bool) : M unit :=
  old_map <- get _map ;;
  map_size <- get _map_size ;;
  start_block <- get _start_block ;;
  finish_block <- get _finish_block ;;
  let old_block_count := wrap (wrap (finish_block - start_block) + 1) in
  let new_map_size := Z.max 8 (wrap (map_size * 2)) in
  new_map <- new_ (MapArr (replicate (Z.to_nat new_map_size) nullptr)) ;;
  let new_start_block :=
    if add_to_front then new_map_size / 4
    else wrap (new_map_size / 2 - old_block_count / 2) in
  for_upto old_block_count (fun i =>
    p <- map_load old_map (wrap (start_block + i)) ;;
    map_store new_map (wrap (new_start_block + i)) p) ;;
  delete_ old_map ;;
  set (with_map new_map) ;;
  set (with_start_block new_start_block) ;;
  set (with_finish_block (wrap (wrap (new_start_block + old_block_count) - 1))) ;;
  set (with_map_size new_map_size).

Definition allocate_block (index : Z) : M unit :=
  m <- get _map ;;
  b <- new_ (BlockArr (replicate (Z.to_nat BLOCK_SIZE) None)) ;;
  map_store m index b.

Definition deallocate_block (index : Z) : M unit :=
  m <- get _map ;;
  p <- map_load m index ;;
  delete_ p ;;
  map_store m index nullptr.

Definition resize_map (new_map_size : Z) : M unit :=
  new_map <- new_ (MapArr (replicate (Z.to_nat new_map_size) nullptr)) ;;
  old_map <- get _map ;;
  delete_ old_map ;;
  set (with_map new_map) ;;
  set (with_map_size new_map_size).

Definition destroy_all : M unit :=
  m <- get _map ;;
  (match m with
   | Some _ =>
       map_size <- get _map_size ;;
       for_upto map_size (fun i =>
         p <- map_load m i ;;
         (match p with
          | Some b => for_upto BLOCK_SIZE (fun j => destroy_at (b, j))
          | None => ret tt
          end) ;;
         deallocate_block i) ;;
       delete_ m ;;
       set (with_map nullptr)
   | None => ret tt
   end) ;;
  set (with_map_size 0) ;;
  set (with_finish_offset 0) ;;
  set (with_finish_block 0) ;;
  set (with_start_offset 0) ;;
  set (with_start_block 0).

Definition block_pointer (block offset : Z) : M ref :=
  m <- get _map ;;
  map_elem m block offset.

(** *** Construction *)

(** [Deque()] *)
Definition Deque_default : M unit :=
  allocate_map 8 ;;
  map_size <- get _map_size ;;
  set (with_start_block (map_size / 2)) ;;
  set (with_start_offset 0) ;;
  start_block <- get _start_block ;;
  set (with_finish_block start_block) ;;
  set (with_finish_offset 0) ;;
  set (with_size 0) ;;
  allocate_block start_block.

(** *** Capacity *)

Definition capacity (d : Deque) : Z := wrap (_map_size d * BLOCK_SIZE).
Definition size (d : Deque) : Z := _size d.
Definition empty (d : Deque) : bool := _size d =? 0.

(** *** Insertion and removal at the ends *)

Definition push_back (value : T) : M unit :=
  finish_offset <- get _finish_offset ;;
  (if finish_offset =? BLOCK_SIZE then
     finish_block <- get _finish_block ;;
     map_size <- get _map_size ;;
     (if wrap (finish_block + 1) >=? map_size then reallocate_map false else ret tt) ;;
     m <- get _map ;;
     finish_block <- get _finish_block ;;
     p <- map_load m (wrap (finish_block + 1)) ;;
     (match p with
      | None => allocate_block (wrap (finish_block + 1))
      | Some _ => ret tt
      end) ;;
     set (with_finish_block (wrap (finish_block + 1))) ;;
     set (with_finish_offset 0)
   else ret tt) ;;
  m <- get _map ;;
  finish_block <- get _finish_block ;;
  finish_offset <- get _finish_offset ;;
  r <- map_elem m finish_block finish_offset ;;
  construct_at r value ;;
  set (with_finish_offset (wrap (finish_offset + 1))) ;;
  n <- get _size ;;
  set (with_size (wrap (n + 1))).

Definition push_front (value : T) : M unit :=
  start_offset <- get _start_offset ;;
  (if start_offset =? 0 then
     start_block <- get _start_block ;;
     (if start_block =? 0 then reallocate_map true else ret tt) ;;
     m <- get _map ;;
     start_block <- get _start_block ;;
     p <- map_load m (wrap (start_block - 1)) ;;
     (match p with
      | None => allocate_block (wrap (start_block - 1))
      | Some _ => ret tt
      end) ;;
     set (with_start_block (wrap (start_block - 1))) ;;
     set (with_start_offset BLOCK_SIZE)
   else ret tt) ;;
  start_offset <- get _start_offset ;;
  set (with_start_offset (wrap (start_offset - 1))) ;;
  m <- get _map ;;
  start_block <- get _start_block ;;
  start_offset <- get _start_offset ;;
  r <- map_elem m start_block start_offset ;;
  construct_at r value ;;
  n <- get _size ;;
  set (with_size (wrap (n + 1))).

Definition pop_back : M unit :=
  e <- get empty ;;
  if e then throw_out_of_range
  else
    finish_offset <- get _finish_offset ;;
    (if finish_offset =? 0 then
       finish_block <- get _finish_block ;;
       set (with_finish_block (wrap (finish_block - 1))) ;;
       set (with_finish_offset (BLOCK_SIZE - 1))
     else set (with_finish_offset (wrap (finish_offset - 1)))) ;;
    finish_block <- get _finish_block ;;
    finish_offset <- get _finish_offset ;;
    r <- block_pointer finish_block finish_offset ;;
    destroy_at r ;;
    n <- get _size ;;
    set (with_size (wrap (n - 1))).

Definition pop_front : M unit :=
  e <- get empty ;;
  if e then throw_out_of_range
  else
    start_block <- get _start_block ;;
    start_offset <- get _start_offset ;;
    r <- block_pointer start_block start_offset ;;
    destroy_at r ;;
    set (with_start_offset (wrap (start_offset + 1))) ;;
    start_offset <- get _start_offset ;;
    (if start_offset =? BLOCK_SIZE then
       deallocate_block start_block ;;
       set (with_start_block (wrap (start_block + 1))) ;;
       set (with_start_offset 0)
     else ret tt) ;;
    n <- get _size ;;
    set (with_size (wrap (n - 1))).

(** [emplace_back] and [emplace_front] build the element from the forwarded
    arguments; the element so built is [value]. *)
Definition emplace_back (value : T) : M ref :=
  finish_offset <- get _finish_offset ;;
  (if finish_offset =? BLOCK_SIZE then
     finish_block <- get _finish_block ;;
     map_size <- get _map_size ;;
     (if wrap (finish_block + 1) >=? map_size then reallocate_map false else ret tt) ;;
     m <- get _map ;;
     finish_block <- get _finish_block ;;
     p <- map_load m (wrap (finish_block + 1)) ;;
     (match p with
      | None => allocate_block (wrap (finish_block + 1))
      | Some _ => ret tt
      end) ;;
     set (with_finish_block (wrap (finish_block + 1))) ;;
     set (with_finish_offset 0)
   else ret tt) ;;
  m <- get _map ;;
  finish_block <- get _finish_block ;;
  finish_offset <- get _finish_offset ;;
  r <- map_elem m finish_block finish_offset ;;
  construct_at r value ;;
  n <- get _size ;;
  set (with_size (wrap (n + 1))) ;;
  r' <- map_elem m finish_block finish_offset ;;
  set (with_finish_offset (wrap (finish_offset + 1))) ;;
  ret r'.

Definition emplace_front (value : T) : M ref :=
  start_offset <- get _start_offset ;;
  (if start_offset =? 0 then
     start_block <- get _start_block ;;
     (if start_block =? 0 then reallocate_map true else ret tt) ;;
     m <- get _map ;;
     start_block <- get _start_block ;;
     p <- map_load m (wrap (start_block - 1)) ;;
     (match p with
      | None => allocate_block (wrap (start_block - 1))
      | Some _ => ret tt
      end) ;;
     set (with_start_block (wrap (start_block - 1))) ;;
     set (with_start_offset BLOCK_SIZE)
   else ret tt) ;;
  start_offset <- get _start_offset ;;
  set (with_start_offset (wrap (start_offset - 1))) ;;
  m <- get _map ;;
  start_block <- get _start_block ;;
  start_offset <- get _start_offset ;;
  r <- map_elem m start_block start_offset ;;
  construct_at r value ;;
  n <- get _size ;;
  set (with_size (wrap (n + 1))) ;;
  map_elem m start_block start_offset.

(** *** Element access *)

Definition front : M ref :=
  m <- get _map ;;
  start_block <- get _start_block ;;
  start_offset <- get _start_offset ;;
  map_elem m start_block start_offset.

Definition back : M ref :=
  m <- get _map ;;
  finish_block <- get _finish_block ;;
  finish_offset <- get _finish_offset ;;
  let ob := if finish_offset =? 0 then wrap (finish_block - 1) else finish_block in
  let oo := if finish_offset =? 0 then BLOCK_SIZE - 1 else wrap (finish_offset - 1) in
  map_elem m ob oo.

(** [operator[]] *)
Definition subscript (index : Z) : M ref :=
  m <- get _map ;;
  start_block <- get _start_block ;;
  start_offset <- get _start_offset ;;
  let offset := wrap (start_offset + index) in
  let block := wrap (start_block + offset / BLOCK_SIZE) in
  let block_offset := offset mod BLOCK_SIZE in
  map_elem m block block_offset.

Definition at_ (index : Z) : M ref :=
  n <- get _size ;;
  if index >=? n then throw_out_of_range
  else subscript index.

(** *** Whole-container modifiers *)

(** The element walk of [clear]: [total] destructor calls from
    [(block, offset)] onwards. *)
Fixpoint clear_walk (total : nat) (block offset : Z) : M unit :=
  match total with
  | O => ret tt
  | S total' =>
      m <- get _map ;;
      r <- map_elem m block offset ;;
      destroy_at r ;;
      if wrap (offset + 1) =? BLOCK_SIZE
      then clear_walk total' (wrap (block + 1)) 0
      else clear_walk total' block (wrap (offset + 1))
  end.

Definition clear : M unit :=
  e <- get empty ;;
  if e then ret tt
  else
    total <- get _size ;;
    block <- get _start_block ;;
    offset <- get _start_offset ;;
    clear_walk (Z.to_nat total) block offset ;;
    map_size <- get _map_size ;;
    for_upto map_size (fun i =>
      m <- get _map ;;
      p <- map_load m i ;;
      match p with
      | Some _ => deallocate_block i
      | None => ret tt
      end) ;;
    map_size <- get _map_size ;;
    let center := map_size / 2 in
    allocate_map center ;;
    set (with_finish_block center) ;;
    set (with_start_block center) ;;
    set (with_finish_offset 0) ;;
    set (with_start_offset 0) ;;
    set (with_size 0).

(** The shrinking loop of [resize]: returns the final [(block, offset)]. *)
Fixpoint resize_walk (to_destroy : nat) (block offset : Z) : M (Z * Z) :=
  match to_destroy with
  | O => ret (block, offset)
  | S to_destroy' =>
      let block' := if offset =? 0 then wrap (block - 1) else block in
      let offset' := if offset =? 0 then BLOCK_SIZE else offset in
      let offset'' := wrap (offset' - 1) in
      m <- get _map ;;
      r <- map_elem m block' offset'' ;;
      destroy_at r ;;
      resize_walk to_destroy' block' offset''
  end.

(** [while (_size < new_size) push_back(value)] *)
Fixpoint grow_loop (fuel : nat) (new_size : Z) (value : T) : M unit :=
  match fuel with
  | O => ret tt
  | S fuel' =>
      n <- get _size ;;
      if n <? new_size then push_back value ;; grow_loop fuel' new_size value
      else ret tt
  end.

Definition resize (new_size : Z) (value : T) : M unit :=
  n <- get _size ;;
  if new_size <? n then
    finish_block <- get _finish_block ;;
    finish_offset <- get _finish_offset ;;
    bo <- resize_walk (Z.to_nat (wrap (n - new_size))) finish_block finish_offset ;;
    set (with_finish_block bo.1) ;;
    set (with_finish_offset bo.2) ;;
    set (with_size new_size)
  else if n <? new_size then
    grow_loop (Z.to_nat (new_size - n)) new_size value
  else ret tt.

(** [Deque(count, value)] *)
Definition Deque_fill (count : Z) (value : T) : M unit :=
  Deque_default ;;
  for_upto count (fun _ => push_back value).

(** [Deque(std::initializer_list)] *)
Definition Deque_init (init : list T) : M unit :=
  Deque_default ;;
  foldr (fun elem k => push_back elem ;; k) (ret tt) init.

(** [assign(std::initializer_list)] *)
Definition assign_init (init : list T) : M unit :=
  clear ;;
  foldr (fun elem k => push_back elem ;; k) (ret tt) init.

(** [assign(count, value)] *)
Definition assign_fill (count : Z) (value : T) : M unit :=
  clear ;;
  for_upto count (fun _ => push_back value).

(** *** Operations on two objects

    [other] is an object distinct from [*this]; the members that write to it
    return its new representation. *)

Definition zeroed_cursors (d : Deque) : Deque :=
  with_finish_offset 0 (with_finish_block 0
    (with_start_offset 0 (with_start_block 0 (with_map_size 0 (with_map nullptr d))))).

(** [Deque(Deque&& other)].  The member initializer list names every member
    but [_size], which keeps whatever the storage of [*this] held; the body
    resets every member of [other] but [_size]. *)
Definition Deque_move (other : Deque) : M Deque :=
  set (with_map (_map other)) ;;
  set (with_map_size (_map_size other)) ;;
  set (with_start_block (_start_block other)) ;;
  set (with_start_offset (_start_offset other)) ;;
  set (with_finish_block (_finish_block other)) ;;
  set (with_finish_offset (_finish_offset other)) ;;
  ret (zeroed_cursors other).

(** [operator=(Deque&& other)], [this != &other]. *)
Definition move_assign (other : Deque) : M Deque :=
  clear ;;
  destroy_all ;;
  set (with_map (_map other)) ;;
  set (with_map_size (_map_size other)) ;;
  set (with_start_block (_start_block other)) ;;
  set (with_start_offset (_start_offset other)) ;;
  set (with_finish_block (_finish_block other)) ;;
  set (with_finish_offset (_finish_offset other)) ;;
  set (with_size (_size other)) ;;
  ret (with_size 0 (zeroed_cursors other)).

(** Evaluate a [const] member of [other] against the current free store. *)
Definition on_other {A} (other : Deque) (c : M A) : M A :=
  fun s =>
    match c (State (mem s) other) with
    | Ok a _ => Ok a s
    | Throw _ => Throw s
    | UB => UB
    end.

(** [operator=(const Deque& other)], [this != &other]. *)
Definition copy_assign (other : Deque) : M unit :=
  destroy_all ;;
  allocate_map (_map_size other) ;;
  for_upto (_size other) (fun i =>
    r <- on_other other (subscript i) ;;
    v <- load r ;;
    push_back v).

Definition swap (other : Deque) : M Deque :=
  d <- get id ;;
  set (fun _ => other) ;;
  ret d.

End Members.

(** ** Iterators

    An iterator is the triple (map pointer, block index, offset).
    [BLOCK_SIZE] has type [std::size_t], so in [operator+] the signed
    [offset] is converted to unsigned before it is divided and reduced. *)

Module Iterator.

Record t : Type := Make { _map_ptr : ptr; _block : Z; _offset : Z }.

(** Dereference: [_map_ptr[_block][_offset]] *)
Definition deref {T} (it : t) : M T ref :=
  map_elem (_map_ptr it) (_block it) (_offset it).

(** [operator++()] *)
Definition incr (it : t) : t :=
  let offset := wrap (_offset it + 1) in
  if offset =? BLOCK_SIZE then Make (_map_ptr it) (wrap (_block it + 1)) 0
  else Make (_map_ptr it) (_block it) offset.

(** [operator--()] *)
Definition decr (it : t) : t :=
  if _offset it =? 0 then Make (_map_ptr it) (wrap (_block it - 1)) (BLOCK_SIZE - 1)
  else Make (_map_ptr it) (_block it) (wrap (_offset it - 1)).

(** [operator+(difference_type n)] *)
Definition plus (it : t) (n : Z) : t :=
  let offset := to_signed (to_signed (_offset it) + n) in
  let block := wrap (_block it + wrap offset / BLOCK_SIZE) in
  let off := wrap offset mod BLOCK_SIZE in
  if off <? 0 then Make (_map_ptr it) (wrap (block - 1)) (wrap (off + BLOCK_SIZE))
  else Make (_map_ptr it) block off.

(** [operator-(difference_type n)] *)
Definition minus (it : t) (n : Z) : t := plus it (to_signed (- n)).

(** [operator[](difference_type n)] *)
Definition subscript {T} (it : t) (n : Z) : M T ref := deref (plus it n).

(** [operator-(const Iterator& rhs)] *)
Definition diff (it rhs : t) : Z :=
  let block_diff := to_signed (wrap (to_signed (_block it) - _block rhs)) in
  let offset_diff := to_signed (wrap (to_signed (_offset it) - _offset rhs)) in
  to_signed (wrap (wrap (block_diff * BLOCK_SIZE) + offset_diff)).

(** [operator==] *)
Definition eqb (it rhs : t) : bool :=
  bool_decide (_map_ptr it = _map_ptr rhs)
  && (_block it =? _block rhs) && (_offset it =? _offset rhs).

(** [operator!=] *)
Definition neqb (it rhs : t) : bool := negb (eqb it rhs).

(** [operator<] *)
Definition ltb (it rhs : t) : bool :=
  bool_decide (_map_ptr it = _map_ptr rhs)
  && ((_block it <? _block rhs)
      || ((_block it =? _block rhs) && (_offset it <? _offset rhs))).

(** [operator>], [operator<=], [operator>=] *)
Definition gtb (it other : t) : bool := ltb other it.
Definition leb (it other : t) : bool := negb (ltb other it).
Definition geb (it other : t) : bool := negb (ltb it other).

End Iterator.

(** [Const_Iterator] repeats the arithmetic of [Iterator]; its increment
    tests [>=] instead of [==].  Its dereference operator first dereferences
    [_map_ptr] and then subscripts twice, which subscripts an element rather
    than a block and so has no meaning for an arbitrary element type; the members
    that would read through it (the copy constructor, [operator==] of the
    container) are therefore left out of the embedding. *)

Module Const_Iterator.

Record t : Type := Make { _map_ptr : ptr; _block : Z; _offset : Z }.

(** [Const_Iterator(const Iterator&)] *)
Definition of_iterator (it : Iterator.t) : t :=
  Make (Iterator._map_ptr it) (Iterator._block it) (Iterator._offset it).

Definition incr (it : t) : t :=
  let offset := wrap (_offset it + 1) in
  if offset >=? BLOCK_SIZE then Make (_map_ptr it) (wrap (_block it + 1)) 0
  else Make (_map_ptr it) (_block it) offset.

Definition decr (it : t) : t :=
  if _offset it =? 0 then Make (_map_ptr it) (wrap (_block it - 1)) (BLOCK_SIZE - 1)
  else Make (_map_ptr it) (_block it) (wrap (_offset it - 1)).

Definition plus (it : t) (n : Z) : t :=
  let offset := to_signed (to_signed (_offset it) + n) in
  let block := wrap (_block it + wrap offset / BLOCK_SIZE) in
  let off := wrap offset mod BLOCK_SIZE in
  if off <? 0 then Make (_map_ptr it) (wrap (block - 1)) (wrap (off + BLOCK_SIZE))
  else Make (_map_ptr it) block off.

Definition minus (it : t) (n : Z) : t := plus it (to_signed (- n)).

Definition diff (it rhs : t) : Z :=
  let block_diff := to_signed (wrap (to_signed (_block it) - _block rhs)) in
  let offset_diff := to_signed (wrap (to_signed (_offset it) - _offset rhs)) in
  to_signed (wrap (wrap (block_diff * BLOCK_SIZE) + offset_diff)).

Definition eqb (it rhs : t) : bool :=
  bool_decide (_map_ptr it = _map_ptr rhs)
  && (_block it =? _block rhs) && (_offset it =? _offset rhs).

Definition neqb (it rhs : t) : bool := negb (eqb it rhs).

Definition ltb (it rhs : t) : bool :=
  bool_decide (_map_ptr it = _map_ptr rhs)
  && ((_block it <? _block rhs)
      || ((_block it =? _block rhs) && (_offset it <? _offset rhs))).

End Const_Iterator.

(** ** Members that take or return iterators *)

Definition begin (d : Deque) : Iterator.t :=
  Iterator.Make (_map d) (_start_block d) (_start_offset d).

Definition end_ (d : Deque) : Iterator.t :=
  Iterator.Make (_map d) (_finish_block d) (_finish_offset d).

Definition cbegin (d : Deque) : Const_Iterator.t :=
  Const_Iterator.Make (_map d) (_start_block d) (_start_offset d).

Definition cend (d : Deque) : Const_Iterator.t :=
  Const_Iterator.Make (_map d) (_finish_block d) (_finish_offset d).

(** A [const_reference] parameter designates an object without copying it:
    either an element cell of a block in the free store, read when the body
    reads it, or an object outside every block (a temporary, a local
    variable), which no member writes and which is given by its value. *)
Inductive const_reference (T : Type) : Type :=
| Outside (v : T)
| Inside (r : ref).
Arguments Outside {T} v.
Arguments Inside {T} r.

Section Positional.

Context {T : Type}.

Local Abbreviation M := (M T).

(** Lvalue-to-rvalue conversion through a [const_reference]. *)
Definition read (value : const_reference T) : M T :=
  match value with
  | Outside v => ret v
  | Inside r => load r
  end.

(** [for (i = from; i > index; --i)], each step assigning element [i - 1]
    to element [i]. *)
Fixpoint shift_right (fuel : nat) (i index : Z) : M unit :=
  match fuel with
  | O => ret tt
  | S fuel' =>
      if i >? index then
        dst <- subscript i ;;
        src <- subscript (wrap (i - 1)) ;;
        v <- load src ;;
        store dst v ;;
        shift_right fuel' (wrap (i - 1)) index
      else ret tt
  end.

(** [for (i = from; i < size() - 1; ++i)], each step assigning element
    [i + 1] to element [i]. *)
Fixpoint shift_left (fuel : nat) (i : Z) : M unit :=
  match fuel with
  | O => ret tt
  | S fuel' =>
      n <- get size ;;
      if i <? wrap (n - 1) then
        dst <- subscript i ;;
        src <- subscript (wrap (i + 1)) ;;
        v <- load src ;;
        store dst v ;;
        shift_left fuel' (wrap (i + 1))
      else ret tt
  end.

Definition emplace (pos : Iterator.t) (value : T) : M Iterator.t :=
  first <- get begin ;;
  let index := wrap (Iterator.diff pos first) in
  n <- get _size ;;
  cap <- get capacity ;;
  (if n =? cap then
     map_size <- get _map_size ;;
     resize_map (wrap (map_size * 2))
   else ret tt) ;;
  shift_right (Z.to_nat n) n index ;;
  let block := index / BLOCK_SIZE in
  let offset := index mod BLOCK_SIZE in
  m <- get _map ;;
  r <- map_elem m block offset ;;
  destroy_at r ;;
  construct_at r value ;;
  n <- get _size ;;
  set (with_size (wrap (n + 1))) ;;
  m <- get _map ;;
  ret (Iterator.Make m block offset).

(** [insert(iterator pos, const_reference value)].  [value] is read where
    the body reads it: by the [push_back] of the first branch, which writes
    no cell before it copies its argument, and, in the second branch, by the
    assignment to element [index], after the shifting loop has run. *)
Definition insert (pos : Iterator.t) (value : const_reference T) : M Iterator.t :=
  first <- get begin ;;
  let index := wrap (Iterator.diff pos first) in
  n <- get size ;;
  if index =? n then
    v <- read value ;;
    push_back v ;;
    last <- get end_ ;;
    ret (Iterator.minus last 1)
  else
    b <- back ;;
    v <- load b ;;
    push_back v ;;
    n <- get size ;;
    shift_right (Z.to_nat n) (wrap (n - 1)) index ;;
    r <- subscript index ;;
    v <- read value ;;
    store r v ;;
    first <- get begin ;;
    ret (Iterator.plus first (to_signed index)).

Definition erase (pos : Iterator.t) : M Iterator.t :=
  first <- get begin ;;
  let index := wrap (Iterator.diff pos first) in
  n <- get size ;;
  shift_left (Z.to_nat (wrap (n - 1))) index ;;
  pop_back ;;
  first <- get begin ;;
  ret (Iterator.plus first (to_signed index)).

End Positional.

(** ** Vocabulary of the properties *)

Section Vocabulary.

Context {T : Type}.

(** A member function that never leaves by an exception. *)
Definition no_throw {A} (c : M T A) : Prop :=
  forall s s' : state T, c s <> Throw s'.

(** The slot array the object's map pointer designates, if any. *)
Definition map_slots (s : state T) : option (list ptr) :=
  match _map (self s) with
  | Some l =>
      match objs (mem s) !! l with
      | Some (MapArr slots) => Some slots
      | _ => None
      end
  | None => None
  end.

(** Map slot [k] owns a block: the slot exists, is not null, and points to
    block storage in the free store. *)
Definition block_allocated (s : state T) (k : Z) : bool :=
  match map_slots s with
  | Some slots =>
      match slots !! Z.to_nat k with
      | Some (Some b) =>
          (0 <=? k) &&
          match objs (mem s) !! b with
          | Some (BlockArr _) => true
          | _ => false
          end
      | _ => false
      end
  | None => false
  end.

(** Every block index of the closed range between the cursors owns a block. *)
Definition live_range_allocated (s : state T) : Prop :=
  forall k : Z,
    _start_block (self s) <= k <= _finish_block (self s) ->
    block_allocated s k = true.

(** The size equation of the data model. *)
Definition size_equation (d : Deque) : Prop :=
  _size d =
  (_finish_block d - _start_block d) * BLOCK_SIZE
  + _finish_offset d - _start_offset d.

(** The physical slot the data model assigns to logical index [i]. *)
Definition slot_block (d : Deque) (i : Z) : Z :=
  _start_block d + (_start_offset d + i) / BLOCK_SIZE.
Definition slot_offset (d : Deque) (i : Z) : Z :=
  (_start_offset d + i) mod BLOCK_SIZE.

(** The iterator reached from [begin()] by [i] increments: the position of
    the [i]-th element in front-to-back order. *)
Definition ith (d : Deque) (i : Z) : Iterator.t :=
  Nat.iter (Z.to_nat i) Iterator.incr (begin d).

(** A caller reading the container out by index,
    [for (i = 0; i < d.size(); ++i) out.push_back(d.at(i))]. *)
Fixpoint read_from (k : nat) (i : Z) : M T (list T) :=
  match k with
  | O => ret []
  | S k' =>
      r <- at_ i ;;
      v <- load r ;;
      rest <- read_from k' (wrap (i + 1)) ;;
      ret (v :: rest)
  end.
Definition read_all : M T (list T) :=
  n <- get size ;;
  read_from (Z.to_nat n) 0.

(** The cursor invariants of the data model: offsets inside their blocks,
    the block range inside the map, the start not after the finish, and the
    size equation. *)
Definition cursors_wf (d : Deque) : Prop :=
  0 <= _start_block d /\
  _start_block d <= _finish_block d + 1 /\
  0 <= _finish_block d < _map_size d /\
  0 <= _start_offset d < BLOCK_SIZE /\
  0 <= _finish_offset d <= BLOCK_SIZE /\
  0 <= _size d /\
  size_equation d.

(** The object representation each end operation leaves when it ends
    normally, as a function of the one it found; [m] is the address a new
    map gets if the map has to grow. *)
Definition grown (add_to_front : bool) (m : ptr) (d : Deque) : Deque :=
  let old_block_count := wrap (wrap (_finish_block d - _start_block d) + 1) in
  let new_map_size := Z.max 8 (wrap (_map_size d * 2)) in
  let new_start_block :=
    if add_to_front then new_map_size / 4
    else wrap (new_map_size / 2 - old_block_count / 2) in
  with_map_size new_map_size
    (with_finish_block (wrap (wrap (new_start_block + old_block_count) - 1))
       (with_start_block new_start_block (with_map m d))).

Definition after_push_back (m : ptr) (d : Deque) : Deque :=
  let d1 :=
    if _finish_offset d =? BLOCK_SIZE then
      let d2 :=
        if wrap (_finish_block d + 1) >=? _map_size d then grown false m d else d in
      with_finish_offset 0 (with_finish_block (wrap (_finish_block d2 + 1)) d2)
    else d in
  with_size (wrap (_size d1 + 1))
    (with_finish_offset (wrap (_finish_offset d1 + 1)) d1).

Definition after_push_front (m : ptr) (d : Deque) : Deque :=
  let d1 :=
    if _start_offset d =? 0 then
      let d2 := if _start_block d =? 0 then grown true m d else d in
      with_start_offset BLOCK_SIZE (with_start_block (wrap (_start_block d2 - 1)) d2)
    else d in
  with_size (wrap (_size d1 + 1))
    (with_start_offset (wrap (_start_offset d1 - 1)) d1).

Definition after_pop_back (d : Deque) : Deque :=
  let d1 :=
    if _finish_offset d =? 0 then
      with_finish_offset (BLOCK_SIZE - 1)
        (with_finish_block (wrap (_finish_block d - 1)) d)
    else with_finish_offset (wrap (_finish_offset d - 1)) d in
  with_size (wrap (_size d1 - 1)) d1.

Definition after_pop_front (d : Deque) : Deque :=
  let d1 := with_start_offset (wrap (_start_offset d + 1)) d in
  let d2 :=
    if _start_offset d1 =? BLOCK_SIZE then
      with_start_offset 0 (with_start_block (wrap (_start_block d + 1)) d1)
    else d1 in
  with_size (wrap (_size d2 - 1)) d2.

(** The operations at the two ends. *)
Inductive end_op : Type :=
| PushBack (v : T)
| PushFront (v : T)
| PopBack
| PopFront.

Definition run_end_op (o : end_op) : M T unit :=
  match o with
  | PushBack v => push_back v
  | PushFront v => push_front v
  | PopBack => pop_back
  | PopFront => pop_front
  end.

(** States reached from a default-constructed container by operations at
    the ends that end normally, the map staying below [2 ^ 55] slots (a map
    of [2 ^ 58] bytes). *)
Inductive reachable_by_ends : state T -> Prop :=
| reach_default (s0 s : state T) :
    Deque_default s0 = Ok tt s -> reachable_by_ends s
| reach_step (s s' : state T) (o : end_op) :
    reachable_by_ends s ->
    _map_size (self s) <= 2 ^ 55 ->
    run_end_op o s = Ok tt s' ->
    reachable_by_ends s'.

(** A member that may change the free store but not the object. *)
Definition keeps_self {A} (c : M T A) : Prop :=
  forall (s s' : state T) (a : A), c s = Ok a s' -> self s' = self s.

End Vocabulary.

(** The position floor division assigns to [it + n]. *)
Definition floor_plus (it : Iterator.t) (n : Z) : Iterator.t :=
  Iterator.Make (Iterator._map_ptr it)
    (Iterator._block it + (Iterator._offset it + n) / BLOCK_SIZE)
    ((Iterator._offset it + n) mod BLOCK_SIZE).

(** ** Scenarios over [int] elements *)

(** Storage of an object before its constructor has run, and an empty free
    store. *)
Definition raw_storage : Deque := MkDeque nullptr 0 0 0 0 0 0.
Definition boot : state Z := State (Heap ∅ 1%positive) raw_storage.

(** The state after running [c] from [boot]; [boot] itself if [c] does not
    end normally.  The scenarios below are stored evaluated. *)
Definition after (c : M Z unit) : state Z :=
  match c boot with
  | Ok _ s => s
  | _ => boot
  end.

(** [Deque<int> d{3, 5, 4, 6, 9};] *)
Definition demo : state Z :=
  Eval vm_compute in after (Deque_init [3; 5; 4; 6; 9]).

(** [Deque<int> d(64, 7);]: the first block exactly filled. *)
Definition full_block : state Z := Eval vm_compute in after (Deque_fill 64 7).

(** [Deque<int> d; d.push_front(7);]: one element, the live range straddling
    a block boundary. *)
Definition straddling : state Z :=
  Eval vm_compute in after (Deque_default ;; push_front 7).

(** [Deque<int> d(1, 7); d.clear();] *)
Definition cleared : state Z := Eval vm_compute in after (Deque_fill 1 7 ;; clear).

(** [Deque<int> a(1, 7); Deque<int> b(std::move(a));]: the state holds [b],
    the result is the representation of [a] afterwards. *)
Definition move_constructed : result (state Z) Deque :=
  Eval vm_compute in
  (Deque_fill 1 7 ;;
   a <- get id ;;
   set (fun _ => raw_storage) ;;
   Deque_move a) boot.

(** [Deque<int> a(1, 7); Deque<int> b; b = std::move(a);] *)
Definition move_assigned : result (state Z) Deque :=
  Eval vm_compute in
  (Deque_fill 1 7 ;;
   a <- get id ;;
   set (fun _ => raw_storage) ;;
   Deque_default ;;
   move_assign a) boot.

(** [Deque<int> a(1, 7); Deque<int> b; b = a;] *)
Definition copy_assigned : result (state Z) unit :=
  Eval vm_compute in
  (Deque_fill 1 7 ;;
   a <- get id ;;
   set (fun _ => raw_storage) ;;
   Deque_default ;;
   copy_assign a) boot.

(** [Deque<int> a; Deque<int> b(1, 7); b = a;] *)
Definition copy_assigned_empty : result (state Z) unit :=
  Eval vm_compute in
  (Deque_default ;;
   a <- get id ;;
   set (fun _ => raw_storage) ;;
   Deque_fill 1 7 ;;
   copy_assign a) boot.

(** [Deque<int> d{3, 5, 4, 6, 9}; d.clear();] *)
Definition demo_cleared : state Z :=
  Eval vm_compute in after (Deque_init [3; 5; 4; 6; 9] ;; clear).

(** [Deque<int> a(1, 7); Deque<int> b;]: the state holds [b], in the free
    store that also holds the blocks of [a]. *)
Definition one_element : state Z := Eval vm_compute in after (Deque_fill 1 7).
Definition beside_one_element : state Z :=
  Eval vm_compute in
  after (Deque_fill 1 7 ;; set (fun _ => raw_storage) ;; Deque_default).

(** [Deque<int> d; for (i = 0; i < 200; ++i) d.push_front(i);] *)
Definition pushed_front_200 : state Z :=
  Eval vm_compute in
  after (Deque_default ;; for_upto 200 (fun i => push_front i)).

(** ** Vocabulary of the further properties *)

(** The position of an iterator counted in elements from the start of the
    map. *)
Definition flat (it : Iterator.t) : Z :=
  Iterator._block it * BLOCK_SIZE + Iterator._offset it.

(** An iterator whose offset lies inside a block and whose flat position is
    representable. *)
Definition normal (it : Iterator.t) : Prop :=
  0 <= Iterator._block it /\
  0 <= Iterator._offset it < BLOCK_SIZE /\
  flat it + BLOCK_SIZE < 2 ^ 63.

(** [n] calls of one member in a row. *)
Definition times {T} (n : Z) (c : M T unit) : M T unit :=
  for_upto n (fun _ => c).

(** A call whose result the caller drops. *)
Definition discard {T A} (c : M T A) : M T unit :=
  _ <- c ;; ret tt.

(** A cursor position: as [normal], but the offset may be one past the
    block, as the finish cursor's can. *)
Definition addressable (it : Iterator.t) : Prop :=
  0 <= Iterator._block it /\
  0 <= Iterator._offset it <= BLOCK_SIZE /\
  flat it + BLOCK_SIZE < 2 ^ 63.

(** ** The sequence a container holds *)

Section Abstraction.

Context {T : Type}.

(** Addresses from [next] on were never handed out. *)
Definition heap_wf (h : heap T) : Prop :=
  forall p : loc, (next h <= p)%positive -> objs h !! p = None.

(** Non-null slots point to blocks of [BLOCK_SIZE] cells, no two to the
    same one. *)
Definition blocks_wf (h : heap T) (slots : list ptr) : Prop :=
  (forall (k : nat) (b : loc), slots !! k = Some (Some b) ->
     exists cells, objs h !! b = Some (BlockArr cells) /\
                   length cells = Z.to_nat BLOCK_SIZE) /\
  (forall (k1 k2 : nat) (b : loc),
     slots !! k1 = Some (Some b) -> slots !! k2 = Some (Some b) -> k1 = k2).

(** The object in cell [o] of the block of slot [k], if there is one. *)
Definition cell (h : heap T) (slots : list ptr) (k o : Z) : option T :=
  match slots !! Z.to_nat k with
  | Some (Some b) =>
      match objs h !! b with
      | Some (BlockArr cells) =>
          match cells !! Z.to_nat o with
          | Some (Some v) => Some v
          | _ => None
          end
      | _ => None
      end
  | _ => None
  end.

(** [cursors_wf] with a start offset that may be [BLOCK_SIZE], as it is in
    the middle of [push_front]. *)
Definition cursors_loose (d : Deque) : Prop :=
  0 <= _start_block d /\
  _start_block d <= _finish_block d + 1 /\
  0 <= _finish_block d < _map_size d /\
  0 <= _start_offset d <= BLOCK_SIZE /\
  0 <= _finish_offset d <= BLOCK_SIZE /\
  0 <= _size d /\
  size_equation d.

(** The free store and the object represent the sequence [l]: the map
    pointer designates a slot array of [_map_size] slots whose non-null
    slots own distinct blocks, the slots below the start block are null,
    those between the cursors own a block, and the cell of logical index
    [i] holds [l !! i]. *)
Definition stored (l : list T) (s : state T) : Prop :=
  heap_wf (mem s) /\
  cursors_loose (self s) /\
  Z.of_nat (length l) = _size (self s) /\
  exists (m : loc) (slots : list ptr),
    _map (self s) = Some m /\
    objs (mem s) !! m = Some (MapArr slots) /\
    Z.of_nat (length slots) = _map_size (self s) /\
    blocks_wf (mem s) slots /\
    (forall k : Z, 0 <= k < _start_block (self s) ->
       slots !! Z.to_nat k = Some nullptr) /\
    (forall k : Z, _start_block (self s) <= k <= _finish_block (self s) ->
       exists b : loc, slots !! Z.to_nat k = Some (Some b)) /\
    (forall (i : nat) (v : T), l !! i = Some v ->
       cell (mem s) slots (slot_block (self s) (Z.of_nat i))
            (slot_offset (self s) (Z.of_nat i)) = Some v).

Definition holds (l : list T) (s : state T) : Prop :=
  stored l s /\ _start_offset (self s) < BLOCK_SIZE.

(** Every element of the container of [s] is in the same cell in [s']:
    the reference [operator[]] gives for an index below [size()] is the one
    it gives in [s']. *)
Definition keeps_refs (s s' : state T) : Prop :=
  forall (i : Z) (r : ref),
    0 <= i < _size (self s) ->
    subscript i s = Ok r s -> subscript i s' = Ok r s'.

(** The cursors of a container that has only been pushed to at the back:
    the start cursor still at the head of its block in the lower half of
    the map, and the map at most four slots per block in use, plus four. *)
Definition packed (d : Deque) : Prop :=
  _start_offset d = 0 /\
  2 * _start_block d <= _map_size d /\
  _map_size d <= 4 * (_finish_block d - _start_block d + 1) + 4.



(** *** The steps of the end operations

    [push_back] and [emplace_back] first make room at the finish cursor and
    then construct there; [push_front] and [emplace_front] likewise at the
    start cursor. *)

(** [if (_map[index] == nullptr) allocate_block(index);] *)
Definition ensure_block (index : Z) : M T unit :=
  m <- get _map ;;
  p <- map_load m index ;;
  match p with
  | None => allocate_block index
  | Some _ => ret tt
  end.

Definition room_at_back : M T unit :=
  finish_offset <- get _finish_offset ;;
  if finish_offset =? BLOCK_SIZE then
    finish_block <- get _finish_block ;;
    map_size <- get _map_size ;;
    (if wrap (finish_block + 1) >=? map_size then reallocate_map false else ret tt) ;;
    finish_block <- get _finish_block ;;
    ensure_block (wrap (finish_block + 1)) ;;
    set (with_finish_block (wrap (finish_block + 1))) ;;
    set (with_finish_offset 0)
  else ret tt.

Definition construct_back (value : T) : M T unit :=
  m <- get _map ;;
  finish_block <- get _finish_block ;;
  finish_offset <- get _finish_offset ;;
  r <- map_elem m finish_block finish_offset ;;
  construct_at r value ;;
  set (with_finish_offset (wrap (finish_offset + 1))) ;;
  n <- get _size ;;
  set (with_size (wrap (n + 1))).

Definition room_at_front : M T unit :=
  start_offset <- get _start_offset ;;
  if start_offset =? 0 then
    start_block <- get _start_block ;;
    (if start_block =? 0 then reallocate_map true else ret tt) ;;
    start_block <- get _start_block ;;
    ensure_block (wrap (start_block - 1)) ;;
    set (with_start_block (wrap (start_block - 1))) ;;
    set (with_start_offset BLOCK_SIZE)
  else ret tt.

Definition construct_front (value : T) : M T unit :=
  start_offset <- get _start_offset ;;
  set (with_start_offset (wrap (start_offset - 1))) ;;
  m <- get _map ;;
  start_block <- get _start_block ;;
  start_offset <- get _start_offset ;;
  r <- map_elem m start_block start_offset ;;
  construct_at r value ;;
  n <- get _size ;;
  set (with_size (wrap (n + 1))).

End Abstraction.

(** * Properties *)

(** ** Machine arithmetic *)

Lemma wrap_small (z : Z) : 0 <= z < 2 ^ 64 -> wrap z = z.
Proof. intros H. unfold wrap. apply Z.mod_small. exact H. Qed.

Lemma wrap_range (z : Z) : 0 <= wrap z < 2 ^ 64.
Proof. unfold wrap. apply Z.mod_pos_bound. reflexivity. Qed.

Lemma to_signed_small (z : Z) : - 2 ^ 63 <= z < 2 ^ 63 -> to_signed z = z.
Proof. intros H. unfold to_signed. rewrite Z.mod_small; lia. Qed.

Lemma wrap_negative (z : Z) : - 2 ^ 64 <= z < 0 -> wrap z = z + 2 ^ 64.
Proof.
  intros H. unfold wrap.
  rewrite <- (Z.mod_add z 1 (2 ^ 64)) by lia.
  rewrite Z.mul_1_l. apply Z.mod_small. lia.
Qed.

(** ** Iterator arithmetic *)

Section IteratorFacts.

Import Iterator.

Lemma incr_flat (it : t) :
  0 <= _block it ->
  0 <= _offset it < BLOCK_SIZE ->
  _block it * BLOCK_SIZE + _offset it + 1 < 2 ^ 64 ->
  incr it = floor_plus it 1.
Proof.
  unfold floor_plus, BLOCK_SIZE. intros Hb Ho Hfit. unfold incr, BLOCK_SIZE.
  rewrite (wrap_small (_offset it + 1)) by lia.
  destruct (Z.eqb_spec (_offset it + 1) 64) as [E|E].
  - rewrite E. change (64 / 64) with 1. change (64 mod 64) with 0.
    rewrite wrap_small by lia. reflexivity.
  - rewrite Z.div_small by lia. rewrite Z.mod_small by lia.
    rewrite Z.add_0_r. reflexivity.
Qed.

Lemma floor_step (o n : Z) :
  (o + n) mod 64 + 1 + (o + n) / 64 * 64 = o + (n + 1).
Proof. pose proof (Z.div_mod (o + n) 64 ltac:(lia)). lia. Qed.

Lemma iter_incr_flat (n : nat) (it : t) :
  0 <= _block it ->
  0 <= _offset it < BLOCK_SIZE ->
  _block it * BLOCK_SIZE + _offset it + Z.of_nat n < 2 ^ 64 ->
  Nat.iter n incr it = floor_plus it (Z.of_nat n).
Proof.
  unfold floor_plus, BLOCK_SIZE. intros Hb Ho.
  induction n as [|n IH]; intros Hfit.
  - simpl. rewrite Z.add_0_r, Z.div_small, Z.mod_small, Z.add_0_r by lia.
    destruct it; reflexivity.
  - change (Nat.iter (S n) incr it) with (incr (Nat.iter n incr it)).
    rewrite IH by lia.
    pose proof (Z.mod_pos_bound (_offset it + Z.of_nat n) 64 ltac:(lia)) as Hr.
    assert (0 <= (_offset it + Z.of_nat n) / 64) as Hq by (apply Z.div_pos; lia).
    pose proof (floor_step (_offset it) (Z.of_nat n)) as Hs.
    rewrite incr_flat; unfold floor_plus, BLOCK_SIZE;
      cbn [_block _offset _map_ptr]; try lia.
    replace (Z.of_nat (S n)) with (Z.of_nat n + 1) by lia.
    rewrite <- Hs. rewrite Z.div_add, Z.mod_add by lia.
    f_equal. lia.
Qed.

(** An increment keeps the offset inside a block. *)
Lemma incr_offset_range (it : t) :
  0 <= _offset it < BLOCK_SIZE -> 0 <= _offset (incr it) < BLOCK_SIZE.
Proof.
  unfold BLOCK_SIZE. intros Ho. unfold incr, BLOCK_SIZE.
  rewrite (wrap_small (_offset it + 1)) by lia.
  destruct (Z.eqb_spec (_offset it + 1) 64); cbn [_offset]; lia.
Qed.

Lemma iter_incr_offset_range (n : nat) (it : t) :
  0 <= _offset it < BLOCK_SIZE ->
  0 <= _offset (Nat.iter n incr it) < BLOCK_SIZE.
Proof.
  intros Ho. induction n as [|n IH]; [exact Ho|].
  change (Nat.iter (S n) incr it) with (incr (Nat.iter n incr it)).
  apply incr_offset_range. exact IH.
Qed.

(** What [operator+] computes once the conversions are written out. *)
Lemma plus_unfold (it : t) (n : Z) :
  0 <= _offset it < BLOCK_SIZE ->
  - 2 ^ 63 <= _offset it + n < 2 ^ 63 ->
  plus it n =
    Make (_map_ptr it)
         (wrap (_block it + wrap (_offset it + n) / BLOCK_SIZE))
         (wrap (_offset it + n) mod BLOCK_SIZE).
Proof.
  unfold BLOCK_SIZE. intros Ho Hn. unfold plus, BLOCK_SIZE.
  rewrite (to_signed_small (_offset it)) by lia.
  rewrite (to_signed_small (_offset it + n)) by lia.
  pose proof (Z.mod_pos_bound (wrap (_offset it + n)) 64 ltac:(lia)) as Hr.
  destruct (Z.ltb_spec (wrap (_offset it + n) mod 64) 0); [lia | reflexivity].
Qed.

(** Forward, and backward inside the block, [operator+] is floor division. *)
Lemma plus_nonnegative (it : t) (n : Z) :
  0 <= _block it ->
  0 <= _offset it < BLOCK_SIZE ->
  0 <= _offset it + n ->
  _block it * BLOCK_SIZE + _offset it + n < 2 ^ 63 ->
  plus it n = floor_plus it n.
Proof.
  unfold BLOCK_SIZE. intros Hb Ho Hn Hfit.
  rewrite plus_unfold by (unfold BLOCK_SIZE; lia).
  unfold floor_plus, BLOCK_SIZE.
  rewrite (wrap_small (_offset it + n)) by lia.
  assert (0 <= (_offset it + n) / 64) by (apply Z.div_pos; lia).
  assert ((_offset it + n) / 64 <= _offset it + n)
    by (apply Z.div_le_upper_bound; lia).
  rewrite wrap_small by lia. reflexivity.
Qed.

(** Backward across a block boundary the unsigned division is off by
    [2 ^ 64 / BLOCK_SIZE] blocks. *)
Lemma plus_negative (it : t) (n : Z) :
  0 <= _block it < 2 ^ 63 ->
  0 <= _offset it < BLOCK_SIZE ->
  - 2 ^ 63 <= _offset it + n < 0 ->
  plus it n =
    Make (_map_ptr it)
         (_block it + 2 ^ 58 + (_offset it + n) / BLOCK_SIZE)
         ((_offset it + n) mod BLOCK_SIZE).
Proof.
  unfold BLOCK_SIZE. intros Hb Ho Hn.
  rewrite plus_unfold by (unfold BLOCK_SIZE; lia).
  unfold BLOCK_SIZE.
  rewrite (wrap_negative (_offset it + n)) by lia.
  change (2 ^ 64) with (2 ^ 58 * 64).
  rewrite Z.div_add, Z.mod_add by lia.
  assert (- 2 ^ 57 <= (_offset it + n) / 64)
    by (apply Z.div_le_lower_bound; lia).
  assert ((_offset it + n) / 64 < 0)
    by (apply Z.div_lt_upper_bound; lia).
  rewrite wrap_small by lia.
  f_equal. lia.
Qed.

End IteratorFacts.

(** ** Running member functions *)

Section Execution.

Context {T : Type}.
Implicit Types s : state T.

Lemma bind_get {A B} (f : Deque -> A) (k : A -> M T B) s :
  bind (get f) k s = k (f (self s)) s.
Proof. reflexivity. Qed.

Lemma bind_set {B} (f : Deque -> Deque) (k : unit -> M T B) s :
  bind (set f) k s = k tt (State (mem s) (f (self s))).
Proof. reflexivity. Qed.

Lemma bind_ret {A B} (a : A) (k : A -> M T B) s : bind (ret a) k s = k a s.
Proof. reflexivity. Qed.

Lemma bind_bind {A B C} (c : M T A) (k : A -> M T B) (k' : B -> M T C) s :
  bind (bind c k) k' s = bind c (fun a => bind (k a) k') s.
Proof. unfold bind. destruct (c s); reflexivity. Qed.

Lemma bind_ok {A B} (c : M T A) (k : A -> M T B) s a s1 :
  c s = Ok a s1 -> bind c k s = k a s1.
Proof. intros E. unfold bind. rewrite E. reflexivity. Qed.

Lemma bind_undefined {A B} (c : M T A) (k : A -> M T B) s :
  c s = UB -> bind c k s = UB.
Proof. intros E. unfold bind. rewrite E. reflexivity. Qed.

(** A normal end of [c ;; k] splits into a normal end of each. *)
Lemma bind_ok_inv {A B} (c : M T A) (k : A -> M T B) s b s' :
  bind c k s = Ok b s' -> exists a s1, c s = Ok a s1 /\ k a s1 = Ok b s'.
Proof.
  unfold bind. destruct (c s) as [a s1|s1|]; [eauto | discriminate | discriminate].
Qed.

Lemma map_load_ok s l slots i p :
  objs (mem s) !! l = Some (MapArr slots) ->
  0 <= i -> slots !! Z.to_nat i = Some p ->
  map_load (Some l) i s = Ok p s.
Proof.
  intros Hl Hi Hp. unfold map_load. rewrite Hl, Hp.
  destruct (Z.leb_spec 0 i); [reflexivity | lia].
Qed.

Lemma map_elem_ok s l slots i b o :
  objs (mem s) !! l = Some (MapArr slots) ->
  0 <= i -> slots !! Z.to_nat i = Some (Some b) ->
  map_elem (Some l) i o s = Ok (b, o) s.
Proof.
  intros Hl Hi Hp. unfold map_elem.
  rewrite (bind_ok _ _ _ _ _ (map_load_ok s l slots i (Some b) Hl Hi Hp)).
  reflexivity.
Qed.

(** Through a null map pointer, or a null slot, there is no element. *)
Lemma map_elem_null i o s : @map_elem T nullptr i o s = UB.
Proof. reflexivity. Qed.

Lemma map_elem_null_slot s l slots i o :
  objs (mem s) !! l = Some (MapArr slots) ->
  slots !! Z.to_nat i = Some nullptr \/ slots !! Z.to_nat i = None ->
  map_elem (Some l) i o s = UB.
Proof.
  intros Hl Hp. unfold map_elem, bind, map_load. rewrite Hl.
  destruct Hp as [-> | ->]; [destruct (0 <=? i) |]; reflexivity.
Qed.

Lemma map_store_ok s l slots i p :
  objs (mem s) !! l = Some (MapArr slots) ->
  0 <= i -> (Z.to_nat i < length slots)%nat ->
  map_store (Some l) i p s =
    Ok tt (State (Heap (<[l := MapArr (<[Z.to_nat i := p]> slots)]> (objs (mem s)))
                       (next (mem s))) (self s)).
Proof.
  intros Hl Hi Hlen. unfold map_store. rewrite Hl.
  destruct (Z.leb_spec 0 i); [|lia].
  destruct (Z.ltb_spec i (Z.of_nat (length slots))); [reflexivity | lia].
Qed.

Lemma cell_update_ok s b cells o c :
  objs (mem s) !! b = Some (BlockArr cells) ->
  0 <= o -> (Z.to_nat o < length cells)%nat ->
  cell_update (b, o) c s =
    Ok tt (State (Heap (<[b := BlockArr (<[Z.to_nat o := c]> cells)]> (objs (mem s)))
                       (next (mem s))) (self s)).
Proof.
  intros Hb Ho Hlen. unfold cell_update. cbn [fst snd]. rewrite Hb.
  destruct (Z.leb_spec 0 o); [|lia].
  destruct (Z.ltb_spec o (Z.of_nat (length cells))); [reflexivity | lia].
Qed.

Lemma delete_ok s l o :
  objs (mem s) !! l = Some o ->
  delete_ (Some l) s =
    Ok tt (State (Heap (delete l (objs (mem s))) (next (mem s))) (self s)).
Proof. intros Hl. unfold delete_. rewrite Hl. reflexivity. Qed.

(** *** Members that cannot throw *)

Lemma no_throw_ret {A} (a : A) : no_throw (T:=T) (ret a).
Proof. intros s s'. discriminate. Qed.

Lemma no_throw_undefined {A} : no_throw (@undefined T A).
Proof. intros s s'. discriminate. Qed.

Lemma no_throw_get {A} (f : Deque -> A) : no_throw (T:=T) (get f).
Proof. intros s s'. discriminate. Qed.

Lemma no_throw_set f : no_throw (@set T f).
Proof. intros s s'. discriminate. Qed.

Lemma no_throw_bind {A B} (c : M T A) (k : A -> M T B) :
  no_throw c -> (forall a, no_throw (k a)) -> no_throw (bind c k).
Proof.
  intros Hc Hk s s'. unfold bind. destruct (c s) as [a s1|s1|] eqn:E.
  - apply Hk.
  - exfalso. exact (Hc _ _ E).
  - discriminate.
Qed.

Lemma no_throw_new o : no_throw (@new_ T o).
Proof. intros s s'. discriminate. Qed.

Lemma no_throw_delete p : no_throw (@delete_ T p).
Proof. intros s s'. unfold delete_. repeat case_match; discriminate. Qed.

Lemma no_throw_map_load m i : no_throw (@map_load T m i).
Proof. intros s s'. unfold map_load. repeat case_match; discriminate. Qed.

Lemma no_throw_map_store m i p : no_throw (@map_store T m i p).
Proof. intros s s'. unfold map_store. repeat case_match; discriminate. Qed.

Lemma no_throw_cell_update r c : no_throw (@cell_update T r c).
Proof. intros s s'. unfold cell_update. repeat case_match; discriminate. Qed.

Lemma no_throw_load r : no_throw (@load T r).
Proof. intros s s'. unfold load. repeat case_match; discriminate. Qed.

Lemma no_throw_for_from (k : nat) (i : Z) (body : Z -> M T unit) :
  (forall j, no_throw (body j)) -> no_throw (for_from k i body).
Proof.
  intros Hbody. revert i. induction k as [|k IH]; intros i; cbn [for_from].
  - apply no_throw_ret.
  - apply no_throw_bind; [apply Hbody | intros _; apply IH].
Qed.

End Execution.

Ltac fields :=
  cbn beta iota delta
    [self mem objs next _map _size _map_size _start_block _start_offset
     _finish_block _finish_offset with_map with_size with_map_size
     with_start_block with_start_offset with_finish_block with_finish_offset].

Ltac exec :=
  repeat first [ progress fields | rewrite bind_get | rewrite bind_set
               | rewrite bind_ret | rewrite bind_bind ].

Ltac no_throw_step :=
  first
    [ apply no_throw_ret | apply no_throw_undefined | apply no_throw_get
    | apply no_throw_set | apply no_throw_new | apply no_throw_delete
    | apply no_throw_map_load | apply no_throw_map_store
    | apply no_throw_cell_update | apply no_throw_load
    | apply no_throw_for_from; intros ?
    | apply no_throw_bind; [ | intros ? ]
    | match goal with |- no_throw (if ?b then _ else _) => destruct b end
    | match goal with |- no_throw (match ?p with _ => _ end) => destruct p end ].

Section Exceptions.

Context {T : Type}.
Implicit Types s : state T.

Lemma no_throw_subscript i : no_throw (@subscript T i).
Proof. unfold subscript. repeat no_throw_step. Qed.

(** A member of the shape "throw if the guard holds, else run a body that
    cannot throw" throws exactly when the guard holds, from the state it was
    entered in. *)
Lemma guard_throws {A} (g : Deque -> bool) (body : M T A) s s' :
  no_throw body ->
  bind (get g) (fun e => if e then throw_out_of_range else body) s = Throw s'
  <-> g (self s) = true /\ s' = s.
Proof.
  intros Hbody. rewrite bind_get.
  destruct (g (self s)).
  - unfold throw_out_of_range. split.
    + intros [= <-]. auto.
    + intros [_ ->]. reflexivity.
  - split.
    + intros E. exfalso. exact (Hbody _ _ E).
    + intros [? _]. discriminate.
Qed.

Lemma at_throws s s' i :
  at_ i s = Throw s' <-> size (self s) <= i /\ s' = s.
Proof.
  unfold at_, size. rewrite bind_get.
  destruct (Z.geb_spec i (_size (self s))) as [H|H].
  - unfold throw_out_of_range. split.
    + intros [= <-]. split; [lia | reflexivity].
    + intros [_ ->]. reflexivity.
  - split.
    + intros E. exfalso. exact (no_throw_subscript i _ _ E).
    + intros [Hle _]. lia.
Qed.

Lemma pop_back_throws s s' :
  pop_back s = Throw s' <-> empty (self s) = true /\ s' = s.
Proof.
  unfold pop_back. apply guard_throws.
  unfold block_pointer, destroy_at. repeat no_throw_step.
Qed.

Lemma pop_front_throws s s' :
  pop_front s = Throw s' <-> empty (self s) = true /\ s' = s.
Proof.
  unfold pop_front. apply guard_throws.
  unfold block_pointer, destroy_at, deallocate_block. repeat no_throw_step.
Qed.

(** C7. [at(i)] throws [std::out_of_range] exactly when [i >= size()], and
    [pop_back()] and [pop_front()] exactly when the container is empty; the
    state the exception leaves is the state the member was called in. *)
Theorem out_of_range_exactly_and_unchanged (s s' : state T) (i : Z) :
  (at_ i s = Throw s' <-> size (self s) <= i /\ s' = s) /\
  (pop_back s = Throw s' <-> size (self s) = 0 /\ s' = s) /\
  (pop_front s = Throw s' <-> size (self s) = 0 /\ s' = s).
Proof.
  split; [apply at_throws|].
  assert (empty (self s) = true <-> size (self s) = 0) as He
    by (unfold empty, size; apply Z.eqb_eq).
  split.
  - rewrite pop_back_throws, He. reflexivity.
  - rewrite pop_front_throws, He. reflexivity.
Qed.

End Exceptions.

(** ** Element access *)

Section Access.

Context {T : Type}.
Implicit Types s : state T.

(** [operator[]] addresses the slot of the data model; nothing is assumed
    about what the map holds there. *)
Lemma subscript_slot s i :
  0 <= _start_block (self s) ->
  0 <= _start_offset (self s) < BLOCK_SIZE ->
  0 <= i ->
  _start_block (self s) * BLOCK_SIZE + _start_offset (self s) + i < 2 ^ 64 ->
  subscript i s =
    map_elem (_map (self s)) (slot_block (self s) i) (slot_offset (self s) i) s.
Proof.
  unfold BLOCK_SIZE. intros Hb Ho Hi Hfit.
  unfold subscript, slot_block, slot_offset, BLOCK_SIZE. exec.
  rewrite (wrap_small (_start_offset (self s) + i)) by lia.
  assert (0 <= (_start_offset (self s) + i) / 64) by (apply Z.div_pos; lia).
  assert ((_start_offset (self s) + i) / 64 <= _start_offset (self s) + i)
    by (apply Z.div_le_upper_bound; lia).
  rewrite wrap_small by lia. reflexivity.
Qed.

(** [i] increments from [begin()] stop at the same slot. *)
Lemma ith_slot (d : Deque) (i : Z) :
  0 <= _start_block d ->
  0 <= _start_offset d < BLOCK_SIZE ->
  0 <= i ->
  _start_block d * BLOCK_SIZE + _start_offset d + i < 2 ^ 64 ->
  ith d i = Iterator.Make (_map d) (slot_block d i) (slot_offset d i).
Proof.
  intros Hb Ho Hi Hfit. unfold ith.
  rewrite iter_incr_flat; unfold begin;
    cbn [Iterator._block Iterator._offset Iterator._map_ptr];
    rewrite ?Z2Nat.id by lia; try assumption.
  reflexivity.
Qed.

(** C1. For an index below [size()], [operator[]] and [at] return the element
    at block [start_block + (start_offset + i) / 64], offset
    [(start_offset + i) mod 64], and that element is the one [i] increments
    from [begin()] reach, wherever the start cursor lies in the map. *)
Theorem subscript_is_ith_element
    (s : state T) (i : Z) (l : loc) (slots : list ptr) (b : loc) :
  0 <= _start_block (self s) ->
  0 <= _start_offset (self s) < BLOCK_SIZE ->
  _start_block (self s) * BLOCK_SIZE + _start_offset (self s) + i < 2 ^ 64 ->
  0 <= i < size (self s) ->
  _map (self s) = Some l ->
  objs (mem s) !! l = Some (MapArr slots) ->
  slots !! Z.to_nat (slot_block (self s) i) = Some (Some b) ->
  subscript i s = Ok (b, slot_offset (self s) i) s /\
  at_ i s = Ok (b, slot_offset (self s) i) s /\
  ith (self s) i =
    Iterator.Make (_map (self s)) (slot_block (self s) i) (slot_offset (self s) i) /\
  Iterator.deref (ith (self s) i) s = Ok (b, slot_offset (self s) i) s.
Proof.
  intros Hb Ho Hfit [Hi Hsz] Hm Hl Hslot.
  assert (0 <= slot_block (self s) i) as Hk.
  { unfold slot_block, BLOCK_SIZE in *.
    assert (0 <= (_start_offset (self s) + i) / 64) by (apply Z.div_pos; lia).
    lia. }
  assert (subscript i s = Ok (b, slot_offset (self s) i) s) as Hsub.
  { rewrite subscript_slot by assumption. rewrite Hm.
    eapply map_elem_ok; eassumption. }
  split; [exact Hsub|]. split.
  - unfold at_, size in *. rewrite bind_get.
    destruct (Z.geb_spec i (_size (self s))); [lia | exact Hsub].
  - rewrite ith_slot by assumption. split; [reflexivity|].
    unfold Iterator.deref.
    cbn [Iterator._block Iterator._offset Iterator._map_ptr].
    rewrite Hm. eapply map_elem_ok; eassumption.
Qed.

End Access.

(** ** Removal across a block boundary *)

Section Boundary.

Context {T : Type}.
Implicit Types s : state T.

Lemma pop_front_crossing s l slots b cells :
  empty (self s) = false ->
  _start_offset (self s) = BLOCK_SIZE - 1 ->
  0 <= _start_block (self s) ->
  _map (self s) = Some l ->
  objs (mem s) !! l = Some (MapArr slots) ->
  slots !! Z.to_nat (_start_block (self s)) = Some (Some b) ->
  objs (mem s) !! b = Some (BlockArr cells) ->
  (63 < length cells)%nat ->
  pop_front s =
    Ok tt (State
      (Heap (<[l := MapArr (<[Z.to_nat (_start_block (self s)) := nullptr]> slots)]>
               (delete b (<[b := BlockArr (<[63%nat := None]> cells)]> (objs (mem s)))))
            (next (mem s)))
      (with_size (wrap (_size (self s) - 1))
         (with_start_offset 0
            (with_start_block (wrap (_start_block (self s) + 1)) (self s))))).
Proof.
  intros He Hso Hsb Hm Hl Hslot Hb Hlen.
  assert (Hne : l <> b) by (intros ->; congruence).
  assert (Hin : (Z.to_nat (_start_block (self s)) < length slots)%nat)
    by (eapply lookup_lt_Some; eassumption).
  destruct s as [h [m sz ms sb so fb fo]].
  cbn [mem self _map _start_offset _start_block] in *. subst m so.
  unfold pop_front, block_pointer, destroy_at, deallocate_block. exec.
  rewrite He. exec.
  erewrite bind_ok by (eapply map_elem_ok; cbn [mem]; eassumption).
  erewrite bind_ok
    by (eapply cell_update_ok; cbn [mem];
        first [eassumption | unfold BLOCK_SIZE; lia]).
  change (wrap (BLOCK_SIZE - 1 + 1)) with BLOCK_SIZE.
  change (Z.to_nat (BLOCK_SIZE - 1)) with 63%nat.
  exec.
  change (BLOCK_SIZE =? BLOCK_SIZE) with true. exec.
  erewrite bind_ok
    by (eapply map_load_ok; cbn [mem objs];
        [ rewrite lookup_insert_ne by congruence; eassumption
        | assumption | eassumption ]).
  exec.
  erewrite bind_ok by (eapply delete_ok; cbn [mem objs]; apply lookup_insert_eq).
  exec.
  erewrite bind_ok
    by (eapply map_store_ok; cbn [mem objs];
        [ rewrite lookup_delete_ne, lookup_insert_ne by congruence; eassumption
        | assumption | assumption ]).
  exec. reflexivity.
Qed.

Lemma pop_back_crossing s l slots b cells :
  empty (self s) = false ->
  _finish_offset (self s) = 0 ->
  _map (self s) = Some l ->
  objs (mem s) !! l = Some (MapArr slots) ->
  slots !! Z.to_nat (wrap (_finish_block (self s) - 1)) = Some (Some b) ->
  objs (mem s) !! b = Some (BlockArr cells) ->
  (63 < length cells)%nat ->
  pop_back s =
    Ok tt (State
      (Heap (<[b := BlockArr (<[63%nat := None]> cells)]> (objs (mem s)))
            (next (mem s)))
      (with_size (wrap (_size (self s) - 1))
         (with_finish_offset (BLOCK_SIZE - 1)
            (with_finish_block (wrap (_finish_block (self s) - 1)) (self s))))).
Proof.
  intros He Hfo Hm Hl Hslot Hb Hlen.
  pose proof (wrap_range (_finish_block (self s) - 1)) as Hw.
  destruct s as [h [m sz ms sb so fb fo]].
  cbn [mem self _map _finish_offset _finish_block] in *. subst m fo.
  unfold pop_back, block_pointer, destroy_at. exec.
  rewrite He. exec. change (0 =? 0) with true. exec.
  erewrite bind_ok by (eapply map_elem_ok; cbn [mem]; first [eassumption | lia]).
  erewrite bind_ok
    by (eapply cell_update_ok; cbn [mem];
        first [eassumption | unfold BLOCK_SIZE; lia]).
  change (Z.to_nat (BLOCK_SIZE - 1)) with 63%nat.
  exec. reflexivity.
Qed.

(** C8. On a non-empty container: [pop_front()] leaving the last slot of its
    block frees that block at once and nulls its map slot; [pop_back()]
    stepping back over a block boundary frees nothing and leaves the whole
    map as it was, the slot of the vacated block included.  In both, every
    other map slot keeps its value. *)
Theorem boundary_pop_frees_front_only
    (s : state T) (l : loc) (slots : list ptr) :
  empty (self s) = false ->
  _map (self s) = Some l ->
  objs (mem s) !! l = Some (MapArr slots) ->
  (forall (b : loc) (cells : list (option T)),
     _start_offset (self s) = BLOCK_SIZE - 1 ->
     0 <= _start_block (self s) ->
     slots !! Z.to_nat (_start_block (self s)) = Some (Some b) ->
     objs (mem s) !! b = Some (BlockArr cells) ->
     (63 < length cells)%nat ->
     exists (s' : state T) (slots' : list ptr),
       pop_front s = Ok tt s' /\
       _start_block (self s') = wrap (_start_block (self s) + 1) /\
       _start_offset (self s') = 0 /\
       _map (self s') = Some l /\
       objs (mem s') !! b = None /\
       objs (mem s') !! l = Some (MapArr slots') /\
       slots' !! Z.to_nat (_start_block (self s)) = Some nullptr /\
       (forall k : nat,
          k <> Z.to_nat (_start_block (self s)) -> slots' !! k = slots !! k))
  /\
  (forall (b : loc) (cells : list (option T)),
     _finish_offset (self s) = 0 ->
     slots !! Z.to_nat (wrap (_finish_block (self s) - 1)) = Some (Some b) ->
     objs (mem s) !! b = Some (BlockArr cells) ->
     (63 < length cells)%nat ->
     exists s' : state T,
       pop_back s = Ok tt s' /\
       _finish_block (self s') = wrap (_finish_block (self s) - 1) /\
       _finish_offset (self s') = BLOCK_SIZE - 1 /\
       _map (self s') = Some l /\
       objs (mem s') !! l = Some (MapArr slots) /\
       (forall l' : loc,
          is_Some (objs (mem s') !! l') <-> is_Some (objs (mem s) !! l')) /\
       (forall l' : loc, l' <> b -> objs (mem s') !! l' = objs (mem s) !! l')).
Proof.
  intros He Hm Hl. split.
  - intros b cells Hso Hsb Hslot Hb Hlen.
    assert (Hne : l <> b) by (intros ->; congruence).
    eexists _, _. split; [eapply pop_front_crossing; eassumption|].
    fields.
    split; [reflexivity|]. split; [reflexivity|]. split; [exact Hm|].
    split; [rewrite lookup_insert_ne by congruence; apply lookup_delete_eq|].
    split; [apply lookup_insert_eq|].
    split.
    + apply list_lookup_insert_eq. eapply lookup_lt_Some; eassumption.
    + intros k Hk. apply list_lookup_insert_ne. congruence.
  - intros b cells Hfo Hslot Hb Hlen.
    assert (Hne : l <> b) by (intros ->; congruence).
    eexists. split; [eapply pop_back_crossing; eassumption|].
    fields.
    split; [reflexivity|]. split; [reflexivity|]. split; [exact Hm|].
    split; [rewrite lookup_insert_ne by congruence; exact Hl|].
    split.
    + intros l'. destruct (decide (b = l')) as [<-|Hn].
      * rewrite lookup_insert_eq, Hb. split; eauto.
      * rewrite lookup_insert_ne by exact Hn. reflexivity.
    + intros l' Hn. apply lookup_insert_ne. congruence.
Qed.

End Boundary.

(** ** Iteration up to [end()] *)

(** C10. When the last block is exactly filled ([finish_offset == 64]) no
    number of increments takes [begin()] to an iterator equal to [end()]: in
    particular [size()] increments do not. *)
Theorem end_unreachable_when_last_block_full (d : Deque) (i : Z) :
  0 <= _start_offset d < BLOCK_SIZE ->
  _finish_offset d = BLOCK_SIZE ->
  Iterator.eqb (ith d i) (end_ d) = false.
Proof.
  intros Ho Hfo. unfold Iterator.eqb, ith.
  pose proof (iter_incr_offset_range (Z.to_nat i) (begin d) Ho) as Hr.
  cbn [end_ Iterator._offset] in *. rewrite Hfo.
  destruct (Z.eqb_spec (Iterator._offset (Nat.iter (Z.to_nat i) Iterator.incr (begin d)))
                       BLOCK_SIZE) as [E|E]; [lia|].
  apply andb_false_r.
Qed.

Lemma end_unreachable_witness :
  (0 <= _start_offset (self full_block) < BLOCK_SIZE) /\
  _finish_offset (self full_block) = BLOCK_SIZE /\
  size (self full_block) = 64 /\
  ith (self full_block) 64 = Iterator.Make (_map (self full_block)) 5 0 /\
  end_ (self full_block) = Iterator.Make (_map (self full_block)) 4 64 /\
  Iterator.eqb (ith (self full_block) (size (self full_block)))
               (end_ (self full_block)) = false.
Proof.
  split; [vm_compute; split; [discriminate | reflexivity]|].
  split; [vm_compute; reflexivity|].
  split; [vm_compute; reflexivity|].
  split; [vm_compute; reflexivity|].
  split; [vm_compute; reflexivity|].
  apply (end_unreachable_when_last_block_full (self full_block)
           (size (self full_block))).
  - vm_compute. split; [discriminate | reflexivity].
  - vm_compute. reflexivity.
Defined.

(** With room left in the last block the walk does end at [end()]. *)
Lemma end_reached_when_room_left (d : Deque) :
  0 <= _start_block d ->
  0 <= _start_offset d < BLOCK_SIZE ->
  0 <= _finish_offset d < BLOCK_SIZE ->
  0 <= size d ->
  _start_block d * BLOCK_SIZE + _start_offset d + size d < 2 ^ 64 ->
  size_equation d ->
  Iterator.eqb (ith d (size d)) (end_ d) = true.
Proof.
  unfold size_equation, size, BLOCK_SIZE. intros Hb Ho Hfo Hsz Hfit Heq.
  rewrite ith_slot by (unfold BLOCK_SIZE; assumption).
  unfold slot_block, slot_offset, Iterator.eqb, end_, BLOCK_SIZE.
  cbn [Iterator._map_ptr Iterator._block Iterator._offset].
  replace (_start_offset d + _size d)
    with (_finish_offset d + (_finish_block d - _start_block d) * 64) by lia.
  rewrite Z.div_add, Z.mod_add by lia.
  rewrite Z.div_small, Z.mod_small by lia.
  rewrite bool_decide_eq_true_2 by reflexivity.
  rewrite (proj2 (Z.eqb_eq _ _)) by lia.
  rewrite Z.eqb_refl. reflexivity.
Qed.

(** ** Iterator arithmetic below the start of a block *)

(** C2. When [offset + n] is negative, [it + n] (and [it - (-n)]) lands on the
    offset floor division gives, but on a block [2 ^ 58] above the one floor
    division gives: the division is carried out on the unsigned conversion of
    the negative flat offset. *)
Theorem plus_below_block_start_misses_floor (it : Iterator.t) (n : Z) :
  0 <= Iterator._block it < 2 ^ 63 ->
  0 <= Iterator._offset it < BLOCK_SIZE ->
  - 2 ^ 63 < n ->
  Iterator._offset it + n < 0 ->
  Iterator.plus it n =
    Iterator.Make (Iterator._map_ptr it)
      (Iterator._block (floor_plus it n) + 2 ^ 58)
      (Iterator._offset (floor_plus it n)) /\
  Iterator.minus it (- n) = Iterator.plus it n /\
  Iterator.plus it n <> floor_plus it n /\
  0 <= Iterator._offset (Iterator.plus it n) < BLOCK_SIZE.
Proof.
  intros Hb Ho Hn Hneg.
  assert (Iterator.plus it n =
          Iterator.Make (Iterator._map_ptr it)
            (Iterator._block (floor_plus it n) + 2 ^ 58)
            (Iterator._offset (floor_plus it n))) as Hplus.
  { rewrite plus_negative by (unfold BLOCK_SIZE in *; lia).
    unfold floor_plus. cbn [Iterator._block Iterator._offset]. f_equal. lia. }
  split; [exact Hplus|]. split.
  - unfold Iterator.minus. rewrite to_signed_small by (unfold BLOCK_SIZE in *; lia).
    rewrite Z.opp_involutive. reflexivity.
  - rewrite Hplus. split.
    + unfold floor_plus. intros [= E]. lia.
    + cbn [Iterator._offset floor_plus].
      apply Z.mod_pos_bound. reflexivity.
Qed.

Lemma plus_below_block_start_witness :
  (0 <= Iterator._block (Iterator.Make nullptr 4 0) < 2 ^ 63) /\
  floor_plus (Iterator.Make nullptr 4 0) (-1) = Iterator.Make nullptr 3 63 /\
  Iterator.plus (Iterator.Make nullptr 4 0) (-1) =
    Iterator.Make nullptr 288230376151711747 63 /\
  Iterator.minus (Iterator.Make nullptr 4 0) 1 =
    Iterator.Make nullptr 288230376151711747 63.
Proof.
  pose proof (plus_below_block_start_misses_floor (Iterator.Make nullptr 4 0) (-1))
    as H.
  split; [vm_compute; split; [discriminate | reflexivity]|].
  split; [vm_compute; reflexivity|].
  destruct H as (Hplus & Hminus & _).
  - vm_compute. split; [discriminate | reflexivity].
  - vm_compute. split; [discriminate | reflexivity].
  - reflexivity.
  - reflexivity.
  - split.
    + rewrite Hplus. vm_compute. reflexivity.
    + change 1 with (- -1). rewrite Hminus, Hplus. vm_compute. reflexivity.
Defined.

(** [Const_Iterator::operator+] is the same computation. *)
Lemma const_plus_of_iterator (it : Iterator.t) (n : Z) :
  Const_Iterator.plus (Const_Iterator.of_iterator it) n
  = Const_Iterator.of_iterator (Iterator.plus it n).
Proof.
  unfold Const_Iterator.plus, Iterator.plus, Const_Iterator.of_iterator.
  cbn [Const_Iterator._map_ptr Const_Iterator._block Const_Iterator._offset].
  destruct (wrap (to_signed (to_signed (Iterator._offset it) + n)) mod BLOCK_SIZE <? 0);
    reflexivity.
Qed.

(** ** [clear], [destroy_all] and what they leave behind *)

Section Reset.

Context {T : Type}.
Implicit Types s : state T.

(** A freshly allocated map has no block anywhere. *)
Lemma replicate_null_slot (n k : nat) :
  replicate n nullptr !! k = Some nullptr \/ replicate n nullptr !! k = None.
Proof.
  destruct (replicate n nullptr !! k) as [p|] eqn:E; [|right; reflexivity].
  apply lookup_replicate in E as [-> _]. left. reflexivity.
Qed.

(** [push_back] into a block that is not full constructs at the finish
    cursor; with no block there it is undefined. *)
Lemma push_back_without_block (v : T) s l slots :
  _finish_offset (self s) <> BLOCK_SIZE ->
  _map (self s) = Some l ->
  objs (mem s) !! l = Some (MapArr slots) ->
  slots !! Z.to_nat (_finish_block (self s)) = Some nullptr
  \/ slots !! Z.to_nat (_finish_block (self s)) = None ->
  push_back v s = UB.
Proof.
  intros Hfo Hm Hl Hslot. unfold push_back. exec.
  destruct (Z.eqb_spec (_finish_offset (self s)) BLOCK_SIZE) as [E|_]; [contradiction|].
  exec. rewrite Hm. apply bind_undefined.
  eapply map_elem_null_slot; eassumption.
Qed.

Lemma push_back_null_map (v : T) s :
  _finish_offset (self s) <> BLOCK_SIZE ->
  _map (self s) = nullptr ->
  push_back v s = UB.
Proof.
  intros Hfo Hm. unfold push_back. exec.
  destruct (Z.eqb_spec (_finish_offset (self s)) BLOCK_SIZE) as [E|_]; [contradiction|].
  exec. rewrite Hm. reflexivity.
Qed.

(** The state [allocate_map] leaves. *)
Lemma allocate_map_state (n : Z) s :
  allocate_map n s =
    Ok tt (State
      (Heap (<[next (mem s) :=
                 MapArr (replicate (Z.to_nat (if n <? 8 then 8 else n)) nullptr)]>
               (objs (mem s)))
            (Pos.succ (next (mem s))))
      (with_map_size (if n <? 8 then 8 else n)
         (with_map (Some (next (mem s))) (self s)))).
Proof. reflexivity. Qed.

(** On a non-empty container, whenever [clear] completes, both cursors sit
    at half the old map size, on a new map none of whose slots owns a block. *)
Lemma clear_nonempty_state s s' :
  empty (self s) = false ->
  clear s = Ok tt s' ->
  exists (l : loc) (n : nat) (center : Z),
    _map (self s') = Some l /\
    objs (mem s') !! l = Some (MapArr (replicate n nullptr)) /\
    _start_block (self s') = center /\ _start_offset (self s') = 0 /\
    _finish_block (self s') = center /\ _finish_offset (self s') = 0 /\
    _size (self s') = 0.
Proof.
  intros He Hc. unfold clear in Hc. rewrite bind_get, He in Hc.
  rewrite !bind_get in Hc.
  apply bind_ok_inv in Hc as ([] & s1 & _ & Hc).
  rewrite bind_get in Hc.
  apply bind_ok_inv in Hc as ([] & s2 & _ & Hc).
  rewrite bind_get in Hc.
  erewrite bind_ok in Hc by apply allocate_map_state.
  revert Hc. exec. intros [= <-]. fields.
  eexists _, _, _. split; [reflexivity|].
  split; [apply lookup_insert_eq|]. repeat split.
Qed.

Lemma clear_nonempty_no_block (v : T) s s' :
  empty (self s) = false ->
  clear s = Ok tt s' ->
  size (self s') = 0 /\
  block_allocated s' (_start_block (self s')) = false /\
  push_back v s' = UB.
Proof.
  intros He Hc.
  destruct (clear_nonempty_state s s' He Hc)
    as (l & n & center & Hm & Hl & Hsb & Hso & Hfb & Hfo & Hsz).
  split; [exact Hsz|]. split.
  - unfold block_allocated, map_slots. rewrite Hm, Hl.
    match goal with
    | |- match ?x with _ => _ end = _ => destruct x as [[b|]|] eqn:E
    end; try reflexivity.
    apply lookup_replicate in E as [[=] _].
  - eapply push_back_without_block; try eassumption.
    + rewrite Hfo. discriminate.
    + apply replicate_null_slot.
Qed.

Lemma no_throw_destroy_all : no_throw (@destroy_all T).
Proof.
  unfold destroy_all, deallocate_block, destroy_at, for_upto.
  repeat no_throw_step.
Qed.

(** [destroy_all] zeroes the cursors and the map pointer, and leaves [_size]. *)
Lemma destroy_all_state s s' :
  destroy_all s = Ok tt s' ->
  _map (self s') = nullptr /\
  _finish_block (self s') = 0 /\ _finish_offset (self s') = 0 /\
  _start_block (self s') = 0 /\ _start_offset (self s') = 0.
Proof.
  unfold destroy_all. rewrite bind_get. intros H.
  apply bind_ok_inv in H as ([] & s1 & H1 & H).
  revert H. exec. intros [= <-]. fields.
  assert (_map (self s1) = nullptr) as Hm.
  { destruct (_map (self s)) as [l|] eqn:Hl.
    - rewrite bind_get in H1.
      apply bind_ok_inv in H1 as ([] & s2 & _ & H1).
      apply bind_ok_inv in H1 as ([] & s3 & _ & H1).
      revert H1. unfold set. intros [= <-]. reflexivity.
    - revert H1. unfold ret. intros [= <-]. exact Hl. }
  repeat split. exact Hm.
Qed.

End Reset.

(** C4. After [clear()] on a one-element container the cursors sit at slot 4
    of a new eight-slot map with [size() == 0], but no slot of that map owns
    a block, so the next [push_back] constructs through a null block
    pointer. *)
Theorem clear_leaves_cursor_without_block :
  (Deque_fill 1 7 ;; clear) boot = Ok tt cleared /\
  size (self cleared) = 0 /\
  capacity (self cleared) = capacity (self one_element) /\
  begin (self cleared) = Iterator.Make (_map (self cleared)) 4 0 /\
  end_ (self cleared) = Iterator.Make (_map (self cleared)) 4 0 /\
  map_slots cleared = Some (replicate 8 nullptr) /\
  block_allocated cleared 4 = false /\
  push_back 1 cleared = UB.
Proof. vm_compute. repeat split. Qed.

(** C9. After [clear()] on the five-element container the closed range
    between the cursors is the single index 4, and slot 4 owns no block. *)
Theorem cleared_range_owns_no_block :
  (Deque_init [3; 5; 4; 6; 9] ;; clear) boot = Ok tt demo_cleared /\
  _start_block (self demo_cleared) = 4 /\
  _finish_block (self demo_cleared) = 4 /\
  block_allocated demo_cleared 4 = false /\
  ~ live_range_allocated demo_cleared.
Proof.
  split; [vm_compute; reflexivity|].
  split; [vm_compute; reflexivity|].
  split; [vm_compute; reflexivity|].
  split; [vm_compute; reflexivity|].
  intros H. specialize (H 4). 
  assert (block_allocated demo_cleared 4 = false) as E by (vm_compute; reflexivity).
  rewrite E in H. 
  assert (false = true) as C; [|discriminate C].
  apply H. vm_compute. split; discriminate.
Qed.

(** C3. Move construction from a one-element container leaves the source
    with [_size == 1] and all four cursor members zero. *)
Theorem move_constructor_breaks_size_equation :
  exists (a' : Deque) (s' : state Z),
    move_constructed = Ok a' s' /\
    size a' = 1 /\
    _start_block a' = 0 /\ _start_offset a' = 0 /\
    _finish_block a' = 0 /\ _finish_offset a' = 0 /\
    ~ size_equation a'.
Proof.
  eexists _, _. split; [vm_compute; reflexivity|].
  repeat (split; [reflexivity|]).
  unfold size_equation. cbn. discriminate.
Qed.

(** ** Copy assignment *)

Section Copy.

Context {T : Type}.
Implicit Types s : state T.

Lemma on_other_subscript (other : Deque) (i : Z) s :
  on_other other (subscript i) s = UB
  \/ exists r, on_other other (subscript i) s = Ok r s.
Proof.
  unfold on_other.
  destruct (subscript i (State (mem s) other)) as [r s1|s1|] eqn:E.
  - right. eexists. reflexivity.
  - exfalso. exact (no_throw_subscript i _ _ E).
  - left. reflexivity.
Qed.

Lemma load_state (r : ref) s :
  load r s = UB \/ exists v : T, load r s = Ok v s.
Proof.
  unfold load. repeat case_match; eauto.
Qed.

(** C6. Copy assignment from a non-empty container is undefined: after
    [destroy_all()] and [allocate_map()] the finish cursor is slot 0 of a map
    whose slots are all null, no block is allocated there, and the first
    [push_back] constructs through the null block pointer. *)
Theorem copy_assign_nonempty_undefined (s : state T) (other : Deque) :
  0 < size other ->
  copy_assign other s = UB.
Proof.
  unfold size. intros Hsz. unfold copy_assign.
  destruct (destroy_all s) as [[] s1|s1|] eqn:Hd.
  - rewrite (bind_ok _ _ _ _ _ Hd).
    erewrite bind_ok by apply allocate_map_state.
    destruct (destroy_all_state _ _ Hd) as (_ & Hfb & Hfo & _).
    unfold for_upto.
    destruct (Z.to_nat (_size other)) as [|k] eqn:Hk; [lia|].
    cbn [for_from]. rewrite !bind_bind.
    match goal with |- bind _ _ ?s2 = _ => set (s2' := s2) end.
    destruct (on_other_subscript other 0 s2') as [E | [r E]].
    { apply bind_undefined. exact E. }
    rewrite (bind_ok _ _ _ _ _ E). rewrite bind_bind.
    destruct (load_state r s2') as [E' | [v E']].
    { apply bind_undefined. exact E'. }
    rewrite (bind_ok _ _ _ _ _ E').
    apply bind_undefined.
    eapply push_back_without_block.
    + subst s2'. fields. rewrite Hfo. discriminate.
    + subst s2'. fields. reflexivity.
    + subst s2'. fields. apply lookup_insert_eq.
    + apply replicate_null_slot.
  - exfalso. exact (no_throw_destroy_all _ _ Hd).
  - apply bind_undefined. exact Hd.
Qed.

End Copy.

Lemma copy_assign_nonempty_witness :
  0 < size (self one_element) /\
  copy_assigned = copy_assign (self one_element) beside_one_element /\
  copy_assigned = UB.
Proof.
  assert (0 < size (self one_element)) as Hsz by (vm_compute; reflexivity).
  assert (copy_assigned = copy_assign (self one_element) beside_one_element) as E
    by (vm_compute; reflexivity).
  split; [exact Hsz|]. split; [exact E|].
  rewrite E.
  exact (copy_assign_nonempty_undefined beside_one_element (self one_element) Hsz).
Defined.

(** Copy assignment from an empty container keeps the old [_size]. *)
Example copy_assign_from_empty_keeps_size :
  exists s' : state Z,
    copy_assigned_empty = Ok tt s' /\
    size (self s') = 1 /\
    begin (self s') = end_ (self s') /\
    ~ size_equation (self s').
Proof.
  eexists. split; [vm_compute; reflexivity|].
  split; [reflexivity|]. split; [reflexivity|].
  unfold size_equation. cbn. discriminate.
Qed.

(** ** Moved-from containers *)

Section Move.

Context {T : Type}.
Implicit Types s : state T.

Lemma Deque_move_state (other : Deque) s :
  Deque_move other s =
    Ok (zeroed_cursors other)
       (State (mem s)
          (MkDeque (_map other) (_size (self s)) (_map_size other)
                   (_start_block other) (_start_offset other)
                   (_finish_block other) (_finish_offset other))).
Proof. reflexivity. Qed.

Lemma move_assign_state (other : Deque) s s0 s1 :
  clear s = Ok tt s0 ->
  destroy_all s0 = Ok tt s1 ->
  move_assign other s = Ok (with_size 0 (zeroed_cursors other)) (State (mem s1) other).
Proof.
  intros Hc Hd. unfold move_assign.
  rewrite (bind_ok _ _ _ _ _ Hc), (bind_ok _ _ _ _ _ Hd).
  exec. unfold ret. destruct other; reflexivity.
Qed.

(** C5, as the code has it.  Move assignment leaves the source empty
    ([size() == 0], [empty()]); move construction and move assignment both
    leave it with a null map pointer, map size 0 and zeroed cursors, and
    leave the target with the source's former map pointer, map size and
    cursors (move assignment also with its size; move construction leaves
    the target's [_size] as its storage held it) in an unchanged free store
    (for move assignment, the one its own [clear] and [destroy_all] left);
    and a [push_back] on the moved-from source is undefined, since it
    constructs through the null map pointer. *)
Theorem moved_from_source_is_null (s : state T) (other : Deque) (v : T) :
  (exists s' : state T,
     Deque_move other s = Ok (zeroed_cursors other) s' /\ mem s' = mem s /\
     _map (self s') = _map other /\ _map_size (self s') = _map_size other /\
     _start_block (self s') = _start_block other /\
     _start_offset (self s') = _start_offset other /\
     _finish_block (self s') = _finish_block other /\
     _finish_offset (self s') = _finish_offset other /\
     begin (self s') = begin other /\ end_ (self s') = end_ other /\
     _size (self s') = _size (self s)) /\
  (forall s0 s1 : state T,
     clear s = Ok tt s0 ->
     destroy_all s0 = Ok tt s1 ->
     move_assign other s =
       Ok (with_size 0 (zeroed_cursors other)) (State (mem s1) other)) /\
  size (with_size 0 (zeroed_cursors other)) = 0 /\
  empty (with_size 0 (zeroed_cursors other)) = true /\
  _map (zeroed_cursors other) = nullptr /\
  _map_size (zeroed_cursors other) = 0 /\
  begin (zeroed_cursors other) = Iterator.Make nullptr 0 0 /\
  end_ (zeroed_cursors other) = Iterator.Make nullptr 0 0 /\
  (forall h : heap T, push_back v (State h (zeroed_cursors other)) = UB) /\
  (forall h : heap T,
     push_back v (State h (with_size 0 (zeroed_cursors other))) = UB).
Proof.
  split; [eexists; split; [apply Deque_move_state | repeat split]|].
  split; [intros s0 s1; apply move_assign_state|].
  repeat (split; [reflexivity|]).
  split; intros h; apply push_back_null_map; fields; first [discriminate | reflexivity].
Qed.

End Move.

Lemma moved_from_source_witness :
  exists (a' : Deque) (s' : state Z),
    move_assign (self one_element) beside_one_element = Ok a' s' /\
    self s' = self one_element /\
    size a' = 0 /\ empty a' = true /\ _map a' = nullptr /\
    push_back 9 (State (mem s') a') = UB.
Proof.
  destruct (moved_from_source_is_null beside_one_element (self one_element) 9)
    as (_ & Hassign & Hsz & He & Hm & _ & _ & _ & _ & Hpush).
  eexists _, _. split.
  - eapply Hassign.
    + vm_compute. reflexivity.
    + vm_compute. reflexivity.
  - split; [cbn [self]; reflexivity|]. split; [exact Hsz|]. split; [exact He|].
    split; [exact Hm|]. apply Hpush.
Defined.

(** At the five-line program [Deque<int> a(1, 7); Deque<int> b;
    b = std::move(a); a.push_back(9);] the source is empty after the move
    and the [push_back] on it is undefined: it does not end with one element. *)
Lemma moved_from_push_back_undefined :
  exists (a' : Deque) (s' : state Z),
    move_assigned = Ok a' s' /\
    size a' = 0 /\
    push_back 9 (State (mem s') a') = UB /\
    (forall s'' : state Z,
       push_back 9 (State (mem s') a') <> Ok tt s'').
Proof.
  eexists _, _. split; [vm_compute; reflexivity|].
  split; [reflexivity|]. split; [reflexivity|].
  intros s''. discriminate.
Qed.

(** ** The claims at concrete containers *)

Lemma subscript_is_ith_witness :
  (0 <= 100 < size (self pushed_front_200)) /\
  begin (self pushed_front_200) = Iterator.Make (Some 1%positive) 0 56 /\
  subscript 100 pushed_front_200 = Ok (4%positive, 28) pushed_front_200 /\
  at_ 100 pushed_front_200 = Ok (4%positive, 28) pushed_front_200 /\
  ith (self pushed_front_200) 100 = Iterator.Make (Some 1%positive) 2 28 /\
  Iterator.deref (ith (self pushed_front_200) 100) pushed_front_200
    = Ok (4%positive, 28) pushed_front_200 /\
  load (4%positive, 28) pushed_front_200 = Ok 99 pushed_front_200.
Proof.
  assert (0 <= 100 < size (self pushed_front_200)) as Hi
    by (vm_compute; split; [discriminate | reflexivity]).
  edestruct (subscript_is_ith_element pushed_front_200 100) as (H1 & H2 & H3 & H4).
  - vm_compute. discriminate.
  - vm_compute. split; [discriminate | reflexivity].
  - vm_compute. reflexivity.
  - exact Hi.
  - vm_compute. reflexivity.
  - vm_compute. reflexivity.
  - vm_compute. reflexivity.
  - split; [exact Hi|]. split; [vm_compute; reflexivity|].
    split; [exact H1|]. split; [exact H2|]. split; [exact H3|].
    split; [exact H4|]. vm_compute. reflexivity.
Defined.

Lemma boundary_pop_witness :
  begin (self straddling) = Iterator.Make (Some 1%positive) 3 63 /\
  end_ (self straddling) = Iterator.Make (Some 1%positive) 4 0 /\
  block_allocated straddling 3 = true /\
  block_allocated straddling 4 = true /\
  (exists s' : state Z,
     pop_front straddling = Ok tt s' /\
     begin (self s') = Iterator.Make (Some 1%positive) 4 0 /\
     block_allocated s' 3 = false /\
     block_allocated s' 4 = true /\
     objs (mem s') !! 3%positive = None) /\
  (exists s' : state Z,
     pop_back straddling = Ok tt s' /\
     end_ (self s') = Iterator.Make (Some 1%positive) 3 63 /\
     block_allocated s' 3 = true /\
     block_allocated s' 4 = true /\
     map_slots s' = map_slots straddling).
Proof.
  destruct (boundary_pop_frees_front_only straddling 1%positive
              [None; None; None; Some 3%positive; Some 2%positive; None; None; None])
    as [Hfront Hback].
  - vm_compute. reflexivity.
  - vm_compute. reflexivity.
  - vm_compute. reflexivity.
  - repeat (split; [vm_compute; reflexivity|]).
    split.
    + edestruct (Hfront 3%positive) as (s' & slots' & Hpop & Hsb & Hso & Hm & Hfree & Hl & Hnull & Hother).
      * vm_compute. reflexivity.
      * vm_compute. discriminate.
      * vm_compute. reflexivity.
      * vm_compute. reflexivity.
      * vm_compute. lia.
      * exists s'. split; [exact Hpop|].
        revert Hpop. vm_compute. intros [= <-]. repeat split.
    + edestruct (Hback 3%positive) as (s' & Hpop & _).
      * vm_compute. reflexivity.
      * vm_compute. reflexivity.
      * vm_compute. reflexivity.
      * vm_compute. lia.
      * exists s'. split; [exact Hpop|].
        revert Hpop. vm_compute. intros [= <-]. repeat split.
Defined.

(** ** The cursors under the end operations *)

Section KeepsSelf.

Context {T : Type}.
Implicit Types s : state T.

Lemma keeps_self_ret {A} (a : A) : keeps_self (T:=T) (ret a).
Proof. intros s s' a' [= _ <-]. reflexivity. Qed.

Lemma keeps_self_undefined {A} : keeps_self (@undefined T A).
Proof. intros s s' a. discriminate. Qed.

Lemma keeps_self_get {A} (f : Deque -> A) : keeps_self (T:=T) (get f).
Proof. intros s s' a [= _ <-]. reflexivity. Qed.

Lemma keeps_self_bind {A B} (c : M T A) (k : A -> M T B) :
  keeps_self c -> (forall a, keeps_self (k a)) -> keeps_self (bind c k).
Proof.
  intros Hc Hk s s' b H.
  apply bind_ok_inv in H as (a & s1 & H1 & H2).
  rewrite (Hk _ _ _ _ H2). exact (Hc _ _ _ H1).
Qed.

Lemma keeps_self_new o : keeps_self (@new_ T o).
Proof. intros s s' a [= _ <-]. reflexivity. Qed.

Lemma keeps_self_delete p : keeps_self (@delete_ T p).
Proof.
  intros s s' a. unfold delete_.
  repeat case_match; intros [=]; subst; reflexivity.
Qed.

Lemma keeps_self_map_load m i : keeps_self (@map_load T m i).
Proof.
  intros s s' a. unfold map_load.
  repeat case_match; intros [=]; subst; reflexivity.
Qed.

Lemma keeps_self_map_store m i p : keeps_self (@map_store T m i p).
Proof.
  intros s s' a. unfold map_store.
  repeat case_match; intros [=]; subst; reflexivity.
Qed.

Lemma keeps_self_cell_update r c : keeps_self (@cell_update T r c).
Proof.
  intros s s' a. unfold cell_update.
  repeat case_match; intros [=]; subst; reflexivity.
Qed.

Lemma keeps_self_for_from (k : nat) (i : Z) (body : Z -> M T unit) :
  (forall j, keeps_self (body j)) -> keeps_self (for_from k i body).
Proof.
  intros Hbody. revert i. induction k as [|k IH]; intros i; cbn [for_from].
  - apply keeps_self_ret.
  - apply keeps_self_bind; [apply Hbody | intros _; apply IH].
Qed.

End KeepsSelf.

Ltac keeps_self_step :=
  first
    [ apply keeps_self_ret | apply keeps_self_undefined | apply keeps_self_get
    | apply keeps_self_new | apply keeps_self_delete
    | apply keeps_self_map_load | apply keeps_self_map_store
    | apply keeps_self_cell_update
    | apply keeps_self_for_from; intros ?
    | apply keeps_self_bind; [ | intros ? ]
    | match goal with |- keeps_self (if ?b then _ else _) => destruct b end
    | match goal with |- keeps_self (match ?p with _ => _ end) => destruct p end ].

Section Cursors.

Context {T : Type}.
Implicit Types s : state T.

Lemma keeps_self_map_elem m b o : keeps_self (@map_elem T m b o).
Proof. unfold map_elem. repeat keeps_self_step. Qed.

Lemma keeps_self_allocate_block i : keeps_self (@allocate_block T i).
Proof. unfold allocate_block. repeat keeps_self_step. Qed.

Lemma keeps_self_deallocate_block i : keeps_self (@deallocate_block T i).
Proof. unfold deallocate_block. repeat keeps_self_step. Qed.

Lemma reallocate_map_self (add_to_front : bool) s s' :
  reallocate_map add_to_front s = Ok tt s' ->
  self s' = grown add_to_front (Some (next (mem s))) (self s).
Proof.
  unfold reallocate_map. rewrite !bind_get. intros H.
  apply bind_ok_inv in H as (m & s1 & Hnew & H).
  revert Hnew. unfold new_. intros [= <- <-].
  apply bind_ok_inv in H as ([] & s2 & Hloop & H).
  apply keeps_self_for_from in Hloop; [|intros j; repeat keeps_self_step].
  apply bind_ok_inv in H as ([] & s3 & Hdel & H).
  apply keeps_self_delete in Hdel.
  revert H. exec. intros [= <-]. fields.
  rewrite Hdel, Hloop. reflexivity.
Qed.

Lemma push_back_self (v : T) s s' :
  push_back v s = Ok tt s' ->
  self s' = after_push_back (Some (next (mem s))) (self s).
Proof.
  unfold push_back, after_push_back. rewrite bind_get.
  intros H. apply bind_ok_inv in H as ([] & s1 & Hprep & H).
  revert H. rewrite !bind_get. intros H.
  apply bind_ok_inv in H as (r & s2 & Helem & H).
  apply keeps_self_map_elem in Helem.
  apply bind_ok_inv in H as ([] & s3 & Hcons & H).
  apply keeps_self_cell_update in Hcons.
  revert H. exec. intros [= <-]. fields.
  rewrite Hcons, Helem.
  assert (self s1 =
          if _finish_offset (self s) =? BLOCK_SIZE then
            let d2 :=
              if wrap (_finish_block (self s) + 1) >=? _map_size (self s)
              then grown false (Some (next (mem s))) (self s) else self s in
            with_finish_offset 0 (with_finish_block (wrap (_finish_block d2 + 1)) d2)
          else self s) as ->; [|reflexivity].
  destruct (_finish_offset (self s) =? BLOCK_SIZE).
  - revert Hprep. rewrite !bind_get. intros H.
    apply bind_ok_inv in H as ([] & s4 & Hgrow & H).
    assert (self s4 =
            if wrap (_finish_block (self s) + 1) >=? _map_size (self s)
            then grown false (Some (next (mem s))) (self s) else self s) as Hs4.
    { destruct (wrap (_finish_block (self s) + 1) >=? _map_size (self s)).
      - apply reallocate_map_self. exact Hgrow.
      - revert Hgrow. intros [= <-]. reflexivity. }
    revert H. rewrite !bind_get. intros H.
    apply bind_ok_inv in H as (p & s5 & Hload & H).
    apply keeps_self_map_load in Hload.
    apply bind_ok_inv in H as ([] & s6 & Halloc & H).
    assert (self s6 = self s5) as Hs6.
    { destruct p; [revert Halloc; intros [= <-]; reflexivity|].
      eapply keeps_self_allocate_block. exact Halloc. }
    revert H. exec. intros [= <-]. fields.
    rewrite Hs6, Hload, Hs4. reflexivity.
  - revert Hprep. intros [= <-]. reflexivity.
Qed.

Lemma push_front_self (v : T) s s' :
  push_front v s = Ok tt s' ->
  self s' = after_push_front (Some (next (mem s))) (self s).
Proof.
  unfold push_front, after_push_front. rewrite bind_get.
  intros H. apply bind_ok_inv in H as ([] & s1 & Hprep & H).
  revert H. exec. intros H.
  apply bind_ok_inv in H as (r & s2 & Helem & H).
  apply keeps_self_map_elem in Helem.
  apply bind_ok_inv in H as ([] & s3 & Hcons & H).
  apply keeps_self_cell_update in Hcons.
  revert H. exec. intros [= <-]. fields.
  rewrite Hcons, Helem. fields.
  assert (self s1 =
          if _start_offset (self s) =? 0 then
            let d2 :=
              if _start_block (self s) =? 0
              then grown true (Some (next (mem s))) (self s) else self s in
            with_start_offset BLOCK_SIZE
              (with_start_block (wrap (_start_block d2 - 1)) d2)
          else self s) as ->; [|reflexivity].
  destruct (_start_offset (self s) =? 0).
  - revert Hprep. rewrite !bind_get. intros H.
    apply bind_ok_inv in H as ([] & s4 & Hgrow & H).
    assert (self s4 =
            if _start_block (self s) =? 0
            then grown true (Some (next (mem s))) (self s) else self s) as Hs4.
    { destruct (_start_block (self s) =? 0).
      - apply reallocate_map_self. exact Hgrow.
      - revert Hgrow. intros [= <-]. reflexivity. }
    revert H. rewrite !bind_get. intros H.
    apply bind_ok_inv in H as (p & s5 & Hload & H).
    apply keeps_self_map_load in Hload.
    apply bind_ok_inv in H as ([] & s6 & Halloc & H).
    assert (self s6 = self s5) as Hs6.
    { destruct p; [revert Halloc; intros [= <-]; reflexivity|].
      eapply keeps_self_allocate_block. exact Halloc. }
    revert H. exec. intros [= <-]. fields.
    rewrite Hs6, Hload, Hs4. reflexivity.
  - revert Hprep. intros [= <-]. reflexivity.
Qed.

Lemma pop_back_self s s' :
  pop_back s = Ok tt s' ->
  empty (self s) = false /\ self s' = after_pop_back (self s).
Proof.
  unfold pop_back, after_pop_back, block_pointer, destroy_at. rewrite bind_get.
  destruct (empty (self s)); [discriminate|].
  intros H. split; [reflexivity|]. revert H. exec.
  destruct (_finish_offset (self s) =? 0); exec; intros H;
    apply bind_ok_inv in H as (r & s2 & Helem & H);
    apply keeps_self_map_elem in Helem;
    apply bind_ok_inv in H as ([] & s3 & Hcons & H);
    apply keeps_self_cell_update in Hcons;
    revert H; exec; intros [= <-]; fields;
    rewrite Hcons, Helem; reflexivity.
Qed.

Lemma pop_front_self s s' :
  pop_front s = Ok tt s' ->
  empty (self s) = false /\ self s' = after_pop_front (self s).
Proof.
  unfold pop_front, after_pop_front, block_pointer, destroy_at. rewrite bind_get.
  destruct (empty (self s)); [discriminate|].
  intros H. split; [reflexivity|]. revert H. exec. intros H.
  apply bind_ok_inv in H as (r & s2 & Helem & H).
  apply keeps_self_map_elem in Helem.
  apply bind_ok_inv in H as ([] & s3 & Hcons & H).
  apply keeps_self_cell_update in Hcons.
  revert H. exec. rewrite Hcons, Helem. fields.
  destruct (wrap (_start_offset (self s) + 1) =? BLOCK_SIZE).
  - exec. intros H.
    apply bind_ok_inv in H as ([] & s4 & Hfree & H).
    apply keeps_self_deallocate_block in Hfree.
    revert H. exec. intros [= <-]. fields.
    rewrite Hfree. reflexivity.
  - exec. intros [= <-]. reflexivity.
Qed.

End Cursors.

(** *** The cursor invariants are kept *)

Lemma wrap_succ_wrap (z : Z) :
  -1 <= z < 2 ^ 64 - 1 -> wrap (wrap z + 1) = z + 1.
Proof.
  intros H. destruct (Z.eq_dec z (-1)) as [->|Hne]; [reflexivity|].
  rewrite (wrap_small z) by lia. apply wrap_small. lia.
Qed.

Lemma grown_back_cursors (m : ptr) (d : Deque) :
  cursors_wf d -> _map_size d <= 2 ^ 55 ->
  let d' := grown false m d in
  _start_offset d' = _start_offset d /\
  _finish_offset d' = _finish_offset d /\
  _size d' = _size d /\
  0 <= _start_block d' /\
  _finish_block d' - _start_block d' = _finish_block d - _start_block d /\
  0 <= _finish_block d' + 1 < _map_size d' /\
  _map_size d' <= 2 ^ 56.
Proof.
  unfold cursors_wf, size_equation, grown, BLOCK_SIZE.
  intros (Hsb & Hle & Hfb & Hso & Hfo & Hsz & Heq) Hms. fields.
  rewrite wrap_succ_wrap by lia.
  rewrite (wrap_small (_map_size d * 2)) by lia.
  pose proof (Z.max_spec 8 (_map_size d * 2)) as Hmax.
  set (nms := Z.max 8 (_map_size d * 2)) in *.
  set (obc := _finish_block d - _start_block d + 1) in *.
  assert (0 <= obc <= _map_size d) as Hobc by (subst obc; lia).
  assert (0 <= obc / 2 <= nms / 2) as Hhalf.
  { split; [apply Z.div_pos; lia|]. apply Z.div_le_mono; lia. }
  assert (4 <= nms / 2) as Hn4 by (apply Z.div_le_lower_bound; lia).
  assert (nms / 2 - obc / 2 + obc < nms) as Hroom.
  { pose proof (Z.div_mod nms 2 ltac:(lia)).
    pose proof (Z.mod_pos_bound nms 2 ltac:(lia)).
    pose proof (Z.div_mod obc 2 ltac:(lia)).
    pose proof (Z.mod_pos_bound obc 2 ltac:(lia)).
    lia. }
  assert (nms / 2 <= nms) as Hle2 by (apply Z.div_le_upper_bound; lia).
  rewrite (wrap_small (nms / 2 - obc / 2)) by lia.
  rewrite (wrap_small (nms / 2 - obc / 2 + obc)) by lia.
  destruct (Z.eq_dec obc 0) as [E0|E0].
  - rewrite E0 in *. change (0 / 2) with 0 in *. rewrite Z.sub_0_r, Z.add_0_r in *.
    rewrite (wrap_small (nms / 2 - 1)) by lia.
    repeat split; try lia.
  - rewrite (wrap_small (nms / 2 - obc / 2 + obc - 1)) by lia.
    repeat split; try lia.
Qed.

Lemma grown_front_cursors (m : ptr) (d : Deque) :
  cursors_wf d -> _map_size d <= 2 ^ 55 ->
  let d' := grown true m d in
  _start_offset d' = _start_offset d /\
  _finish_offset d' = _finish_offset d /\
  _size d' = _size d /\
  2 <= _start_block d' /\
  _finish_block d' - _start_block d' = _finish_block d - _start_block d /\
  0 <= _finish_block d' < _map_size d' /\
  _start_block d' <= _finish_block d' + 1 /\
  _map_size d' <= 2 ^ 56.
Proof.
  unfold cursors_wf, size_equation, grown, BLOCK_SIZE.
  intros (Hsb & Hle & Hfb & Hso & Hfo & Hsz & Heq) Hms. fields.
  rewrite wrap_succ_wrap by lia.
  rewrite (wrap_small (_map_size d * 2)) by lia.
  pose proof (Z.max_spec 8 (_map_size d * 2)) as Hmax.
  set (nms := Z.max 8 (_map_size d * 2)) in *.
  set (obc := _finish_block d - _start_block d + 1) in *.
  assert (0 <= obc <= _map_size d) as Hobc by (subst obc; lia).
  assert (2 <= nms / 4) as Hn4 by (apply Z.div_le_lower_bound; lia).
  assert (nms / 4 + obc < nms) as Hroom.
  { pose proof (Z.div_mod nms 4 ltac:(lia)).
    pose proof (Z.mod_pos_bound nms 4 ltac:(lia)).
    lia. }
  rewrite (wrap_small (nms / 4 + obc)) by lia.
  rewrite (wrap_small (nms / 4 + obc - 1)) by lia.
  repeat split; try lia.
Qed.

Lemma cursors_wf_push_back (m : ptr) (d : Deque) :
  cursors_wf d -> _map_size d <= 2 ^ 55 -> cursors_wf (after_push_back m d).
Proof.
  intros Hwf Hms.
  pose proof (grown_back_cursors m d Hwf Hms) as Hg. cbv zeta in Hg.
  destruct Hg as (Gso & Gfo & Gsz & Gsb & Gdiff & Gfb & Gms).
  unfold after_push_back.
  revert Hwf. unfold cursors_wf, size_equation, BLOCK_SIZE in *.
  intros (Hsb & Hle & Hfb & Hso & Hfo & Hsz & Heq).
  destruct (Z.eqb_spec (_finish_offset d) 64) as [E|E].
  - destruct (Z.geb_spec (wrap (_finish_block d + 1)) (_map_size d)) as [G|G];
      cbv zeta; fields.
    + set (d' := grown false m d) in *.
      rewrite (wrap_small (_finish_block d' + 1)) by lia.
      rewrite Gso, Gsz. change (wrap (0 + 1)) with 1.
      rewrite (wrap_small (_size d + 1)) by lia.
      repeat split; try lia.
    + rewrite (wrap_small (_finish_block d + 1)) in * by lia.
      change (wrap (0 + 1)) with 1.
      rewrite (wrap_small (_size d + 1)) by lia.
      repeat split; try lia.
  - cbv zeta. fields.
    rewrite (wrap_small (_finish_offset d + 1)) by lia.
    rewrite (wrap_small (_size d + 1)) by lia.
    repeat split; try lia.
Qed.

Lemma cursors_wf_push_front (m : ptr) (d : Deque) :
  cursors_wf d -> _map_size d <= 2 ^ 55 -> cursors_wf (after_push_front m d).
Proof.
  intros Hwf Hms.
  pose proof (grown_front_cursors m d Hwf Hms) as Hg. cbv zeta in Hg.
  destruct Hg as (Gso & Gfo & Gsz & Gsb & Gdiff & Gfb & Gle & Gms).
  unfold after_push_front.
  revert Hwf. unfold cursors_wf, size_equation, BLOCK_SIZE in *.
  intros (Hsb & Hle & Hfb & Hso & Hfo & Hsz & Heq).
  destruct (Z.eqb_spec (_start_offset d) 0) as [E|E].
  - destruct (Z.eqb_spec (_start_block d) 0) as [G|G]; cbv zeta; fields.
    + set (d' := grown true m d) in *.
      rewrite (wrap_small (_start_block d' - 1)) by lia.
      rewrite Gfo, Gsz. change (wrap (64 - 1)) with 63.
      rewrite (wrap_small (_size d + 1)) by lia.
      repeat split; try lia.
    + rewrite (wrap_small (_start_block d - 1)) by lia.
      change (wrap (64 - 1)) with 63.
      rewrite (wrap_small (_size d + 1)) by lia.
      repeat split; try lia.
  - cbv zeta. fields.
    rewrite (wrap_small (_start_offset d - 1)) by lia.
    rewrite (wrap_small (_size d + 1)) by lia.
    repeat split; try lia.
Qed.

Lemma cursors_wf_pop_back (d : Deque) :
  cursors_wf d -> _map_size d <= 2 ^ 55 -> empty d = false ->
  cursors_wf (after_pop_back d).
Proof.
  unfold cursors_wf, size_equation, after_pop_back, empty, BLOCK_SIZE.
  intros (Hsb & Hle & Hfb & Hso & Hfo & Hsz & Heq) Hms He.
  apply Z.eqb_neq in He.
  destruct (Z.eqb_spec (_finish_offset d) 0) as [E|E]; cbv zeta; fields.
  - rewrite (wrap_small (_finish_block d - 1)) by lia.
    rewrite (wrap_small (_size d - 1)) by lia.
    repeat split; try lia.
  - rewrite (wrap_small (_finish_offset d - 1)) by lia.
    rewrite (wrap_small (_size d - 1)) by lia.
    repeat split; try lia.
Qed.

Lemma cursors_wf_pop_front (d : Deque) :
  cursors_wf d -> _map_size d <= 2 ^ 55 -> empty d = false ->
  cursors_wf (after_pop_front d).
Proof.
  unfold cursors_wf, size_equation, after_pop_front, empty, BLOCK_SIZE.
  intros (Hsb & Hle & Hfb & Hso & Hfo & Hsz & Heq) Hms He.
  apply Z.eqb_neq in He. cbv zeta. fields.
  rewrite (wrap_small (_start_offset d + 1)) by lia.
  destruct (Z.eqb_spec (_start_offset d + 1) 64) as [E|E]; fields.
  - rewrite (wrap_small (_start_block d + 1)) by lia.
    rewrite (wrap_small (_size d - 1)) by lia.
    repeat split; try lia.
  - rewrite (wrap_small (_size d - 1)) by lia.
    repeat split; try lia.
Qed.

Section Reachable.

Context {T : Type}.
Implicit Types s : state T.

Lemma Deque_default_cursors s s' :
  Deque_default s = Ok tt s' -> cursors_wf (self s') /\ _map_size (self s') = 8.
Proof.
  unfold Deque_default. 
  erewrite bind_ok by apply allocate_map_state.
  exec. intros H. apply keeps_self_allocate_block in H.
  rewrite H. fields. change (if 8 <? 8 then 8 else 8) with 8.
  change (8 / 2) with 4.
  unfold cursors_wf, size_equation, BLOCK_SIZE. fields. repeat split; lia.
Qed.

Lemma run_end_op_cursors (o : end_op) s s' :
  cursors_wf (self s) -> _map_size (self s) <= 2 ^ 55 ->
  run_end_op o s = Ok tt s' -> cursors_wf (self s').
Proof.
  intros Hwf Hms. destruct o as [v|v| |]; cbn [run_end_op]; intros H.
  - rewrite (push_back_self v s s' H). apply cursors_wf_push_back; assumption.
  - rewrite (push_front_self v s s' H). apply cursors_wf_push_front; assumption.
  - apply pop_back_self in H as [He ->]. apply cursors_wf_pop_back; assumption.
  - apply pop_front_self in H as [He ->]. apply cursors_wf_pop_front; assumption.
Qed.

(** Under construction and the operations at the two ends the cursor
    invariants of the data model hold, the size equation among them. *)
Lemma reachable_by_ends_cursors s :
  reachable_by_ends s -> cursors_wf (self s).
Proof.
  induction 1 as [s0 s H | s s' o _ IH Hms H].
  - apply (Deque_default_cursors s0 s H).
  - exact (run_end_op_cursors o s s' IH Hms H).
Qed.

Lemma reachable_by_ends_size_equation s :
  reachable_by_ends s -> size_equation (self s).
Proof. intros H. apply reachable_by_ends_cursors in H. apply H. Qed.

End Reachable.

(** For a container built at the ends, an index below [size()] needs no
    further assumption to land on the slot of the data model. *)
Lemma subscript_slot_reachable {T : Type} (s : state T) (i : Z) :
  reachable_by_ends s ->
  _map_size (self s) <= 2 ^ 55 ->
  0 <= i < size (self s) ->
  subscript i s =
    map_elem (_map (self s)) (slot_block (self s) i) (slot_offset (self s) i) s
  /\ ith (self s) i =
       Iterator.Make (_map (self s)) (slot_block (self s) i) (slot_offset (self s) i).
Proof.
  intros Hr Hms Hi. apply reachable_by_ends_cursors in Hr.
  destruct Hr as (Hsb & Hle & Hfb & Hso & Hfo & Hsz & Heq).
  unfold size_equation, size, BLOCK_SIZE in *.
  split; [apply subscript_slot | apply ith_slot]; unfold BLOCK_SIZE; lia.
Qed.

(** ** The scenarios of the specification *)

(** The stored scenario states are the runs they are named after. *)
Lemma scenarios_are_runs :
  demo = after (Deque_init [3; 5; 4; 6; 9]) /\
  full_block = after (Deque_fill 64 7) /\
  straddling = after (Deque_default ;; push_front 7) /\
  cleared = after (Deque_fill 1 7 ;; clear) /\
  demo_cleared = after (Deque_init [3; 5; 4; 6; 9] ;; clear) /\
  one_element = after (Deque_fill 1 7) /\
  beside_one_element
    = after (Deque_fill 1 7 ;; set (fun _ => raw_storage) ;; Deque_default) /\
  pushed_front_200 = after (Deque_default ;; for_upto 200 (fun i => push_front i)) /\
  move_constructed
    = (Deque_fill 1 7 ;; a <- get id ;; set (fun _ => raw_storage) ;;
       Deque_move a) boot /\
  move_assigned
    = (Deque_fill 1 7 ;; a <- get id ;; set (fun _ => raw_storage) ;;
       Deque_default ;; move_assign a) boot /\
  copy_assigned
    = (Deque_fill 1 7 ;; a <- get id ;; set (fun _ => raw_storage) ;;
       Deque_default ;; copy_assign a) boot /\
  copy_assigned_empty
    = (Deque_default ;; a <- get id ;; set (fun _ => raw_storage) ;;
       Deque_fill 1 7 ;; copy_assign a) boot.
Proof. vm_compute. repeat split. Qed.

(** [push_back(3, 5, 4, 6, 9)]: reading by index gives [3 5 4 6 9]; then
    [pop_front()] leaves [front() == 5] and four elements, and [pop_back()]
    leaves [back() == 6] and three. *)
Example demo_scenario :
  read_all demo = Ok [3; 5; 4; 6; 9] demo /\
  size (self demo) = 5 /\
  (r <- front ;; load r) demo = Ok 3 demo /\
  (r <- back ;; load r) demo = Ok 9 demo /\
  (pop_front ;; r <- front ;; v <- load r ;; n <- get size ;; ret (v, n)) demo
    = Ok (5, 4) (after (Deque_init [3; 5; 4; 6; 9] ;; pop_front)) /\
  (pop_front ;; pop_back ;; r <- back ;; v <- load r ;; n <- get size ;; ret (v, n)) demo
    = Ok (6, 3) (after (Deque_init [3; 5; 4; 6; 9] ;; pop_front ;; pop_back)) /\
  Iterator.eqb (ith (self demo) 5) (end_ (self demo)) = true.
Proof. vm_compute. repeat split. Qed.

(** [pop_back()] on an empty container throws and changes nothing. *)
Example pop_back_on_empty :
  pop_back (after Deque_default) = Throw (after Deque_default).
Proof. vm_compute. reflexivity. Qed.

(** Two hundred [push_front] calls: the map does not grow, the elements
    read back in reverse order of insertion. *)
Example pushed_front_scenario :
  size (self pushed_front_200) = 200 /\
  read_all pushed_front_200
    = Ok (rev (map Z.of_nat (seq 0 200))) pushed_front_200.
Proof. vm_compute. repeat split. Qed.

(** * Further properties *)

(** ** Iterators *)

Section IteratorAlgebra.

Import Iterator.

Lemma decr_incr (it : t) :
  0 <= _block it -> _block it + 1 < 2 ^ 64 ->
  0 <= _offset it < BLOCK_SIZE ->
  decr (incr it) = it.
Proof.
  unfold BLOCK_SIZE. intros Hb Hb' Ho. unfold incr, decr, BLOCK_SIZE.
  rewrite (wrap_small (_offset it + 1)) by lia.
  destruct (Z.eqb_spec (_offset it + 1) 64) as [E|E]; cbn [_offset _block _map_ptr].
  - change (0 =? 0) with true. cbv iota.
    rewrite (wrap_small (_block it + 1)) by lia.
    rewrite wrap_small by lia.
    destruct it as [m b o]. cbn in *. f_equal; lia.
  - destruct (Z.eqb_spec (_offset it + 1) 0) as [E0|E0]; [lia|].
    rewrite wrap_small by lia.
    destruct it as [m b o]. cbn in *. f_equal; lia.
Qed.

Lemma incr_decr (it : t) :
  0 <= _block it < 2 ^ 64 ->
  0 <= _offset it < BLOCK_SIZE ->
  0 < flat it ->
  incr (decr it) = it.
Proof.
  unfold flat, BLOCK_SIZE. intros Hb Ho Hpos. unfold incr, decr, BLOCK_SIZE.
  destruct (Z.eqb_spec (_offset it) 0) as [E|E]; cbn [_offset _block _map_ptr].
  - change (wrap (64 - 1 + 1) =? 64) with true. cbv iota.
    rewrite (wrap_small (_block it - 1)) by lia.
    rewrite wrap_small by lia.
    destruct it as [m b o]. cbn in *. f_equal; lia.
  - rewrite (wrap_small (_offset it - 1)) by lia.
    rewrite wrap_small by lia.
    destruct (Z.eqb_spec (_offset it - 1 + 1) 64) as [E0|E0]; [lia|].
    destruct it as [m b o]. cbn in *. f_equal; lia.
Qed.

(** X1. [operator++] and [operator--] undo each other on an iterator whose
    offset is inside its block: [--(++it) == it], and [++(--it) == it] unless
    [it] is the very first slot of the map. *)
Theorem incr_decr_inverse (it : Iterator.t) :
  0 <= _block it -> _block it + 1 < 2 ^ 64 ->
  0 <= _offset it < BLOCK_SIZE ->
  decr (incr it) = it /\ (0 < flat it -> incr (decr it) = it).
Proof.
  intros Hb Hb' Ho. split.
  - apply decr_incr; assumption.
  - intros Hpos. apply incr_decr; [lia | assumption | assumption].
Qed.

Lemma incr_decr_inverse_witness :
  decr (incr (Make nullptr 4 63)) = Make nullptr 4 63 /\
  incr (Make nullptr 4 63) = Make nullptr 5 0 /\
  incr (decr (Make nullptr 5 0)) = Make nullptr 5 0 /\
  decr (Make nullptr 5 0) = Make nullptr 4 63.
Proof.
  destruct (incr_decr_inverse (Make nullptr 4 63)) as [H1 _];
    [vm_compute; discriminate | vm_compute; reflexivity
    | vm_compute; split; [discriminate | reflexivity] |].
  destruct (incr_decr_inverse (Make nullptr 5 0)) as [_ H2];
    [vm_compute; discriminate | vm_compute; reflexivity
    | vm_compute; split; [discriminate | reflexivity] |].
  split; [exact H1|]. split; [vm_compute; reflexivity|].
  split; [apply H2; vm_compute; reflexivity|]. vm_compute. reflexivity.
Defined.

Lemma flat_floor_plus (it : t) (n : Z) :
  flat (floor_plus it n) = flat it + n.
Proof.
  unfold flat, floor_plus, BLOCK_SIZE. cbn [_block _offset].
  pose proof (Z.div_mod (_offset it + n) 64 ltac:(lia)). lia.
Qed.

Lemma normal_floor_plus (it : t) (n : Z) :
  normal it -> 0 <= _offset it + n -> flat it + n + BLOCK_SIZE < 2 ^ 63 ->
  normal (floor_plus it n).
Proof.
  unfold normal. intros (Hb & Ho & Hf) Hn Hfit.
  rewrite flat_floor_plus. unfold floor_plus, BLOCK_SIZE in *. cbn [_block _offset].
  assert (0 <= (_offset it + n) / 64) by (apply Z.div_pos; lia).
  pose proof (Z.mod_pos_bound (_offset it + n) 64 ltac:(lia)).
  repeat split; lia.
Qed.

Lemma normal_addressable (it : t) : normal it -> addressable it.
Proof. unfold normal, addressable. intros (Hb & Ho & Hf). repeat split; lia. Qed.

(** The signed difference of two cursor positions is the difference of their
    flat positions. *)
Lemma diff_flat (a b : t) :
  addressable a -> addressable b -> diff a b = flat a - flat b.
Proof.
  unfold addressable, flat, BLOCK_SIZE. intros (Ha & Hao & Haf) (Hb & Hbo & Hbf).
  unfold diff, BLOCK_SIZE.
  rewrite (to_signed_small (_block a)) by lia.
  rewrite (to_signed_small (_offset a)) by lia.
  assert (forall z, - 2 ^ 63 <= z < 2 ^ 63 -> to_signed (wrap z) = z) as Hsw.
  { intros z Hz. destruct (Z.lt_ge_cases z 0).
    - rewrite wrap_negative by lia. unfold to_signed.
      replace (z + 2 ^ 64 + 2 ^ 63) with (z + 2 ^ 63 + 1 * 2 ^ 64) by lia.
      rewrite Z.mod_add by lia. rewrite Z.mod_small by lia. lia.
    - rewrite wrap_small by lia. apply to_signed_small. lia. }
  assert (forall x y, wrap (wrap x + y) = wrap (x + y)) as Hww.
  { intros x y. unfold wrap. rewrite Zplus_mod_idemp_l. reflexivity. }
  rewrite (Hsw (_block a - _block b)) by lia.
  rewrite (Hsw (_offset a - _offset b)) by lia.
  rewrite Hww. rewrite Hsw by lia. lia.
Qed.

(** X2. Advancing by [n >= 0] with [operator+] is [n] increments, and the
    distance back to the starting point is [n]. *)
Theorem plus_is_repeated_incr (it : Iterator.t) (n : Z) :
  normal it -> 0 <= n -> flat it + n + BLOCK_SIZE < 2 ^ 63 ->
  plus it n = Nat.iter (Z.to_nat n) incr it /\
  flat (plus it n) = flat it + n /\
  diff (plus it n) it = n.
Proof.
  intros Hn Hpos Hfit. pose proof Hn as (Hb & Ho & Hf).
  unfold flat, BLOCK_SIZE in *.
  assert (plus it n = floor_plus it n) as Hp
    by (apply plus_nonnegative; unfold BLOCK_SIZE; lia).
  split.
  - rewrite Hp, iter_incr_flat; rewrite ?Z2Nat.id by lia;
      unfold BLOCK_SIZE; try lia. reflexivity.
  - rewrite Hp. split; [apply flat_floor_plus|].
    rewrite diff_flat.
    + rewrite flat_floor_plus. lia.
    + apply normal_addressable, normal_floor_plus;
        unfold flat, BLOCK_SIZE; [assumption | lia | lia].
    + apply normal_addressable. assumption.
Qed.

Lemma plus_is_repeated_incr_witness :
  plus (Make nullptr 4 60) 70 = Make nullptr 6 2 /\
  Nat.iter 70 incr (Make nullptr 4 60) = Make nullptr 6 2 /\
  diff (Make nullptr 6 2) (Make nullptr 4 60) = 70.
Proof.
  destruct (plus_is_repeated_incr (Make nullptr 4 60) 70) as (H1 & _ & H3).
  - vm_compute. repeat split; discriminate.
  - discriminate.
  - vm_compute. reflexivity.
  - assert (plus (Make nullptr 4 60) 70 = Make nullptr 6 2) as E
      by (vm_compute; reflexivity).
    split; [exact E|]. split.
    + rewrite <- E, H1. reflexivity.
    + rewrite <- E. exact H3.
Defined.

(** X3. For two iterators into the same map with offsets inside their
    blocks, [==], [<], [<=], [>] and [>=] compare flat positions. *)
Theorem comparisons_follow_flat_position (a b : Iterator.t) :
  normal a -> normal b -> _map_ptr a = _map_ptr b ->
  (eqb a b = true <-> flat a = flat b) /\
  (neqb a b = true <-> flat a <> flat b) /\
  (ltb a b = true <-> flat a < flat b) /\
  (leb a b = true <-> flat a <= flat b) /\
  (gtb a b = true <-> flat a > flat b) /\
  (geb a b = true <-> flat a >= flat b).
Proof.
  unfold normal, flat, BLOCK_SIZE. intros (Ha & Hao & _) (Hb & Hbo & _) Hm.
  assert (forall x y : t, _map_ptr x = _map_ptr y ->
            0 <= _offset x < 64 -> 0 <= _offset y < 64 ->
            (ltb x y = true <-> _block x * 64 + _offset x < _block y * 64 + _offset y))
    as Hlt.
  { intros x y E Hx Hy. unfold ltb. rewrite bool_decide_eq_true_2 by exact E.
    cbn [andb].
    destruct (Z.ltb_spec (_block x) (_block y));
      destruct (Z.eqb_spec (_block x) (_block y));
      destruct (Z.ltb_spec (_offset x) (_offset y)); cbn; split; intros; lia || discriminate || reflexivity. }
  assert (eqb a b = true <-> _block a * 64 + _offset a = _block b * 64 + _offset b)
    as Heq.
  { unfold eqb. rewrite bool_decide_eq_true_2 by exact Hm. cbn [andb].
    destruct (Z.eqb_spec (_block a) (_block b));
      destruct (Z.eqb_spec (_offset a) (_offset b)); cbn; split; intros; lia || discriminate || reflexivity. }
  pose proof (Hlt a b Hm Hao Hbo) as Hab.
  pose proof (Hlt b a (eq_sym Hm) Hbo Hao) as Hba.
  split; [exact Heq|].
  split; [unfold neqb; rewrite negb_true_iff, <- not_true_iff_false, Heq; reflexivity|].
  split; [exact Hab|].
  split; [unfold leb; rewrite negb_true_iff, <- not_true_iff_false, Hba; lia|].
  split; [unfold gtb; rewrite Hba; lia|].
  unfold geb. rewrite negb_true_iff, <- not_true_iff_false, Hab. lia.
Qed.

Lemma comparisons_follow_flat_position_witness :
  ltb (Make nullptr 3 63) (Make nullptr 4 0) = true /\
  leb (Make nullptr 3 63) (Make nullptr 4 0) = true /\
  gtb (Make nullptr 3 63) (Make nullptr 4 0) = false /\
  eqb (Make nullptr 3 63) (Make nullptr 4 0) = false.
Proof.
  destruct (comparisons_follow_flat_position (Make nullptr 3 63) (Make nullptr 4 0))
    as (_ & _ & Hlt & Hle & _ & _).
  - vm_compute. repeat split; discriminate.
  - vm_compute. repeat split; discriminate.
  - reflexivity.
  - split; [apply Hlt; vm_compute; reflexivity|].
    split; [apply Hle; vm_compute; discriminate|].
    split; vm_compute; reflexivity.
Defined.

(** X4. Two iterators that refer to different maps are neither equal nor
    ordered by [<] or [>], while [<=] and [>=] both hold of them. *)
Theorem comparisons_across_maps (a b : Iterator.t) :
  _map_ptr a <> _map_ptr b ->
  eqb a b = false /\ neqb a b = true /\
  ltb a b = false /\ gtb a b = false /\
  leb a b = true /\ geb a b = true.
Proof.
  intros Hm. unfold neqb, leb, geb, gtb, eqb, ltb.
  rewrite (bool_decide_eq_false_2 _ Hm).
  rewrite (bool_decide_eq_false_2 (_map_ptr b = _map_ptr a))
    by (intros E; apply Hm; symmetry; exact E).
  repeat split.
Qed.

Lemma comparisons_across_maps_witness :
  eqb (begin (self demo)) (begin (self cleared)) = false /\
  leb (begin (self demo)) (begin (self cleared)) = true /\
  geb (begin (self demo)) (begin (self cleared)) = true /\
  ltb (begin (self demo)) (begin (self cleared)) = false.
Proof.
  destruct (comparisons_across_maps (begin (self demo)) (begin (self cleared)))
    as (H1 & _ & H3 & _ & H5 & H6).
  - vm_compute. discriminate.
  - repeat split; assumption.
Defined.

End IteratorAlgebra.

(** ** Cursors of a container built at its ends *)

Section BuiltAtEnds.

Context {T : Type}.
Implicit Types s : state T.

Lemma cursors_addressable (d : Deque) :
  cursors_wf d -> _map_size d <= 2 ^ 55 ->
  addressable (begin d) /\ addressable (end_ d) /\
  flat (end_ d) - flat (begin d) = size d.
Proof.
  unfold cursors_wf, size_equation, addressable, flat, begin, end_, size, BLOCK_SIZE.
  cbn [Iterator._block Iterator._offset].
  intros (Hsb & Hle & Hfb & Hso & Hfo & Hsz & Heq) Hms.
  repeat split; lia.
Qed.

(** X5. Construction followed by any sequence of [push_back], [push_front],
    [pop_back] and [pop_front] keeps the cursor invariants: both offsets in
    range, the block range inside the map, and
    [size == (finish_block - start_block) * 64 + finish_offset - start_offset]. *)
Theorem ends_keep_cursor_invariants (s : state T) :
  reachable_by_ends s ->
  0 <= _start_block (self s) <= _finish_block (self s) + 1 /\
  0 <= _finish_block (self s) < _map_size (self s) /\
  0 <= _start_offset (self s) < BLOCK_SIZE /\
  0 <= _finish_offset (self s) <= BLOCK_SIZE /\
  0 <= size (self s) /\
  size (self s) =
    (_finish_block (self s) - _start_block (self s)) * BLOCK_SIZE
    + _finish_offset (self s) - _start_offset (self s).
Proof.
  intros Hr. apply reachable_by_ends_cursors in Hr.
  destruct Hr as (Hsb & Hle & Hfb & Hso & Hfo & Hsz & Heq).
  unfold size_equation, size in *. repeat split; try lia.
Qed.

(** X6. On such a container [end() - begin()] is [size()], also when the
    finish offset is 64. *)
Theorem distance_is_size (s : state T) :
  reachable_by_ends s -> _map_size (self s) <= 2 ^ 55 ->
  Iterator.diff (end_ (self s)) (begin (self s)) = size (self s).
Proof.
  intros Hr Hms. apply reachable_by_ends_cursors in Hr.
  destruct (cursors_addressable _ Hr Hms) as (Hb & He & Hd).
  rewrite diff_flat by assumption. exact Hd.
Qed.

(** X7. On such a container whose last block has room left, [size()]
    increments of [begin()] give an iterator equal to [end()], and fewer give
    one that differs from it. *)
Theorem walk_ends_at_end (s : state T) (i : Z) :
  reachable_by_ends s -> _map_size (self s) <= 2 ^ 55 ->
  _finish_offset (self s) < BLOCK_SIZE ->
  0 <= i <= size (self s) ->
  Iterator.eqb (ith (self s) i) (end_ (self s)) = bool_decide (i = size (self s)).
Proof.
  intros Hr Hms Hroom Hi. apply reachable_by_ends_cursors in Hr.
  destruct Hr as (Hsb & Hle & Hfb & Hso & Hfo & Hsz & Heq).
  unfold size_equation, size, BLOCK_SIZE in *.
  rewrite ith_slot by (unfold BLOCK_SIZE; lia).
  unfold slot_block, slot_offset, Iterator.eqb, end_, BLOCK_SIZE.
  cbn [Iterator._map_ptr Iterator._block Iterator._offset].
  rewrite bool_decide_eq_true_2 by reflexivity. cbn [andb].
  set (p := _start_offset (self s) + i).
  pose proof (Z.div_mod p 64 ltac:(lia)) as Hdm.
  pose proof (Z.mod_pos_bound p 64 ltac:(lia)) as Hmb.
  destruct (decide (i = _size (self s))) as [E|E].
  - rewrite bool_decide_eq_true_2 by exact E.
    assert (p = _finish_offset (self s)
                + (_finish_block (self s) - _start_block (self s)) * 64) as ->
      by (subst p; lia).
    rewrite Z.div_add, Z.mod_add by lia.
    rewrite Z.div_small, Z.mod_small by lia.
    rewrite (proj2 (Z.eqb_eq _ _)) by lia. rewrite Z.eqb_refl. reflexivity.
  - rewrite bool_decide_eq_false_2 by exact E.
    destruct (Z.eqb_spec (_start_block (self s) + p / 64) (_finish_block (self s)))
      as [Eb|Eb]; [|reflexivity].
    destruct (Z.eqb_spec (p mod 64) (_finish_offset (self s))) as [Eo|Eo];
      [|reflexivity].
    exfalso. apply E. subst p. lia.
Qed.

Lemma front_back_subscript (s : state T) :
  cursors_wf (self s) -> _map_size (self s) <= 2 ^ 57 -> 0 < _size (self s) ->
  front s = subscript 0 s /\ back s = subscript (_size (self s) - 1) s.
Proof.
  intros Hr Hms Hne.
  destruct Hr as (Hsb & Hle & Hfb & Hso & Hfo & Hsz & Heq).
  unfold size_equation, size, BLOCK_SIZE in *. split.
  - rewrite subscript_slot by (unfold BLOCK_SIZE; lia).
    unfold front, slot_block, slot_offset, BLOCK_SIZE. exec.
    rewrite Z.add_0_r, Z.div_small, Z.mod_small, Z.add_0_r by lia. reflexivity.
  - rewrite subscript_slot by (unfold BLOCK_SIZE; lia).
    unfold back, slot_block, slot_offset, BLOCK_SIZE. exec.
    set (p := _start_offset (self s) + (_size (self s) - 1)).
    destruct (Z.eqb_spec (_finish_offset (self s)) 0) as [E|E].
    + assert (p = 63 + (_finish_block (self s) - 1 - _start_block (self s)) * 64) as ->
        by (subst p; lia).
      rewrite Z.div_add, Z.mod_add by lia. change (63 / 64) with 0.
      change (63 mod 64) with 63. rewrite (wrap_small (_finish_block (self s) - 1)) by lia.
      change (64 - 1) with 63.
      replace (_start_block (self s) + (0 + (_finish_block (self s) - 1 - _start_block (self s))))
        with (_finish_block (self s) - 1) by lia.
      reflexivity.
    + assert (p = _finish_offset (self s) - 1
                  + (_finish_block (self s) - _start_block (self s)) * 64) as ->
        by (subst p; lia).
      rewrite Z.div_add, Z.mod_add by lia.
      rewrite Z.div_small, Z.mod_small by lia.
      rewrite (wrap_small (_finish_offset (self s) - 1)) by lia.
      replace (_start_block (self s) + (0 + (_finish_block (self s) - _start_block (self s))))
        with (_finish_block (self s)) by lia.
      reflexivity.
Qed.


(** X8. On a non-empty such container [front()] is [operator[](0)] and
    [back()] is [operator[](size() - 1)]. *)
Theorem front_back_are_first_last (s : state T) :
  reachable_by_ends s -> _map_size (self s) <= 2 ^ 55 ->
  0 < size (self s) ->
  front s = subscript 0 s /\ back s = subscript (size (self s) - 1) s.
Proof.
  intros Hr Hms Hne. apply reachable_by_ends_cursors in Hr.
  apply front_back_subscript; [exact Hr | lia | exact Hne].
Qed.

End BuiltAtEnds.

(** The one-element container made by [push_front(7)] is built at its ends. *)
Lemma straddling_reachable : reachable_by_ends straddling.
Proof.
  eapply (reach_step (after Deque_default) straddling (PushFront 7)).
  - apply (reach_default boot). vm_compute. reflexivity.
  - vm_compute. discriminate.
  - vm_compute. reflexivity.
Qed.

Lemma ends_keep_cursor_invariants_witness :
  0 <= _start_block (self straddling) <= _finish_block (self straddling) + 1 /\
  0 <= _finish_block (self straddling) < _map_size (self straddling) /\
  0 <= _start_offset (self straddling) < BLOCK_SIZE /\
  0 <= _finish_offset (self straddling) <= BLOCK_SIZE /\
  0 <= size (self straddling) /\
  size (self straddling) =
    (_finish_block (self straddling) - _start_block (self straddling)) * BLOCK_SIZE
    + _finish_offset (self straddling) - _start_offset (self straddling).
Proof. apply (ends_keep_cursor_invariants straddling). exact straddling_reachable. Defined.

Lemma distance_is_size_witness :
  Iterator.diff (end_ (self straddling)) (begin (self straddling)) = 1.
Proof.
  apply (distance_is_size straddling).
  - exact straddling_reachable.
  - vm_compute. discriminate.
Defined.

Lemma walk_ends_at_end_witness :
  Iterator.eqb (ith (self straddling) 1) (end_ (self straddling)) = true /\
  Iterator.eqb (ith (self straddling) 0) (end_ (self straddling)) = false.
Proof.
  split.
  - apply (walk_ends_at_end straddling 1).
    + exact straddling_reachable.
    + vm_compute. discriminate.
    + vm_compute. reflexivity.
    + vm_compute. split; discriminate.
  - apply (walk_ends_at_end straddling 0).
    + exact straddling_reachable.
    + vm_compute. discriminate.
    + vm_compute. reflexivity.
    + vm_compute. split; discriminate.
Defined.

Lemma front_back_are_first_last_witness :
  front straddling = subscript 0 straddling /\
  back straddling = subscript 0 straddling.
Proof.
  apply (front_back_are_first_last straddling).
  - exact straddling_reachable.
  - vm_compute. discriminate.
  - vm_compute. reflexivity.
Defined.

(** ** The free store under the primitives *)

Section Store.

Context {T : Type}.
Implicit Types (s : state T) (h : heap T) (slots : list ptr) (p b m : loc).

Lemma heap_wf_lookup h p o :
  heap_wf h -> objs h !! p = Some o -> (p < next h)%positive.
Proof.
  intros Hwf Hp. destruct (Pos.ltb_spec p (next h)) as [|Hge]; [assumption|].
  rewrite (Hwf p Hge) in Hp. discriminate.
Qed.

Lemma heap_wf_update h p o o' :
  heap_wf h -> objs h !! p = Some o ->
  heap_wf (Heap (<[p := o']> (objs h)) (next h)).
Proof.
  intros Hwf Hp q Hq. cbn in *.
  pose proof (heap_wf_lookup _ _ _ Hwf Hp).
  rewrite lookup_insert_ne by (intros ->; lia). apply Hwf. exact Hq.
Qed.

Lemma heap_wf_new h o :
  heap_wf h -> heap_wf (Heap (<[next h := o]> (objs h)) (Pos.succ (next h))).
Proof.
  intros Hwf q Hq. cbn in *.
  rewrite lookup_insert_ne by lia. apply Hwf. lia.
Qed.

Lemma heap_wf_delete h p :
  heap_wf h -> heap_wf (Heap (delete p (objs h)) (next h)).
Proof.
  intros Hwf q Hq. cbn in *.
  destruct (decide (p = q)) as [->|Hne].
  - apply lookup_delete_eq.
  - rewrite lookup_delete_ne by exact Hne. apply Hwf. exact Hq.
Qed.

(** [blocks_wf] and [cell] look at the free store through the blocks of the
    slots only. *)
Lemma blocks_wf_ext h h' slots :
  (forall (k : nat) (b : loc), slots !! k = Some (Some b) ->
     objs h' !! b = objs h !! b) ->
  blocks_wf h slots -> blocks_wf h' slots.
Proof.
  intros Hext [Hv Hinj]. split; [|exact Hinj].
  intros k b Hk. rewrite (Hext k b Hk). exact (Hv k b Hk).
Qed.

Lemma cell_ext h h' slots k o :
  (forall (j : nat) (b : loc), slots !! j = Some (Some b) ->
     objs h' !! b = objs h !! b) ->
  cell h' slots k o = cell h slots k o.
Proof.
  intros Hext. unfold cell.
  destruct (slots !! Z.to_nat k) as [[b|]|] eqn:E; [|reflexivity|reflexivity].
  rewrite (Hext _ _ E). reflexivity.
Qed.

Lemma blocks_wf_update h slots b cells (o : nat) c :
  blocks_wf h slots -> objs h !! b = Some (BlockArr cells) ->
  blocks_wf (Heap (<[b := BlockArr (<[o := c]> cells)]> (objs h)) (next h)) slots.
Proof.
  intros [Hv Hinj] Hb. split; [|exact Hinj].
  intros k b' Hk. cbn. destruct (decide (b = b')) as [<-|Hne].
  - rewrite lookup_insert_eq. eexists. split; [reflexivity|].
    rewrite length_insert. destruct (Hv k b Hk) as (cells' & Hc & Hlen).
    rewrite Hb in Hc. injection Hc as <-. exact Hlen.
  - rewrite lookup_insert_ne by exact Hne. exact (Hv k b' Hk).
Qed.

Lemma cell_update_block h slots k b cells o c k' o' :
  blocks_wf h slots -> 0 <= k -> 0 <= o -> 0 <= k' -> 0 <= o' ->
  slots !! Z.to_nat k = Some (Some b) ->
  objs h !! b = Some (BlockArr cells) ->
  (Z.to_nat o < length cells)%nat ->
  cell (Heap (<[b := BlockArr (<[Z.to_nat o := c]> cells)]> (objs h)) (next h))
       slots k' o'
  = if decide (k' = k /\ o' = o) then c else cell h slots k' o'.
Proof.
  intros [Hv Hinj] Hk Ho Hk' Ho' Hs Hb Hlen. unfold cell. cbn [objs].
  destruct (slots !! Z.to_nat k') as [[b'|]|] eqn:E.
  - destruct (decide (b' = b)) as [->|Hne].
    + assert (k' = k) as -> by (pose proof (Hinj _ _ _ E Hs); lia).
      rewrite lookup_insert_eq, Hb.
      destruct (decide (o' = o)) as [->|Hno].
      * rewrite list_lookup_insert_eq by exact Hlen.
        rewrite decide_True by (split; reflexivity). destruct c; reflexivity.
      * rewrite list_lookup_insert_ne by lia.
        rewrite decide_False by (intros [_ ?]; contradiction). reflexivity.
    + rewrite lookup_insert_ne by (intros ->; contradiction).
      rewrite decide_False; [reflexivity|].
      intros [-> _]. rewrite Hs in E. injection E as ->. contradiction.
  - rewrite decide_False; [reflexivity|].
    intros [-> _]. rewrite Hs in E. discriminate.
  - rewrite decide_False; [reflexivity|].
    intros [-> _]. rewrite Hs in E. discriminate.
Qed.

(** Changing one slot. *)
Lemma blocks_wf_slot_null h slots (k : nat) :
  blocks_wf h slots -> blocks_wf h (<[k := nullptr]> slots).
Proof.
  intros [Hv Hinj]. split.
  - intros j b Hj. destruct (decide (k = j)) as [->|Hne].
    + pose proof (lookup_lt_Some _ _ _ Hj) as Hlt. rewrite length_insert in Hlt.
      rewrite list_lookup_insert_eq in Hj by exact Hlt. discriminate.
    + rewrite list_lookup_insert_ne in Hj by exact Hne. exact (Hv j b Hj).
  - intros k1 k2 b H1 H2.
    destruct (decide (k = k1)) as [->|Hne1].
    { pose proof (lookup_lt_Some _ _ _ H1) as Hlt. rewrite length_insert in Hlt.
      rewrite list_lookup_insert_eq in H1 by exact Hlt. discriminate. }
    destruct (decide (k = k2)) as [->|Hne2].
    { pose proof (lookup_lt_Some _ _ _ H2) as Hlt. rewrite length_insert in Hlt.
      rewrite list_lookup_insert_eq in H2 by exact Hlt. discriminate. }
    rewrite list_lookup_insert_ne in H1, H2 by assumption.
    exact (Hinj _ _ _ H1 H2).
Qed.

Lemma blocks_wf_slot_new h slots (k : nat) b cells :
  blocks_wf h slots ->
  objs h !! b = Some (BlockArr cells) -> length cells = Z.to_nat BLOCK_SIZE ->
  (forall j : nat, slots !! j <> Some (Some b)) ->
  blocks_wf h (<[k := Some b]> slots).
Proof.
  intros [Hv Hinj] Hb Hlen Hfresh. split.
  - intros j b' Hj. destruct (decide (k = j)) as [->|Hne].
    + pose proof (lookup_lt_Some _ _ _ Hj) as Hlt. rewrite length_insert in Hlt.
      rewrite list_lookup_insert_eq in Hj by exact Hlt. injection Hj as <-.
      eauto.
    + rewrite list_lookup_insert_ne in Hj by exact Hne. exact (Hv j b' Hj).
  - intros k1 k2 b' H1 H2.
    destruct (decide (k = k1)) as [->|Hne1]; destruct (decide (k1 = k2)) as [E|Hne2];
      try exact E.
    + pose proof (lookup_lt_Some _ _ _ H1) as Hlt. rewrite length_insert in Hlt.
      rewrite list_lookup_insert_eq in H1 by exact Hlt. injection H1 as <-.
      rewrite list_lookup_insert_ne in H2 by exact Hne2.
      destruct (Hfresh _ H2).
    + destruct (decide (k = k2)) as [->|Hne3].
      * pose proof (lookup_lt_Some _ _ _ H2) as Hlt. rewrite length_insert in Hlt.
        rewrite list_lookup_insert_eq in H2 by exact Hlt. injection H2 as <-.
        rewrite list_lookup_insert_ne in H1 by exact Hne1.
        destruct (Hfresh _ H1).
      * rewrite list_lookup_insert_ne in H1, H2 by assumption.
        exact (Hinj _ _ _ H1 H2).
Qed.

End Store.

(** ** The sequence a container holds *)

Section Refinement.

Context {T : Type}.
Implicit Types (s : state T) (l : list T) (d : Deque) (h : heap T)
  (slots : list ptr) (p b m : loc).

Lemma slot_spec d i :
  slot_block d i * BLOCK_SIZE + slot_offset d i
    = _start_block d * BLOCK_SIZE + _start_offset d + i /\
  0 <= slot_offset d i < BLOCK_SIZE.
Proof.
  unfold slot_block, slot_offset, BLOCK_SIZE.
  pose proof (Z.div_mod (_start_offset d + i) 64 ltac:(lia)).
  pose proof (Z.mod_pos_bound (_start_offset d + i) 64 ltac:(lia)). lia.
Qed.

Lemma slot_unique d i k o :
  k * BLOCK_SIZE + o = _start_block d * BLOCK_SIZE + _start_offset d + i ->
  0 <= o < BLOCK_SIZE ->
  slot_block d i = k /\ slot_offset d i = o.
Proof.
  intros H Ho. destruct (slot_spec d i) as [H1 H2]. unfold BLOCK_SIZE in *. lia.
Qed.

(** The slots of the elements lie between the cursors. *)
Lemma slot_live d i :
  cursors_loose d -> 0 <= i < _size d ->
  _start_block d <= slot_block d i <= _finish_block d /\
  0 <= slot_offset d i < BLOCK_SIZE /\
  slot_block d i * BLOCK_SIZE + slot_offset d i
    < _finish_block d * BLOCK_SIZE + _finish_offset d.
Proof.
  intros (Hsb & Hle & Hfb & Hso & Hfo & Hsz & Heq) Hi.
  destruct (slot_spec d i) as [H1 H2].
  unfold size_equation, BLOCK_SIZE in *. lia.
Qed.


Lemma holds_cursors_wf l s : holds l s -> cursors_wf (self s).
Proof.
  intros [(_ & Hcur & _) Hso]. unfold cursors_wf, cursors_loose in *.
  intuition lia.
Qed.

Lemma cell_transport (h h' : heap T) (slots slots' : list ptr) (k k' o : Z) :
  slots' !! Z.to_nat k' = slots !! Z.to_nat k ->
  (forall b, slots !! Z.to_nat k = Some (Some b) -> objs h' !! b = objs h !! b) ->
  cell h' slots' k' o = cell h slots k o.
Proof.
  intros Hs Hb. unfold cell, ptr in *. rewrite Hs.
  destruct (slots !! Z.to_nat k) as [[b|]|] eqn:E; [|reflexivity|reflexivity].
  rewrite (Hb b eq_refl). reflexivity.
Qed.

(** A block is not the map array. *)
Lemma block_not_map h slots m (k : nat) b :
  blocks_wf h slots -> objs h !! m = Some (MapArr slots) ->
  slots !! k = Some (Some b) -> b <> m.
Proof.
  intros [Hv _] Hm Hk ->. destruct (Hv k m Hk) as (cells & Hc & _).
  rewrite Hm in Hc. discriminate.
Qed.

(** *** Reading *)

Lemma stored_cell l s (i : nat) v :
  stored l s -> l !! i = Some v ->
  exists m slots b cells,
    _map (self s) = Some m /\ objs (mem s) !! m = Some (MapArr slots) /\
    0 <= slot_block (self s) (Z.of_nat i) /\
    slots !! Z.to_nat (slot_block (self s) (Z.of_nat i)) = Some (Some b) /\
    objs (mem s) !! b = Some (BlockArr cells) /\
    cells !! Z.to_nat (slot_offset (self s) (Z.of_nat i)) = Some (Some v).
Proof.
  intros (Hheap & Hcur & Hlen & m & slots & Hmap & Hm & Hslots & Hwf & Hnull
          & Hlive & Hel) Hi.
  pose proof (Hel i v Hi) as Hc.
  pose proof (lookup_lt_Some _ _ _ Hi) as Hlt.
  destruct (slot_live (self s) (Z.of_nat i) Hcur ltac:(lia)) as (Hb & Ho & _).
  destruct Hcur as (Hsb & _).
  exists m, slots. unfold cell in Hc.
  destruct (slots !! Z.to_nat (slot_block (self s) (Z.of_nat i))) as [[b|]|] eqn:E;
    try discriminate.
  destruct (objs (mem s) !! b) as [[?|cells]|] eqn:Eb; try discriminate.
  exists b, cells.
  destruct (cells !! Z.to_nat (slot_offset (self s) (Z.of_nat i))) as [[v'|]|] eqn:Ec;
    try discriminate.
  injection Hc as ->. repeat split; try assumption; try reflexivity. lia.
Qed.

Lemma holds_subscript l s (i : nat) v :
  holds l s -> _map_size (self s) <= 2 ^ 57 -> l !! i = Some v ->
  exists r : ref,
    subscript (Z.of_nat i) s = Ok r s /\ at_ (Z.of_nat i) s = Ok r s /\
    load r s = Ok v s.
Proof.
  intros [Hst Hso] Hms Hi.
  destruct (stored_cell l s i v Hst Hi) as (m & slots & b & cells & Hmap & Hm & Hk & Hs & Hb & Hc).
  destruct Hst as (_ & Hcur & Hlen & _).
  pose proof (lookup_lt_Some _ _ _ Hi) as Hlt.
  destruct (slot_spec (self s) (Z.of_nat i)) as [_ Ho].
  destruct Hcur as (Hsb & Hle & Hfb & Hso' & Hfo & Hsz & Heq).
  unfold size_equation, BLOCK_SIZE in *.
  assert (subscript (Z.of_nat i) s
          = Ok (b, slot_offset (self s) (Z.of_nat i)) s) as Hsub.
  { rewrite subscript_slot by (unfold BLOCK_SIZE; lia). rewrite Hmap.
    eapply map_elem_ok; eassumption. }
  exists (b, slot_offset (self s) (Z.of_nat i)). split; [exact Hsub|]. split.
  - unfold at_. rewrite bind_get.
    destruct (Z.geb_spec (Z.of_nat i) (_size (self s))); [lia | exact Hsub].
  - unfold load. cbn [fst snd]. rewrite Hb, Hc.
    destruct (Z.leb_spec 0 (slot_offset (self s) (Z.of_nat i))); [reflexivity | lia].
Qed.

(** *** Writing a cell of a live block *)

(** The state after a cell of the block of slot [k] has been written and the
    cursors changed to [d']. *)
Lemma stored_write l l' s k o c b cells d' :
  stored l s ->
  _map d' = _map (self s) -> _map_size d' = _map_size (self s) ->
  cursors_loose d' -> Z.of_nat (length l') = _size d' ->
  _start_block d' = _start_block (self s) ->
  _finish_block d' <= _finish_block (self s) ->
  0 <= k -> 0 <= o < BLOCK_SIZE ->
  (forall m slots, _map (self s) = Some m ->
     objs (mem s) !! m = Some (MapArr slots) ->
     slots !! Z.to_nat k = Some (Some b)) ->
  objs (mem s) !! b = Some (BlockArr cells) ->
  (forall (i : nat) (v : T), l' !! i = Some v ->
     if decide (slot_block d' (Z.of_nat i) = k /\ slot_offset d' (Z.of_nat i) = o)
     then c = Some v
     else exists i0 : nat,
         l !! i0 = Some v /\
         slot_block (self s) (Z.of_nat i0) = slot_block d' (Z.of_nat i) /\
         slot_offset (self s) (Z.of_nat i0) = slot_offset d' (Z.of_nat i)) ->
  stored l'
    (State (Heap (<[b := BlockArr (<[Z.to_nat o := c]> cells)]> (objs (mem s)))
                 (next (mem s))) d').
Proof.
  intros (Hheap & Hcur & Hlen & m & slots & Hmap & Hm & Hslots & Hwf & Hnull
          & Hlive & Hel) Hmap' Hms' Hcur' Hlen' Hsb' Hrange Hk Ho Hslot Hb Hl'.
  pose proof (Hslot m slots Hmap Hm) as Hs.
  pose proof (block_not_map _ _ _ _ _ Hwf Hm Hs) as Hbm.
  assert (length cells = Z.to_nat BLOCK_SIZE) as Hcells.
  { destruct Hwf as [Hv _]. destruct (Hv _ _ Hs) as (cells' & Hc' & Hlen0).
    rewrite Hb in Hc'. injection Hc' as <-. exact Hlen0. }
  split; [|split; [|split]]; fields.
  - eapply heap_wf_update; eassumption.
  - exact Hcur'.
  - exact Hlen'.
  - exists m, slots. rewrite Hmap', Hms'.
    split; [exact Hmap|]. split; [rewrite lookup_insert_ne by exact Hbm; exact Hm|].
    split; [exact Hslots|]. split; [eapply blocks_wf_update; eassumption|].
    split; [intros j Hj; apply Hnull; lia|].
    split; [intros j Hj; apply Hlive; lia|].
    intros i v Hi.
    pose proof (lookup_lt_Some _ _ _ Hi) as Hlt.
    destruct (slot_live d' (Z.of_nat i) Hcur' ltac:(lia)) as (Hbk & Hof & _).
    destruct Hcur' as (Hsb0 & _).
    pose proof (cell_update_block (mem s) slots k b cells o c
                  (slot_block d' (Z.of_nat i)) (slot_offset d' (Z.of_nat i))
                  Hwf Hk ltac:(lia) ltac:(lia) ltac:(lia) Hs Hb
                  ltac:(rewrite Hcells; unfold BLOCK_SIZE in *; lia)) as Hcu.
    cbn [next] in Hcu. rewrite Hcu.
    specialize (Hl' i v Hi).
    destruct (decide (slot_block d' (Z.of_nat i) = k /\
                      slot_offset d' (Z.of_nat i) = o)) as [_|_].
    + exact Hl'.
    + destruct Hl' as (i0 & Hi0 & <- & <-). exact (Hel i0 v Hi0).
Qed.

End Refinement.

Section Steps.

Context {T : Type}.
Implicit Types (s : state T) (l : list T) (d : Deque) (h : heap T)
  (slots : list ptr) (p b m : loc).

Lemma bind_ext {A B} (c : M T A) (k k' : A -> M T B) s :
  (forall a s1, k a s1 = k' a s1) -> bind c k s = bind c k' s.
Proof. intros H. unfold bind. destruct (c s); auto. Qed.

Lemma push_back_steps (v : T) s :
  push_back v s = (room_at_back ;; construct_back v) s.
Proof.
  unfold push_back, room_at_back, construct_back, ensure_block. exec.
  destruct (_finish_offset (self s) =? BLOCK_SIZE); [|reflexivity].
  exec. apply bind_ext. intros [] s1. exec.
  apply bind_ext. intros p s2. rewrite !bind_bind. reflexivity.
Qed.

Lemma push_front_steps (v : T) s :
  push_front v s = (room_at_front ;; construct_front v) s.
Proof.
  unfold push_front, room_at_front, construct_front, ensure_block. exec.
  destruct (_start_offset (self s) =? 0); [|reflexivity].
  exec. apply bind_ext. intros [] s1. exec.
  apply bind_ext. intros p s2. rewrite !bind_bind. reflexivity.
Qed.

End Steps.

(** [lia] up to the name of the pointer type. *)
Ltac plia := unfold ptr in *; lia.

Section EndOperations.

Context {T : Type}.
Implicit Types (s : state T) (l : list T) (d : Deque) (h : heap T)
  (slots : list ptr) (p b m : loc).

Lemma bind_new {B} (o : object T) (k : ptr -> M T B) s :
  bind (new_ o) k s
  = k (Some (next (mem s)))
      (State (Heap (<[next (mem s) := o]> (objs (mem s))) (Pos.succ (next (mem s))))
             (self s)).
Proof. reflexivity. Qed.

Lemma lookup_snoc_Some l (v x : T) (i : nat) :
  (l ++ [v]) !! i = Some x ->
  (i < length l)%nat /\ l !! i = Some x \/ i = length l /\ x = v.
Proof.
  intros H. destruct (Nat.lt_ge_cases i (length l)) as [Hlt|Hge].
  - left. rewrite lookup_app_l in H by exact Hlt. auto.
  - right. rewrite lookup_app_r in H by exact Hge.
    destruct (i - length l)%nat as [|n] eqn:E; cbn in H.
    + injection H as <-. split; [lia | reflexivity].
    + destruct n; discriminate.
Qed.

(** *** Constructing at the finish cursor *)

Lemma construct_back_stored (v : T) l s :
  stored l s -> _finish_offset (self s) < BLOCK_SIZE ->
  _map_size (self s) <= 2 ^ 56 ->
  exists s',
    construct_back v s = Ok tt s' /\ stored (l ++ [v]) s' /\
    _start_offset (self s') = _start_offset (self s) /\
    _map_size (self s') = _map_size (self s).
Proof.
  intros Hst Hfo64 Hms.
  pose proof Hst as (Hheap & Hcur & Hlen & m & slots & Hmap & Hm & Hslots & Hwf
                     & Hnull & Hlive & Hel).
  pose proof Hcur as (Hsb & Hle & Hfb & Hso & Hfo & Hsz & Heq).
  unfold size_equation, BLOCK_SIZE in *.
  destruct (Hlive (_finish_block (self s)) ltac:(lia)) as (b & Hs).
  destruct (proj1 Hwf _ _ Hs) as (cells & Hb & Hcells).
  unfold construct_back, construct_at. exec. rewrite Hmap.
  rewrite (bind_ok _ _ _ _ _
             (map_elem_ok s m slots (_finish_block (self s)) b
                (_finish_offset (self s)) Hm ltac:(lia) Hs)).
  rewrite (bind_ok _ _ _ _ _
             (cell_update_ok s b cells (_finish_offset (self s)) (Some v) Hb
                ltac:(lia) ltac:(rewrite Hcells; unfold BLOCK_SIZE; lia))).
  exec.
  rewrite (wrap_small (_finish_offset (self s) + 1)) by lia.
  rewrite (wrap_small (_size (self s) + 1)) by lia.
  eexists. split; [reflexivity|]. split; [|split; reflexivity].
  apply (stored_write l (l ++ [v]) s (_finish_block (self s))
           (_finish_offset (self s)) (Some v) b cells);
    try exact Hst; fields; try reflexivity; try lia.
  - unfold cursors_loose, size_equation, BLOCK_SIZE. fields. lia.
  - rewrite length_app. cbn. lia.
  - unfold BLOCK_SIZE. lia.
  - intros m0 slots0 E1 E2. rewrite Hmap in E1. injection E1 as <-.
    rewrite Hm in E2. injection E2 as <-. exact Hs.
  - exact Hb.
  - intros i x Hi.
    unfold slot_block, slot_offset. fields.
    fold (slot_block (self s) (Z.of_nat i)) (slot_offset (self s) (Z.of_nat i)).
    destruct (slot_spec (self s) (Z.of_nat i)) as [Hsp Hr].
    unfold BLOCK_SIZE in *.
    destruct (lookup_snoc_Some _ _ _ _ Hi) as [[Hlt Hli]|[-> ->]].
    + rewrite decide_False by lia. exists i. auto.
    + rewrite decide_True; [reflexivity|].
      apply slot_unique; unfold BLOCK_SIZE; lia.
Qed.

(** *** Giving a slot its block *)

Lemma ensure_block_stored l s k :
  stored l s -> 0 <= k < _map_size (self s) ->
  exists s1,
    ensure_block k s = Ok tt s1 /\ self s1 = self s /\
    forall d',
      _map d' = _map (self s) -> _map_size d' = _map_size (self s) ->
      _size d' = _size (self s) -> cursors_loose d' ->
      _start_block d' <= _start_block (self s) -> _start_block d' <= k ->
      (forall j, _start_block d' <= j <= _finish_block d' ->
         _start_block (self s) <= j <= _finish_block (self s) \/ j = k) ->
      (forall i, 0 <= i < _size (self s) ->
         slot_block d' i = slot_block (self s) i /\
         slot_offset d' i = slot_offset (self s) i) ->
      stored l (State (mem s1) d').
Proof.
  intros Hst Hk.
  pose proof Hst as (Hheap & Hcur & Hlen & m & slots & Hmap & Hm & Hslots & Hwf
                     & Hnull & Hlive & Hel).
  pose proof Hcur as (Hsb & Hle & Hfb & Hso & Hfo & Hsz & Heq).
  destruct (lookup_lt_is_Some_2 slots (Z.to_nat k) ltac:(lia)) as [p0 Hp0].
  unfold ensure_block. exec. rewrite Hmap.
  rewrite (bind_ok _ _ _ _ _ (map_load_ok s m slots k p0 Hm ltac:(lia) Hp0)).
  destruct p0 as [b0|].
  - exists s. split; [reflexivity|]. split; [reflexivity|].
    intros d' Hmap' Hms' Hsz' Hcur' Hsb' Hk' Hrange Hpos.
    split; [exact Hheap|]. split; [exact Hcur'|]. fields.
    split; [lia|]. exists m, slots. rewrite Hms'.
    split; [congruence|]. split; [exact Hm|]. split; [exact Hslots|].
    split; [exact Hwf|].
    split; [intros j Hj; apply Hnull; lia|]. split.
    + intros j Hj. destruct (Hrange j Hj) as [Hold| ->]; [apply Hlive; exact Hold|].
      exists b0. exact Hp0.
    + intros i x Hi. pose proof (lookup_lt_Some _ _ _ Hi) as Hlt.
      destruct (Hpos (Z.of_nat i) ltac:(lia)) as [-> ->]. apply Hel. exact Hi.
  - unfold allocate_block. exec. rewrite Hmap, bind_new.
    pose proof (Hheap (next (mem s)) ltac:(lia)) as Hfresh.
    assert (next (mem s) <> m) as Hnm by (intros E; rewrite E, Hm in Hfresh; discriminate).
    assert (m <> next (mem s)) as Hmn by congruence.
    erewrite (map_store_ok _ m slots k);
      [| fields; rewrite lookup_insert_ne by first [exact Hnm | exact Hmn]; exact Hm | lia | lia].
    fields. eexists. split; [reflexivity|]. split; [reflexivity|].
    intros d' Hmap' Hms' Hsz' Hcur' Hsb' Hk' Hrange Hpos.
    set (nx := next (mem s)) in *.
    set (blk := BlockArr (replicate (Z.to_nat BLOCK_SIZE) None)).
    set (slots' := <[Z.to_nat k := Some nx]> slots).
    assert (forall (j : nat) b, slots !! j = Some (Some b) ->
              (<[m := MapArr slots']> (<[nx := blk]> (objs (mem s)))) !! b
              = objs (mem s) !! b) as Hsame.
    { intros j b Hj.
      pose proof (block_not_map _ _ _ _ _ Hwf Hm Hj) as Hbm.
      destruct (proj1 Hwf _ _ Hj) as (cells & Hb & _).
      rewrite lookup_insert_ne by (intros E; apply Hbm; symmetry; exact E).
      rewrite lookup_insert_ne; [reflexivity|].
      intros E. rewrite <- E, Hfresh in Hb. discriminate. }
    split; [|split; [exact Hcur'|]]; fields.
    { pose proof (heap_wf_new _ blk Hheap) as Hh1.
      refine (heap_wf_update _ m (MapArr slots) (MapArr slots') Hh1 _).
      cbn [objs]. rewrite lookup_insert_ne by first [exact Hnm | exact Hmn]. exact Hm. }
    split; [lia|]. exists m, slots'. rewrite Hms'.
    split; [congruence|]. split; [apply lookup_insert_eq|].
    split; [subst slots'; rewrite length_insert; exact Hslots|]. split.
    { subst slots'. eapply blocks_wf_slot_new with (cells := replicate (Z.to_nat BLOCK_SIZE) None).
      - eapply blocks_wf_ext; [|exact Hwf]. intros j b Hj. cbn [objs].
        eapply Hsame. exact Hj.
      - cbn [objs]. rewrite lookup_insert_ne by first [exact Hnm | exact Hmn]. apply lookup_insert_eq.
      - apply length_replicate.
      - intros j Hj. destruct (proj1 Hwf _ _ Hj) as (cells & Hb & _).
        rewrite Hfresh in Hb. discriminate. }
    split.
    { intros j Hj. subst slots'. rewrite list_lookup_insert_ne by lia.
      apply Hnull. lia. }
    split.
    { intros j Hj. subst slots'. pose proof (proj1 Hcur') as Hsb0.
      destruct (Z.eq_dec j k) as [->|Hne].
      - exists nx. apply list_lookup_insert_eq. plia.
      - rewrite list_lookup_insert_ne by lia.
        destruct (Hrange j Hj) as [Hold|E]; [apply Hlive; exact Hold | contradiction]. }
    intros i x Hi. pose proof (lookup_lt_Some _ _ _ Hi) as Hlt.
    destruct (Hpos (Z.of_nat i) ltac:(lia)) as [-> ->].
    rewrite <- (Hel i x Hi).
    destruct (stored_cell l s i x Hst Hi)
      as (m1 & slots1 & b1 & cells1 & Hmap1 & Hm1 & Hk1 & Hs1 & Hb1 & Hc1).
    rewrite Hmap in Hmap1. injection Hmap1 as <-.
    rewrite Hm in Hm1. injection Hm1 as <-.
    apply cell_transport.
    + subst slots'. apply list_lookup_insert_ne.
      intros E. rewrite <- E in Hs1. unfold ptr in *. rewrite Hp0 in Hs1.
      discriminate.
    + intros b Hb. cbn [objs]. eapply Hsame. exact Hb.
Qed.

End EndOperations.

Section MapGrowth.

Context {T : Type}.
Implicit Types (s : state T) (l : list T) (d : Deque) (h : heap T)
  (slots : list ptr) (p b m : loc).

(** The quantities [reallocate_map] computes, without wrap-around. *)
Lemma grown_layout (add_to_front : bool) d :
  cursors_wf d -> _map_size d <= 2 ^ 55 ->
  let c := _finish_block d - _start_block d + 1 in
  let nms := Z.max 8 (_map_size d * 2) in
  let ns := if add_to_front then nms / 4 else nms / 2 - c / 2 in
  wrap (wrap (_finish_block d - _start_block d) + 1) = c /\
  Z.max 8 (wrap (_map_size d * 2)) = nms /\
  (if add_to_front then nms / 4 else wrap (nms / 2 - c / 2)) = ns /\
  wrap (wrap (ns + c) - 1) = ns + c - 1 /\
  0 <= c <= _map_size d /\ 8 <= nms <= 2 ^ 56 /\
  1 <= ns /\ (add_to_front = true -> 2 <= ns) /\ ns + c < nms.
Proof.
  unfold cursors_wf, size_equation, BLOCK_SIZE.
  intros (Hsb & Hle & Hfb & Hso & Hfo & Hsz & Heq) Hms. cbv zeta.
  rewrite wrap_succ_wrap by lia.
  rewrite (wrap_small (_map_size d * 2)) by lia.
  pose proof (Z.max_spec 8 (_map_size d * 2)) as Hmax.
  set (nms := Z.max 8 (_map_size d * 2)) in *.
  set (c := _finish_block d - _start_block d + 1) in *.
  assert (0 <= c <= _map_size d) as Hc by (subst c; lia).
  pose proof (Z.div_mod nms 2 ltac:(lia)) as D2.
  pose proof (Z.mod_pos_bound nms 2 ltac:(lia)) as M2.
  pose proof (Z.div_mod nms 4 ltac:(lia)) as D4.
  pose proof (Z.mod_pos_bound nms 4 ltac:(lia)) as M4.
  pose proof (Z.div_mod c 2 ltac:(lia)) as Dc.
  pose proof (Z.mod_pos_bound c 2 ltac:(lia)) as Mc.
  destruct add_to_front.
  - rewrite (wrap_small (nms / 4 + c)) by lia.
    rewrite (wrap_small (nms / 4 + c - 1)) by lia.
    repeat split; try lia.
  - rewrite (wrap_small (nms / 2 - c / 2)) by lia.
    rewrite (wrap_small (nms / 2 - c / 2 + c)) by lia.
    rewrite (wrap_small (nms / 2 - c / 2 + c - 1)) by lia.
    repeat split; try lia; discriminate.
Qed.

(** The loop of [reallocate_map] that carries the block pointers over. *)
Lemma copy_loop m m' (slots : list ptr) (sb ns : Z) :
  m <> m' -> 0 <= sb -> 0 <= ns ->
  forall (k : nat) (i : Z) (cur : list ptr) s,
    0 <= i ->
    sb + i + Z.of_nat k <= Z.of_nat (length slots) ->
    ns + i + Z.of_nat k <= Z.of_nat (length cur) ->
    sb + i + Z.of_nat k < 2 ^ 64 -> ns + i + Z.of_nat k < 2 ^ 64 ->
    objs (mem s) !! m = Some (MapArr slots) ->
    objs (mem s) !! m' = Some (MapArr cur) ->
    exists cur' : list ptr,
      for_from k i
        (fun i => p <- map_load (Some m) (wrap (sb + i)) ;;
                  map_store (Some m') (wrap (ns + i)) p) s
      = Ok tt (State (Heap (<[m' := MapArr cur']> (objs (mem s))) (next (mem s)))
                     (self s)) /\
      length cur' = length cur /\
      forall j : Z, 0 <= j ->
        cur' !! Z.to_nat j =
        if decide (ns + i <= j < ns + i + Z.of_nat k)
        then slots !! Z.to_nat (sb + (j - ns)) else cur !! Z.to_nat j.
Proof.
  intros Hne Hsb Hns. induction k as [|k IH]; intros i cur s Hi Hl1 Hl2 Hb1 Hb2 Hm Hm'.
  - exists cur. split; [|split; [reflexivity|]].
    + cbn [for_from]. unfold ret. rewrite insert_id by exact Hm'.
      destruct s as [[o n] d]. reflexivity.
    + intros j Hj. rewrite decide_False by lia. reflexivity.
  - cbn [for_from].
    destruct (lookup_lt_is_Some_2 slots (Z.to_nat (sb + i)) ltac:(plia)) as [p Hp].
    rewrite (wrap_small (sb + i)), (wrap_small (ns + i)), (wrap_small (i + 1)) by lia.
    rewrite bind_bind.
    rewrite (bind_ok _ _ _ _ _ (map_load_ok s m slots (sb + i) p Hm ltac:(lia) Hp)).
    rewrite (bind_ok _ _ _ _ _
               (map_store_ok s m' cur (ns + i) p Hm' ltac:(lia) ltac:(plia))).
    set (cur1 := <[Z.to_nat (ns + i) := p]> cur).
    destruct (IH (i + 1) cur1
                (State (Heap (<[m' := MapArr cur1]> (objs (mem s))) (next (mem s)))
                       (self s)))
      as (cur' & Hrun & Hlen & Hpt); fields.
    + lia.
    + lia.
    + subst cur1. rewrite length_insert. lia.
    + lia.
    + lia.
    + rewrite lookup_insert_ne by congruence. exact Hm.
    + apply lookup_insert_eq.
    + exists cur'. split; [|split].
      * rewrite Hrun. fields. rewrite insert_insert_eq. reflexivity.
      * rewrite Hlen. subst cur1. apply length_insert.
      * intros j Hj. rewrite (Hpt j Hj).
        destruct (decide (ns + (i + 1) <= j < ns + (i + 1) + Z.of_nat k)) as [Hin|Hout].
        { rewrite decide_True by lia. reflexivity. }
        subst cur1. destruct (Z.eq_dec j (ns + i)) as [->|Hji].
        { rewrite decide_True by lia.
          rewrite list_lookup_insert_eq by plia.
          replace (sb + (ns + i - ns)) with (sb + i) by lia. symmetry. exact Hp. }
        rewrite decide_False by lia.
        apply list_lookup_insert_ne. lia.
Qed.

Lemma reallocate_map_holds (add_to_front : bool) l s :
  holds l s -> _map_size (self s) <= 2 ^ 55 ->
  exists s1,
    reallocate_map add_to_front s = Ok tt s1 /\ holds l s1 /\
    self s1 = grown add_to_front (Some (next (mem s))) (self s) /\
    keeps_refs s s1.
Proof.
  intros Hh Hms. pose proof (holds_cursors_wf _ _ Hh) as Hcw.
  destruct Hh as [Hst Hso64].
  pose proof Hst as (Hheap & Hcur & Hlen & m & slots & Hmap & Hm & Hslots & Hwf
                     & Hnull & Hlive & Hel).
  pose proof Hcur as (Hsb & Hle & Hfb & Hso & Hfo & Hsz & Heq).
  pose proof (grown_layout add_to_front (self s) Hcw Hms) as Hg. cbv zeta in Hg.
  destruct Hg as (Ec & Enms & Ens & Efb & Hc & Hnms & Hns1 & Hns2 & Hroom).
  pose proof (Hheap (next (mem s)) ltac:(lia)) as Hfresh.
  assert (next (mem s) <> m) as Hnm by (intros E; rewrite E, Hm in Hfresh; discriminate).
  assert (m <> next (mem s)) as Hmn by congruence.
  assert (self (State (mem s)
            (grown add_to_front (Some (next (mem s))) (self s)))
          = grown add_to_front (Some (next (mem s))) (self s)) as Hgrown by reflexivity.
  revert Hgrown. unfold grown, reallocate_map. cbv zeta. exec.
  rewrite Hmap, bind_new. rewrite Ec, Enms, Ens, Efb.
  set (c := _finish_block (self s) - _start_block (self s) + 1) in *.
  set (nms := Z.max 8 (_map_size (self s) * 2)) in *.
  set (ns := if add_to_front then nms / 4 else nms / 2 - c / 2) in *.
  set (nx := next (mem s)) in *.
  intros Hgrown.
  set (cur0 := replicate (Z.to_nat nms) nullptr).
  destruct (copy_loop m nx slots (_start_block (self s)) ns Hmn Hsb ltac:(lia)
              (Z.to_nat c) 0 cur0
              (State (Heap (<[nx := MapArr cur0]> (objs (mem s))) (Pos.succ nx))
                     (self s)))
    as (cur' & Hrun & Hlen' & Hpt); fields.
  { lia. }
  { subst c. plia. }
  { subst cur0. rewrite length_replicate. lia. }
  { lia. }
  { lia. }
  { rewrite lookup_insert_ne by exact Hnm. exact Hm. }
  { apply lookup_insert_eq. }
  unfold for_upto. rewrite (bind_ok _ _ _ _ _ Hrun). fields.
  assert (objs (mem (State (Heap (<[nx := MapArr cur']>
                                    (<[nx := MapArr cur0]> (objs (mem s))))
                                 (Pos.succ nx)) (self s))) !! m
          = Some (MapArr slots)) as Hm2.
  { fields. rewrite !lookup_insert_ne by exact Hnm. exact Hm. }
  rewrite (bind_ok _ _ _ _ _ (delete_ok _ m (MapArr slots) Hm2)). exec.
  eexists. split; [reflexivity|].
  assert (forall j : Z, 0 <= j ->
            cur' !! Z.to_nat j =
            if decide (ns <= j < ns + c)
            then slots !! Z.to_nat (_start_block (self s) + (j - ns))
            else cur0 !! Z.to_nat j) as Hpt'.
  { intros j Hj. rewrite (Hpt j Hj).
    destruct (decide (ns + 0 <= j < ns + 0 + Z.of_nat (Z.to_nat c)));
      [rewrite decide_True by lia | rewrite decide_False by lia]; reflexivity. }
  clear Hpt Hrun.
  assert (forall (j : nat) b, cur' !! j = Some (Some b) ->
            ns <= Z.of_nat j < ns + c /\
            slots !! Z.to_nat (_start_block (self s) + (Z.of_nat j - ns))
            = Some (Some b)) as Hback.
  { intros j b Hj. specialize (Hpt' (Z.of_nat j) ltac:(lia)).
    rewrite Nat2Z.id in Hpt'. unfold ptr in *. rewrite Hj in Hpt'.
    destruct (decide (ns <= Z.of_nat j < ns + c)) as [Hin|Hout].
    - split; [exact Hin | symmetry; exact Hpt'].
    - symmetry in Hpt'. subst cur0. apply lookup_replicate in Hpt' as [E _].
      discriminate. }
  assert (forall b (j : nat), slots !! j = Some (Some b) ->
            delete m (<[nx := MapArr cur']> (<[nx := MapArr cur0]> (objs (mem s)))) !! b
            = objs (mem s) !! b) as Hsame.
  { intros b j Hj.
    pose proof (block_not_map _ _ _ _ _ Hwf Hm Hj) as Hbm.
    destruct (proj1 Hwf _ _ Hj) as (cells & Hb & _).
    assert (nx <> b) as Hnb by (intros E; rewrite <- E, Hfresh in Hb; discriminate).
    rewrite lookup_delete_ne by congruence.
    rewrite !lookup_insert_ne by exact Hnb. reflexivity. }
  split; [|split; [exact Hgrown|]].
  { split; [|exact Hso64].
  split; [|split; [|split]]; fields.
  - pose proof (heap_wf_new _ (MapArr cur0) Hheap) as Hh1.
    assert (objs (Heap (<[nx := MapArr cur0]> (objs (mem s))) (Pos.succ nx)) !! nx
            = Some (MapArr cur0)) as Hl1 by apply lookup_insert_eq.
    pose proof (heap_wf_update _ nx (MapArr cur0) (MapArr cur') Hh1 Hl1) as Hh2.
    exact (heap_wf_delete _ m Hh2).
  - unfold cursors_loose, size_equation, BLOCK_SIZE in *. fields. subst c. lia.
  - exact Hlen.
  - exists nx, cur'. split; [reflexivity|].
    split; [rewrite lookup_delete_ne by exact Hmn; apply lookup_insert_eq|].
    split; [rewrite Hlen'; subst cur0; rewrite length_replicate; lia|].
    split; [split|].
    + intros j b Hj. destruct (Hback j b Hj) as [_ Hold].
      cbn [objs]. rewrite (Hsame _ _ Hold). exact (proj1 Hwf _ _ Hold).
    + intros j1 j2 b H1 H2.
      destruct (Hback j1 b H1) as [R1 O1]. destruct (Hback j2 b H2) as [R2 O2].
      pose proof (proj2 Hwf _ _ _ O1 O2). lia.
    + split; [|split].
      * intros j Hj. unfold ptr in *. rewrite (Hpt' j) by lia.
        rewrite decide_False by lia.
        subst cur0. apply lookup_replicate_2. lia.
      * intros j Hj. unfold ptr in *. rewrite (Hpt' j) by lia.
        rewrite decide_True by (subst c; lia).
        apply Hlive. subst c. lia.
      * intros i x Hi. pose proof (lookup_lt_Some _ _ _ Hi) as Hlt.
        rewrite <- (Hel i x Hi).
        destruct (slot_live (self s) (Z.of_nat i) Hcur ltac:(lia)) as (Hbk & Hof & _).
        unfold slot_block, slot_offset in *. fields.
        apply cell_transport.
        -- unfold ptr in *. rewrite (Hpt' _) by lia.
           rewrite decide_True by (subst c; lia).
           f_equal. f_equal. lia.
        -- intros b Hb. cbn [objs]. eapply Hsame. exact Hb. }
  intros i r Hi Hsub.
  destruct (slot_live (self s) i Hcur Hi) as (Hbk & Hof & _).
  destruct (Hlive _ Hbk) as (b & Hb).
  unfold size_equation, BLOCK_SIZE in *.
  rewrite subscript_slot in Hsub by (unfold BLOCK_SIZE; lia).
  rewrite Hmap in Hsub.
  rewrite (map_elem_ok s m slots (slot_block (self s) i) b (slot_offset (self s) i)
             Hm ltac:(lia) Hb) in Hsub.
  injection Hsub as <-.
  rewrite subscript_slot by (fields; unfold BLOCK_SIZE; lia).
  unfold slot_block, slot_offset in *. fields.
  apply (map_elem_ok _ nx cur').
  - fields. rewrite lookup_delete_ne by exact Hmn. apply lookup_insert_eq.
  - unfold BLOCK_SIZE in *. lia.
  - unfold ptr in *. rewrite (Hpt' _) by (unfold BLOCK_SIZE in *; lia).
    rewrite decide_True by (subst c; unfold BLOCK_SIZE in *; lia).
    rewrite <- Hb. f_equal. f_equal. unfold BLOCK_SIZE. lia.
Qed.

End MapGrowth.
(** *** References to elements *)

Section References.

Context {T : Type}.
Implicit Types (s : state T) (l : list T) (d : Deque) (h : heap T)
  (slots : list ptr) (p b m : loc).

Lemma map_elem_state (m : ptr) (b o : Z) s (r : ref) s1 :
  map_elem m b o s = Ok r s1 -> s1 = s.
Proof.
  unfold map_elem, bind, map_load, ret, undefined.
  repeat case_match; try discriminate; congruence.
Qed.

Lemma subscript_state (i : Z) s (r : ref) s1 :
  subscript i s = Ok r s1 -> s1 = s.
Proof.
  unfold subscript. cbv zeta. rewrite !bind_get. apply map_elem_state.
Qed.

Lemma load_ok_state (r : ref) s (v : T) s1 : load r s = Ok v s1 -> s1 = s.
Proof. unfold load. repeat case_match; try discriminate. congruence. Qed.

Lemma cell_update_keeps_map (r : ref) (c : option T) s s' (m : loc) slots :
  cell_update r c s = Ok tt s' ->
  objs (mem s) !! m = Some (MapArr slots) ->
  objs (mem s') !! m = Some (MapArr slots).
Proof.
  unfold cell_update. destruct (objs (mem s) !! r.1) as [[|cells]|] eqn:E;
    try discriminate.
  destruct ((0 <=? r.2) && (r.2 <? Z.of_nat (length cells))); [|discriminate].
  intros [= <-] Hm. cbn [mem objs].
  rewrite lookup_insert_ne; [exact Hm|]. intros Heq. rewrite Heq, Hm in E. discriminate.
Qed.

(** The shifting loop assigns to cells only: the object and its map array
    stay as they are. *)
Lemma shift_right_keeps_map (fuel : nat) :
  forall (i index : Z) s s' (m : loc) slots,
    shift_right fuel i index s = Ok tt s' ->
    objs (mem s) !! m = Some (MapArr slots) ->
    self s' = self s /\ objs (mem s') !! m = Some (MapArr slots).
Proof.
  induction fuel as [|fuel IH]; intros i index s s' m slots H Hm.
  - revert H. cbn [shift_right]. intros [= <-]. auto.
  - cbn [shift_right] in H. destruct (i >? index).
    + apply bind_ok_inv in H as (dst & s1 & H1 & H).
      apply subscript_state in H1. subst s1.
      apply bind_ok_inv in H as (src & s2 & H2 & H).
      apply subscript_state in H2. subst s2.
      apply bind_ok_inv in H as (v & s3 & H3 & H).
      apply load_ok_state in H3. subst s3.
      apply bind_ok_inv in H as ([] & s4 & H4 & H).
      unfold store in H4.
      pose proof (keeps_self_cell_update _ _ _ _ _ H4) as Hself4.
      pose proof (cell_update_keeps_map _ _ _ _ _ _ H4 Hm) as Hm4.
      destruct (IH _ _ _ _ _ _ H Hm4) as [Hself Hm']. split; congruence.
    + revert H. intros [= <-]. auto.
Qed.

(** [operator[]] depends on the map pointer, the start cursor and the
    non-null slots of the map array only. *)
Lemma subscript_transfer (i : Z) (r : ref) s s1 :
  subscript i s = Ok r s ->
  _map (self s1) = _map (self s) ->
  _start_block (self s1) = _start_block (self s) ->
  _start_offset (self s1) = _start_offset (self s) ->
  (forall m slots (k : nat) b,
     _map (self s) = Some m -> objs (mem s) !! m = Some (MapArr slots) ->
     slots !! k = Some (Some b) ->
     exists slots1 : list ptr,
       objs (mem s1) !! m = Some (MapArr slots1) /\ slots1 !! k = Some (Some b)) ->
  subscript i s1 = Ok r s1.
Proof.
  unfold subscript. cbv zeta. rewrite !bind_get. intros Hsub Hmap Hsb Hso Hslots.
  rewrite Hmap, Hsb, Hso. revert Hsub.
  generalize (wrap (_start_block (self s)
                    + wrap (_start_offset (self s) + i) / BLOCK_SIZE)) as k.
  generalize (wrap (_start_offset (self s) + i) mod BLOCK_SIZE) as o.
  intros o k. unfold map_elem, bind, map_load, ret, undefined.
  destruct (_map (self s)) as [m|] eqn:Hm; [|discriminate].
  destruct (objs (mem s) !! m) as [[slots|cells]|] eqn:Ho; try discriminate.
  destruct (slots !! Z.to_nat k) as [[b|]|] eqn:Hk; try discriminate;
    destruct (0 <=? k); try discriminate.
  intros [= <-].
  destruct (Hslots m slots _ b eq_refl Ho Hk) as (slots1 & Hm1 & Hk1).
  unfold ptr in *. rewrite Hm1, Hk1. reflexivity.
Qed.

Lemma keeps_refs_trans s s1 s2 :
  keeps_refs s s1 -> keeps_refs s1 s2 -> _size (self s) <= _size (self s1) ->
  keeps_refs s s2.
Proof.
  intros H1 H2 Hsz i r Hi Hsub. apply H2; [lia|]. apply H1; assumption.
Qed.

(** Giving a slot its block leaves the non-null slots as they are. *)
Lemma ensure_block_slots (k : Z) s s1 :
  ensure_block k s = Ok tt s1 ->
  forall m slots (j : nat) b,
    _map (self s) = Some m -> objs (mem s) !! m = Some (MapArr slots) ->
    slots !! j = Some (Some b) ->
    exists slots1 : list ptr,
      objs (mem s1) !! m = Some (MapArr slots1) /\ slots1 !! j = Some (Some b).
Proof.
  intros H m slots j b Hmap Hm Hj. revert H.
  unfold ensure_block. rewrite bind_get, Hmap.
  unfold bind at 1. unfold map_load. rewrite Hm.
  destruct (slots !! Z.to_nat k) as [p0|] eqn:Hk; [|discriminate].
  destruct (0 <=? k); [|discriminate].
  destruct p0 as [b0|].
  - intros [= <-]. exists slots. auto.
  - unfold allocate_block. rewrite bind_get, Hmap, bind_new. unfold map_store.
    cbn [mem objs next self].
    destruct (decide (m = next (mem s))) as [E|E].
    + rewrite E, lookup_insert_eq. discriminate.
    + rewrite lookup_insert_ne by congruence. rewrite Hm.
      destruct ((0 <=? k) && (k <? Z.of_nat (length slots))); [|discriminate].
      intros [= <-]. cbn [mem objs]. eexists. split; [apply lookup_insert_eq|].
      rewrite list_lookup_insert_ne; [exact Hj|].
      intros <-. unfold ptr in *. rewrite Hk in Hj. discriminate.
Qed.

(** Constructing at the finish cursor writes one cell and moves the finish
    cursor only. *)
Lemma construct_back_keeps (v : T) s s1 :
  construct_back v s = Ok tt s1 ->
  _map (self s1) = _map (self s) /\
  _start_block (self s1) = _start_block (self s) /\
  _start_offset (self s1) = _start_offset (self s) /\
  forall m slots, objs (mem s) !! m = Some (MapArr slots) ->
                  objs (mem s1) !! m = Some (MapArr slots).
Proof.
  unfold construct_back. rewrite !bind_get. intros H.
  apply bind_ok_inv in H as (r & s0 & Helem & H).
  apply map_elem_state in Helem. subst s0.
  apply bind_ok_inv in H as ([] & s2 & Hcell & H).
  assert (self s2 = self s) as Hself.
  { revert Hcell. unfold construct_at, cell_update.
    repeat case_match; try discriminate. intros [= <-]. reflexivity. }
  revert H. exec. intros [= <-]. fields. rewrite Hself.
  repeat split.
  intros m slots Hm. exact (cell_update_keeps_map _ _ _ _ _ _ Hcell Hm).
Qed.

End References.

Section PushBack.

Context {T : Type}.
Implicit Types (s : state T) (l : list T) (d : Deque) (h : heap T)
  (slots : list ptr) (p b m : loc).

Lemma stored_map_size l s :
  stored l s -> 0 < _map_size (self s) /\ _size (self s) <= _map_size (self s) * BLOCK_SIZE.
Proof.
  intros (_ & (Hsb & Hle & Hfb & Hso & Hfo & Hsz & Heq) & _).
  unfold size_equation, BLOCK_SIZE in *. nia.
Qed.

(** The map has, or gets, a free slot after the finish block. *)
Lemma back_slot_holds l s :
  holds l s -> _map_size (self s) <= 2 ^ 55 ->
  exists s0,
    (if wrap (_finish_block (self s) + 1) >=? _map_size (self s)
     then reallocate_map false else ret tt) s = Ok tt s0 /\
    holds l s0 /\ keeps_refs s s0 /\
    _finish_block (self s0) + 1 < _map_size (self s0) /\
    _map_size (self s0) <= 2 ^ 56 /\
    _finish_offset (self s0) = _finish_offset (self s).
Proof.
  intros Hh Hms. pose proof (holds_cursors_wf _ _ Hh) as Hcw.
  pose proof Hcw as (Hsb & Hle & Hfb & Hso & Hfo & Hsz & Heq).
  rewrite (wrap_small (_finish_block (self s) + 1)) by lia.
  destruct (Z.geb_spec (_finish_block (self s) + 1) (_map_size (self s))) as [G|G].
  - destruct (reallocate_map_holds false l s Hh Hms) as (s0 & Hr & Hh0 & Hself & Hrefs).
    pose proof (grown_layout false (self s) Hcw Hms) as Hg. cbv zeta in Hg.
    destruct Hg as (Ec & Enms & Ens & Efb & Hc & Hnms & Hns1 & Hns2 & Hroom).
    unfold grown in Hself. cbv zeta in Hself.
    rewrite Ec, Enms, Ens, Efb in Hself.
    exists s0. split; [exact Hr|]. split; [exact Hh0|]. split; [exact Hrefs|].
    rewrite Hself. fields. lia.
  - exists s. split; [reflexivity|]. split; [exact Hh|].
    split; [intros i r _ H; exact H|]. lia.
Qed.

Lemma room_at_back_holds l s :
  holds l s -> _map_size (self s) <= 2 ^ 55 ->
  exists s1,
    room_at_back s = Ok tt s1 /\ holds l s1 /\ keeps_refs s s1 /\
    _finish_offset (self s1) < BLOCK_SIZE /\ _map_size (self s1) <= 2 ^ 56.
Proof.
  intros Hh Hms. pose proof (holds_cursors_wf _ _ Hh) as Hcw.
  pose proof Hcw as (Hsb & Hle & Hfb & Hso & Hfo & Hsz & Heq).
  unfold room_at_back. rewrite bind_get.
  destruct (Z.eqb_spec (_finish_offset (self s)) BLOCK_SIZE) as [E|E].
  - rewrite !bind_get.
    destruct (back_slot_holds l s Hh Hms) as (s0 & Hif & Hh0 & Hrefs0 & Hroom & Hms0 & Hfo0).
    rewrite (bind_ok _ _ _ _ _ Hif). rewrite bind_get.
    pose proof (holds_cursors_wf _ _ Hh0) as (Hsb0 & Hle0 & Hfb0 & Hso0 & _ & Hsz0 & Heq0).
    rewrite (wrap_small (_finish_block (self s0) + 1)) by lia.
    destruct Hh0 as [Hst0 Hso64].
    destruct (ensure_block_stored l s0 (_finish_block (self s0) + 1) Hst0 ltac:(lia))
      as (s1 & He & Hself1 & Hd').
    rewrite (bind_ok _ _ _ _ _ He). exec. rewrite Hself1.
    eexists. split; [reflexivity|]. fields.
    split; [|split; [|split; [unfold BLOCK_SIZE; lia | exact Hms0]]].
    { split; [|exact Hso64].
      apply Hd'; fields; try reflexivity; try lia.
      + unfold cursors_loose, size_equation, BLOCK_SIZE in *. fields. lia.
      + intros i Hi. split; reflexivity. }
    intros i r Hi Hsub.
    apply (subscript_transfer i r s0); fields; try reflexivity.
    + exact (Hrefs0 i r Hi Hsub).
    + exact (ensure_block_slots _ s0 s1 He).
  - exists s. split; [reflexivity|]. split; [exact Hh|].
    split; [intros i r _ H; exact H|]. lia.
Qed.

Lemma push_back_holds_bound (v : T) l s :
  holds l s -> _map_size (self s) <= 2 ^ 55 ->
  exists s',
    push_back v s = Ok tt s' /\ holds (l ++ [v]) s' /\
    _map_size (self s') <= 2 ^ 56 /\ keeps_refs s s'.
Proof.
  intros Hh Hms. rewrite push_back_steps.
  destruct (room_at_back_holds l s Hh Hms)
    as (s1 & Hroom & [Hst1 Hso1] & Hrefs1 & Hfo1 & Hms1).
  rewrite (bind_ok _ _ _ _ _ Hroom).
  destruct (construct_back_stored v l s1 Hst1 Hfo1 Hms1) as (s' & Hc & Hst' & Hso' & Hms').
  exists s'. split; [exact Hc|].
  split; [|split; [rewrite Hms'; exact Hms1|]].
  { split; [exact Hst'|]. rewrite Hso'. exact Hso1. }
  destruct (construct_back_keeps v s1 s' Hc) as (Hmap' & Hsb' & Hso'' & Hkeep).
  intros i r Hi Hsub.
  apply (subscript_transfer i r s1); try assumption.
  - exact (Hrefs1 i r Hi Hsub).
  - intros m slots k b _ Hm Hk. exists slots. split; [exact (Hkeep m slots Hm) | exact Hk].
Qed.

Lemma push_back_holds (v : T) l s :
  holds l s -> _map_size (self s) <= 2 ^ 55 ->
  exists s', push_back v s = Ok tt s' /\ holds (l ++ [v]) s'.
Proof.
  intros Hh Hms.
  destruct (push_back_holds_bound v l s Hh Hms) as (s' & Hrun & Hh' & _). eauto.
Qed.

End PushBack.

Section PushFront.

Context {T : Type}.
Implicit Types (s : state T) (l : list T) (d : Deque) (h : heap T)
  (slots : list ptr) (p b m : loc).

Lemma front_slot_holds l s :
  holds l s -> _map_size (self s) <= 2 ^ 55 ->
  exists s0,
    (if _start_block (self s) =? 0 then reallocate_map true else ret tt) s = Ok tt s0 /\
    holds l s0 /\ 1 <= _start_block (self s0) /\
    _map_size (self s0) <= 2 ^ 56 /\
    _start_offset (self s0) = _start_offset (self s).
Proof.
  intros Hh Hms. pose proof (holds_cursors_wf _ _ Hh) as Hcw.
  pose proof Hcw as (Hsb & Hle & Hfb & Hso & Hfo & Hsz & Heq).
  destruct (Z.eqb_spec (_start_block (self s)) 0) as [G|G].
  - destruct (reallocate_map_holds true l s Hh Hms) as (s0 & Hr & Hh0 & Hself & _).
    pose proof (grown_layout true (self s) Hcw Hms) as Hg. cbv beta iota zeta in Hg.
    destruct Hg as (Ec & Enms & _ & Efb & Hc & Hnms & Hns1 & Hns2 & Hroom).
    unfold grown in Hself. cbv beta iota zeta in Hself.
    rewrite Ec, Enms, Efb in Hself.
    exists s0. split; [exact Hr|]. split; [exact Hh0|].
    rewrite Hself. fields. lia.
  - exists s. split; [reflexivity|]. split; [exact Hh|]. lia.
Qed.

Lemma room_at_front_stored l s :
  holds l s -> _map_size (self s) <= 2 ^ 55 ->
  exists s1,
    room_at_front s = Ok tt s1 /\ stored l s1 /\
    1 <= _start_offset (self s1) /\ _map_size (self s1) <= 2 ^ 56.
Proof.
  intros Hh Hms. pose proof (holds_cursors_wf _ _ Hh) as Hcw.
  pose proof Hcw as (Hsb & Hle & Hfb & Hso & Hfo & Hsz & Heq).
  unfold room_at_front. rewrite bind_get.
  destruct (Z.eqb_spec (_start_offset (self s)) 0) as [E|E].
  - rewrite !bind_get.
    destruct (front_slot_holds l s Hh Hms) as (s0 & Hif & Hh0 & Hroom & Hms0 & Hso0).
    rewrite (bind_ok _ _ _ _ _ Hif). rewrite bind_get.
    pose proof (holds_cursors_wf _ _ Hh0) as (Hsb0 & Hle0 & Hfb0 & Hso0' & Hfo0 & Hsz0 & Heq0).
    rewrite (wrap_small (_start_block (self s0) - 1)) by lia.
    destruct Hh0 as [Hst0 Hso64].
    destruct (ensure_block_stored l s0 (_start_block (self s0) - 1) Hst0 ltac:(lia))
      as (s1 & He & Hself1 & Hd').
    rewrite (bind_ok _ _ _ _ _ He). exec. rewrite Hself1.
    eexists. split; [reflexivity|]. fields.
    split; [|split; [unfold BLOCK_SIZE; lia | exact Hms0]].
    apply Hd'; fields; try reflexivity; try lia.
    + unfold cursors_loose, size_equation, BLOCK_SIZE in *. fields. lia.
    + intros i Hi. unfold slot_block, slot_offset, BLOCK_SIZE. fields.
      rewrite Hso0, E.
      replace (64 + i) with (i + 1 * 64) by lia.
      rewrite Z.div_add, Z.mod_add by lia. rewrite !Z.add_0_l. split; [lia | reflexivity].
  - exists s. destruct Hh as [Hst _]. split; [reflexivity|]. split; [exact Hst|]. lia.
Qed.

Lemma construct_front_holds (v : T) l s :
  stored l s -> 1 <= _start_offset (self s) -> _map_size (self s) <= 2 ^ 56 ->
  exists s', construct_front v s = Ok tt s' /\ holds (v :: l) s'.
Proof.
  intros Hst Hso1 Hms.
  pose proof Hst as (Hheap & Hcur & Hlen & m & slots & Hmap & Hm & Hslots & Hwf
                     & Hnull & Hlive & Hel).
  pose proof Hcur as (Hsb & Hle & Hfb & Hso & Hfo & Hsz & Heq).
  unfold size_equation, BLOCK_SIZE in *.
  destruct (Hlive (_start_block (self s)) ltac:(lia)) as (b & Hs).
  destruct (proj1 Hwf _ _ Hs) as (cells & Hb & Hcells).
  unfold construct_front, construct_at. exec. rewrite Hmap.
  rewrite (wrap_small (_start_offset (self s) - 1)) by lia.
  set (s1 := State (mem s) (with_start_offset (_start_offset (self s) - 1) (self s))).
  rewrite (bind_ok _ _ _ _ _
             (map_elem_ok s1 m slots (_start_block (self s)) b
                (_start_offset (self s) - 1) Hm ltac:(lia) Hs)).
  rewrite (bind_ok _ _ _ _ _
             (cell_update_ok s1 b cells (_start_offset (self s) - 1) (Some v) Hb
                ltac:(lia) ltac:(rewrite Hcells; unfold BLOCK_SIZE; lia))).
  subst s1. exec.
  rewrite (wrap_small (_size (self s) + 1)) by lia.
  eexists. split; [reflexivity|]. split; [|fields; unfold BLOCK_SIZE; lia].
  apply (stored_write l (v :: l) s (_start_block (self s))
           (_start_offset (self s) - 1) (Some v) b cells);
    try exact Hst; fields; try reflexivity; try lia.
  - unfold cursors_loose, size_equation, BLOCK_SIZE. fields. lia.
  - cbn [length]. lia.
  - unfold BLOCK_SIZE. lia.
  - intros m0 slots0 E1 E2. rewrite Hmap in E1. injection E1 as <-.
    rewrite Hm in E2. injection E2 as <-. exact Hs.
  - exact Hb.
  - intros i x Hi. unfold slot_block, slot_offset. fields. unfold BLOCK_SIZE.
    destruct i as [|i0].
    + injection Hi as <-. rewrite Z.add_0_r.
      rewrite Z.div_small, Z.mod_small by lia.
      rewrite decide_True by lia. reflexivity.
    + cbn [lookup list_lookup] in Hi.
      replace (_start_offset (self s) - 1 + Z.of_nat (S i0))
        with (_start_offset (self s) + Z.of_nat i0) by lia.
      pose proof (slot_spec (self s) (Z.of_nat i0)) as [Hsp Hr].
      unfold slot_block, slot_offset, BLOCK_SIZE in Hsp, Hr.
      rewrite decide_False by lia.
      exists i0. split; [exact Hi|]. split; reflexivity.
Qed.

Lemma push_front_holds (v : T) l s :
  holds l s -> _map_size (self s) <= 2 ^ 55 ->
  exists s', push_front v s = Ok tt s' /\ holds (v :: l) s'.
Proof.
  intros Hh Hms. rewrite push_front_steps.
  destruct (room_at_front_stored l s Hh Hms) as (s1 & Hroom & Hst1 & Hso1 & Hms1).
  rewrite (bind_ok _ _ _ _ _ Hroom).
  exact (construct_front_holds v l s1 Hst1 Hso1 Hms1).
Qed.

End PushFront.

Section Pops.

Context {T : Type}.
Implicit Types (s : state T) (l : list T) (d : Deque) (h : heap T)
  (slots : list ptr) (p b m : loc).

Lemma pop_back_holds (v : T) l s :
  holds (l ++ [v]) s -> _map_size (self s) <= 2 ^ 55 ->
  exists s', pop_back s = Ok tt s' /\ holds l s'.
Proof.
  intros [Hst Hso64] Hms.
  pose proof Hst as (Hheap & Hcur & Hlen & m & slots & Hmap & Hm & Hslots & Hwf
                     & Hnull & Hlive & Hel).
  pose proof Hcur as (Hsb & Hle & Hfb & Hso & Hfo & Hsz & Heq).
  rewrite length_app in Hlen. cbn [length] in Hlen.
  unfold size_equation, BLOCK_SIZE in *.
  set (fb' := if _finish_offset (self s) =? 0 then _finish_block (self s) - 1
              else _finish_block (self s)).
  set (fo' := if _finish_offset (self s) =? 0 then 63
              else _finish_offset (self s) - 1).
  assert (_start_block (self s) <= fb' <= _finish_block (self s) /\
          0 <= fo' < 64 /\
          fb' * 64 + fo' = _finish_block (self s) * 64 + _finish_offset (self s) - 1)
    as (Hfb' & Hfo' & Hpos).
  { subst fb' fo'. destruct (Z.eqb_spec (_finish_offset (self s)) 0); lia. }
  destruct (Hlive fb' ltac:(lia)) as (b & Hs).
  destruct (proj1 Hwf _ _ Hs) as (cells & Hb & Hcells).
  set (d1 := with_finish_offset fo' (with_finish_block fb' (self s))).
  assert (pop_back s =
          (finish_block <- get _finish_block ;;
           finish_offset <- get _finish_offset ;;
           r <- block_pointer finish_block finish_offset ;;
           destroy_at r ;;
           n <- get _size ;;
           set (with_size (wrap (n - 1)))) (State (mem s) d1)) as ->.
  { unfold pop_back, empty. rewrite bind_get.
    destruct (Z.eqb_spec (_size (self s)) 0) as [E0|_]; [lia|].
    rewrite bind_get. subst d1 fb' fo'.
    destruct (Z.eqb_spec (_finish_offset (self s)) 0) as [E|E].
    - rewrite bind_bind, bind_get, bind_bind, bind_set, bind_set.
      rewrite (wrap_small (_finish_block (self s) - 1)) by lia. reflexivity.
    - rewrite bind_set. rewrite (wrap_small (_finish_offset (self s) - 1)) by lia.
      destruct s as [h d]. destruct d. reflexivity. }
  assert (_map d1 = Some m /\ _finish_block d1 = fb' /\ _finish_offset d1 = fo' /\
          _size d1 = _size (self s)) as (Hmap1 & Efb & Efo & Esz)
    by (subst d1; fields; auto).
  unfold block_pointer, destroy_at. exec. rewrite Hmap1, Efb, Efo.
  rewrite (bind_ok _ _ _ _ _
             (map_elem_ok (State (mem s) d1) m slots fb' b fo' Hm ltac:(lia) Hs)).
  rewrite (bind_ok _ _ _ _ _
             (cell_update_ok (State (mem s) d1) b cells fo' None Hb
                ltac:(lia) ltac:(rewrite Hcells; unfold BLOCK_SIZE; lia))).
  exec. rewrite Esz. rewrite (wrap_small (_size (self s) - 1)) by lia.
  eexists. split; [reflexivity|]. split; [|exact Hso64]. subst d1.
  apply (stored_write (l ++ [v]) l s fb' fo' None b cells);
    try exact Hst; fields; try reflexivity; try lia.
  - unfold cursors_loose, size_equation, BLOCK_SIZE. fields. lia.
  - unfold BLOCK_SIZE. lia.
  - intros m0 slots0 E1 E2. rewrite Hmap in E1. injection E1 as <-.
    rewrite Hm in E2. injection E2 as <-. exact Hs.
  - exact Hb.
  - intros i x Hi. pose proof (lookup_lt_Some _ _ _ Hi) as Hlt.
    unfold slot_block, slot_offset. fields.
    fold (slot_block (self s) (Z.of_nat i)) (slot_offset (self s) (Z.of_nat i)).
    destruct (slot_spec (self s) (Z.of_nat i)) as [Hsp Hr]. unfold BLOCK_SIZE in *.
    rewrite decide_False by lia.
    exists i. split; [|split; reflexivity].
    rewrite lookup_app_l by exact Hlt. exact Hi.
Qed.

(** Freeing the first block once the start offset has run off its end. *)
Lemma deallocate_first_stored l s d0 :
  stored l (State (mem s) d0) -> _map d0 = _map (self s) ->
  _start_offset d0 = BLOCK_SIZE ->
  exists s1,
    deallocate_block (_start_block d0) s = Ok tt s1 /\ self s1 = self s /\
    stored l (State (mem s1)
                (with_start_offset 0 (with_start_block (_start_block d0 + 1) d0))).
Proof.
  intros Hst Hmap0 Hso64.
  pose proof Hst as (Hheap & Hcur & Hlen & m & slots & Hmap & Hm & Hslots & Hwf
                     & Hnull & Hlive & Hel).
  pose proof Hcur as (Hsb & Hle & Hfb & Hso & Hfo & Hsz & Heq).
  cbn [self mem] in *.
  unfold size_equation, BLOCK_SIZE in *.
  destruct (Hlive (_start_block d0) ltac:(lia)) as (b & Hs).
  destruct (proj1 Hwf _ _ Hs) as (cells & Hb & Hcells).
  pose proof (block_not_map _ _ _ _ _ Hwf Hm Hs) as Hbm.
  unfold deallocate_block. rewrite bind_get, <- Hmap0, Hmap.
  rewrite (bind_ok _ _ _ _ _
             (map_load_ok s m slots (_start_block d0) (Some b) Hm ltac:(lia) Hs)).
  rewrite (bind_ok _ _ _ _ _ (delete_ok s b _ Hb)).
  erewrite (map_store_ok _ m slots (_start_block d0));
    [| fields; rewrite lookup_delete_ne by exact Hbm; exact Hm | lia
     | apply lookup_lt_Some in Hs; exact Hs].
  eexists. split; [reflexivity|]. split; [reflexivity|]. fields.
  set (slots' := <[Z.to_nat (_start_block d0) := nullptr]> slots).
  assert (forall (j : nat) b', slots' !! j = Some (Some b') ->
            j <> Z.to_nat (_start_block d0) /\ slots !! j = Some (Some b')) as Hback.
  { intros j b' Hj. subst slots'.
    destruct (decide (Z.to_nat (_start_block d0) = j)) as [<-|Hne].
    - apply lookup_lt_Some in Hs.
      rewrite list_lookup_insert_eq in Hj by exact Hs. discriminate.
    - rewrite list_lookup_insert_ne in Hj by exact Hne. split; [congruence | exact Hj]. }
  assert (forall (j : nat) b', j <> Z.to_nat (_start_block d0) ->
            slots !! j = Some (Some b') ->
            <[m := MapArr slots']> (delete b (objs (mem s))) !! b' = objs (mem s) !! b')
    as Hsame.
  { intros j b' Hj Hs'.
    pose proof (block_not_map _ _ _ _ _ Hwf Hm Hs') as Hbm'.
    rewrite lookup_insert_ne by congruence.
    apply lookup_delete_ne. intros ->. apply Hj.
    exact (proj2 Hwf _ _ _ Hs' Hs). }
  split; [|split; [|split]]; fields.
  - pose proof (heap_wf_delete _ b Hheap) as Hh1.
    refine (heap_wf_update _ m (MapArr slots) (MapArr slots') Hh1 _).
    cbn [objs]. rewrite lookup_delete_ne by exact Hbm. exact Hm.
  - unfold cursors_loose, size_equation, BLOCK_SIZE. fields. lia.
  - exact Hlen.
  - exists m, slots'. split; [congruence|]. split; [apply lookup_insert_eq|].
    split; [subst slots'; rewrite length_insert; exact Hslots|].
    split; [split|split; [|split]].
    + intros j b' Hj. destruct (Hback j b' Hj) as [Hne Hold].
      cbn [objs]. rewrite (Hsame j b' Hne Hold). exact (proj1 Hwf _ _ Hold).
    + intros j1 j2 b' H1 H2.
      destruct (Hback _ _ H1) as [_ O1]. destruct (Hback _ _ H2) as [_ O2].
      exact (proj2 Hwf _ _ _ O1 O2).
    + intros j Hj. subst slots'. destruct (Z.eq_dec j (_start_block d0)) as [->|Hne].
      * apply list_lookup_insert_eq. apply lookup_lt_Some in Hs. exact Hs.
      * rewrite list_lookup_insert_ne by lia. apply Hnull. lia.
    + intros j Hj. subst slots'. rewrite list_lookup_insert_ne by lia.
      apply Hlive. lia.
    + intros i x Hi. pose proof (lookup_lt_Some _ _ _ Hi) as Hlt.
      rewrite <- (Hel i x Hi).
      destruct (slot_spec d0 (Z.of_nat i)) as [Hsp Hr].
      unfold slot_block, slot_offset, BLOCK_SIZE in *. fields.
      rewrite Hso64, Z.add_0_l in *.
      replace (64 + Z.of_nat i) with (Z.of_nat i + 1 * 64) in * by lia.
      rewrite Z.div_add, Z.mod_add in * by lia.
      assert (0 <= Z.of_nat i / 64) by (apply Z.div_pos; lia).
      replace (_start_block d0 + 1 + Z.of_nat i / 64)
        with (_start_block d0 + (Z.of_nat i / 64 + 1)) by lia.
      apply cell_transport.
      * subst slots'. apply list_lookup_insert_ne. lia.
      * intros b' Hb'. cbn [objs]. eapply Hsame; [|exact Hb']. lia.
Qed.

Lemma pop_front_holds (v : T) l s :
  holds (v :: l) s -> _map_size (self s) <= 2 ^ 55 ->
  exists s', pop_front s = Ok tt s' /\ holds l s'.
Proof.
  intros [Hst Hso64] Hms.
  pose proof Hst as (Hheap & Hcur & Hlen & m & slots & Hmap & Hm & Hslots & Hwf
                     & Hnull & Hlive & Hel).
  pose proof Hcur as (Hsb & Hle & Hfb & Hso & Hfo & Hsz & Heq).
  cbn [length] in Hlen.
  unfold size_equation, BLOCK_SIZE in *.
  destruct (Hlive (_start_block (self s)) ltac:(lia)) as (b & Hs).
  destruct (proj1 Hwf _ _ Hs) as (cells & Hb & Hcells).
  unfold pop_front, empty. rewrite bind_get.
  destruct (Z.eqb_spec (_size (self s)) 0) as [E0|_]; [lia|].
  unfold block_pointer, destroy_at. exec. rewrite Hmap.
  rewrite (bind_ok _ _ _ _ _
             (map_elem_ok s m slots (_start_block (self s)) b
                (_start_offset (self s)) Hm ltac:(lia) Hs)).
  rewrite (bind_ok _ _ _ _ _
             (cell_update_ok s b cells (_start_offset (self s)) None Hb
                ltac:(lia) ltac:(rewrite Hcells; unfold BLOCK_SIZE; lia))).
  exec. rewrite (wrap_small (_start_offset (self s) + 1)) by lia.
  set (h1 := Heap (<[b := BlockArr (<[Z.to_nat (_start_offset (self s)) := None]> cells)]>
                     (objs (mem s))) (next (mem s))).
  assert (stored l (State h1 (with_size (_size (self s) - 1)
                                (with_start_offset (_start_offset (self s) + 1) (self s)))))
    as Hst1.
  { apply (stored_write (v :: l) l s (_start_block (self s))
             (_start_offset (self s)) None b cells);
      try exact Hst; fields; try reflexivity; try lia.
    - unfold cursors_loose, size_equation, BLOCK_SIZE. fields. lia.
    - unfold BLOCK_SIZE. lia.
    - intros m0 slots0 E1 E2. rewrite Hmap in E1. injection E1 as <-.
      rewrite Hm in E2. injection E2 as <-. exact Hs.
    - exact Hb.
    - intros i x Hi. unfold slot_block, slot_offset. fields.
      replace (_start_offset (self s) + 1 + Z.of_nat i)
        with (_start_offset (self s) + Z.of_nat (S i)) by lia.
      fold (slot_block (self s) (Z.of_nat (S i)))
           (slot_offset (self s) (Z.of_nat (S i))).
      destruct (slot_spec (self s) (Z.of_nat (S i))) as [Hsp Hr].
      unfold BLOCK_SIZE in *.
      rewrite decide_False by lia.
      exists (S i). split; [exact Hi|]. split; reflexivity. }
  destruct (Z.eqb_spec (_start_offset (self s) + 1) BLOCK_SIZE) as [E|E].
  - rewrite !bind_bind.
    set (s1 := State h1 (with_start_offset (_start_offset (self s) + 1) (self s))).
    destruct (deallocate_first_stored l s1
                (with_size (_size (self s) - 1)
                   (with_start_offset (_start_offset (self s) + 1) (self s))))
      as (s2 & Hd & Hself2 & Hst2); try reflexivity.
    { exact Hst1. }
    { exact E. }
    revert Hd. fields. intros Hd.
    rewrite (bind_ok _ _ _ _ _ Hd). exec. rewrite Hself2. subst s1. fields.
    rewrite (wrap_small (_start_block (self s) + 1)) by lia.
    rewrite (wrap_small (_size (self s) - 1)) by lia.
    eexists. split; [reflexivity|]. split; [|fields; unfold BLOCK_SIZE; lia].
    exact Hst2.
  - exec. rewrite (wrap_small (_size (self s) - 1)) by lia.
    eexists. split; [reflexivity|]. unfold BLOCK_SIZE in E.
    split; [exact Hst1 | fields; unfold BLOCK_SIZE; lia].
Qed.

End Pops.

Section Construction.

Context {T : Type}.
Implicit Types (s : state T) (l : list T) (d : Deque) (h : heap T)
  (slots : list ptr) (p b m : loc).

Lemma Deque_default_holds s0 :
  heap_wf (mem s0) ->
  exists s, Deque_default s0 = Ok tt s /\ holds [] s /\ _map_size (self s) = 8.
Proof.
  intros Hheap.
  pose proof (Hheap (next (mem s0)) ltac:(lia)) as Hf1.
  pose proof (Hheap (Pos.succ (next (mem s0))) ltac:(lia)) as Hf2.
  set (nx := next (mem s0)) in *. set (nb := Pos.succ nx) in *.
  assert (nx <> nb) as Hne by (subst nb; lia).
  assert (nb <> nx) as Hne' by (subst nb; lia).
  unfold Deque_default, allocate_map, allocate_block. exec.
  change (8 <? 8) with false. cbv iota. rewrite bind_new. exec.
  change (8 / 2) with 4. rewrite bind_new. exec.
  set (slots0 := replicate (Z.to_nat 8) nullptr).
  set (blk := BlockArr (replicate (Z.to_nat BLOCK_SIZE) None)).
  erewrite (map_store_ok _ nx slots0 4);
    [| fields; rewrite lookup_insert_ne by first [exact Hne | exact Hne']; apply lookup_insert_eq
     | lia | subst slots0; rewrite length_replicate; lia].
  fields. eexists. split; [reflexivity|]. split; [|reflexivity].
  split; [|fields; unfold BLOCK_SIZE; lia].
  set (slots := <[Z.to_nat 4 := Some nb]> slots0).
  assert (forall (j : nat) b, slots !! j = Some (Some b) -> j = 4%nat /\ b = nb) as Hslot.
  { intros j b Hj. subst slots slots0.
    change (Z.to_nat 4) with 4%nat in Hj. change (Z.to_nat 8) with 8%nat in Hj.
    destruct j as [|[|[|[|[|[|[|[|j]]]]]]]]; cbn in Hj; try discriminate.
    injection Hj as <-. auto. }
  split; [|split; [|split]]; fields.
  - pose proof (heap_wf_new _ (MapArr slots0) Hheap) as Hh1.
    pose proof (heap_wf_new _ blk Hh1) as Hh2.
    refine (heap_wf_update _ nx (MapArr slots0) (MapArr slots) Hh2 _).
    cbn [objs next]. rewrite lookup_insert_ne by first [exact Hne | exact Hne']. apply lookup_insert_eq.
  - unfold cursors_loose, size_equation, BLOCK_SIZE. fields. lia.
  - reflexivity.
  - exists nx, slots. split; [reflexivity|]. split; [apply lookup_insert_eq|].
    split; [reflexivity|]. split; [split|split; [|split]].
    + intros j b Hj. destruct (Hslot j b Hj) as [-> ->].
      exists (replicate (Z.to_nat BLOCK_SIZE) None). cbn [objs].
      rewrite lookup_insert_ne by first [exact Hne | exact Hne']. rewrite lookup_insert_eq.
      split; [reflexivity | apply length_replicate].
    + intros j1 j2 b H1 H2. destruct (Hslot _ _ H1) as [-> _].
      destruct (Hslot _ _ H2) as [-> _]. reflexivity.
    + intros k Hk.
      assert (k = 0 \/ k = 1 \/ k = 2 \/ k = 3) as [->|[->|[->| ->]]] by lia;
        reflexivity.
    + intros k Hk. assert (k = 4) as -> by lia. exists nb. reflexivity.
    + intros i x Hi. discriminate.
Qed.



End Construction.

Section Reading.

Context {T : Type}.
Implicit Types (s : state T) (l : list T) (d : Deque).

Lemma read_from_holds l s :
  holds l s -> _map_size (self s) <= 2 ^ 55 ->
  forall (k i : nat), (i + k = length l)%nat ->
    read_from k (Z.of_nat i) s = Ok (drop i l) s.
Proof.
  intros Hh Hms. pose proof (holds_cursors_wf _ _ Hh) as Hcw.
  destruct Hcw as (Hsb & Hle & Hfb & Hso & Hfo & Hsz & Heq).
  pose proof (proj1 (proj2 (proj2 (proj1 Hh)))) as Hlen.
  unfold size_equation, BLOCK_SIZE in *.
  induction k as [|k IH]; intros i Hik.
  - cbn [read_from]. rewrite drop_ge by lia. reflexivity.
  - destruct (lookup_lt_is_Some_2 l i ltac:(lia)) as [v Hv].
    destruct (holds_subscript l s i v Hh ltac:(lia) Hv) as (r & _ & Hat & Hload).
    cbn [read_from].
    rewrite (bind_ok _ _ _ _ _ Hat), (bind_ok _ _ _ _ _ Hload).
    rewrite (wrap_small (Z.of_nat i + 1)) by lia.
    replace (Z.of_nat i + 1) with (Z.of_nat (S i)) by lia.
    rewrite (bind_ok _ _ _ _ _ (IH (S i) ltac:(lia))).
    rewrite (drop_S _ _ _ Hv). reflexivity.
Qed.

End Reading.

(** *** The scenarios hold what they were given *)

Lemma boot_heap_wf : heap_wf (mem boot).
Proof. intros p _. apply lookup_empty. Qed.

Lemma default_holds : holds [] (after Deque_default).
Proof.
  destruct (Deque_default_holds boot boot_heap_wf) as (s & Hrun & Hh & _).
  assert (Deque_default boot = Ok tt (after Deque_default)) as E
    by (vm_compute; reflexivity).
  rewrite Hrun in E. injection E as <-. exact Hh.
Qed.

Lemma straddling_holds : holds [7] straddling.
Proof.
  destruct (push_front_holds 7 [] (after Deque_default) default_holds)
    as (s & Hrun & Hh).
  { vm_compute. discriminate. }
  assert (push_front 7 (after Deque_default) = Ok tt straddling) as E
    by (vm_compute; reflexivity).
  rewrite Hrun in E. injection E as <-. exact Hh.
Qed.

(** ** The container as a sequence *)

Section Sequence.

Context {T : Type}.
Implicit Types (s : state T) (l : list T) (d : Deque).




(** X12. [pop_back()] on a container that holds [l ++ [v]] ends normally and
    leaves a container that holds [l]. *)
Theorem pop_back_removes_last (v : T) l s :
  holds (l ++ [v]) s -> _map_size (self s) <= 2 ^ 55 ->
  exists s', pop_back s = Ok tt s' /\ holds l s'.
Proof. exact (pop_back_holds v l s). Qed.

(** X13. [pop_front()] on a container that holds [v :: l] ends normally and
    leaves a container that holds [l], also when it frees the first block. *)
Theorem pop_front_removes_first (v : T) l s :
  holds (v :: l) s -> _map_size (self s) <= 2 ^ 55 ->
  exists s', pop_front s = Ok tt s' /\ holds l s'.
Proof. exact (pop_front_holds v l s). Qed.

(** X14. On a container that holds [l], [operator[](i)], [at(i)] and the
    iterator [i] increments after [begin()] all refer to one cell, and that
    cell holds [l !! i]; none of them changes the state. *)
Theorem index_reads_sequence l s (i : nat) (v : T) :
  holds l s -> _map_size (self s) <= 2 ^ 55 -> l !! i = Some v ->
  exists r : ref,
    subscript (Z.of_nat i) s = Ok r s /\ at_ (Z.of_nat i) s = Ok r s /\
    Iterator.deref (ith (self s) (Z.of_nat i)) s = Ok r s /\
    load r s = Ok v s.
Proof.
  intros Hh Hms Hi.
  destruct (holds_subscript l s i v Hh ltac:(lia) Hi) as (r & Hsub & Hat & Hload).
  exists r. split; [exact Hsub|]. split; [exact Hat|]. split; [|exact Hload].
  pose proof (holds_cursors_wf _ _ Hh) as (Hsb & Hle & Hfb & Hso & Hfo & Hsz & Heq).
  pose proof (proj1 (proj2 (proj2 (proj1 Hh)))) as Hlen.
  pose proof (lookup_lt_Some _ _ _ Hi) as Hlt.
  unfold size_equation, BLOCK_SIZE in *.
  rewrite ith_slot by (unfold BLOCK_SIZE; lia).
  rewrite subscript_slot in Hsub by (unfold BLOCK_SIZE; lia).
  exact Hsub.
Qed.

(** X15. Reading a container that holds [l] out by index, from [0] to
    [size() - 1], gives [l] and leaves the state unchanged. *)
Theorem read_all_returns_sequence l s :
  holds l s -> _map_size (self s) <= 2 ^ 55 -> read_all s = Ok l s.
Proof.
  intros Hh Hms. unfold read_all. rewrite bind_get. unfold size.
  pose proof (proj1 (proj2 (proj2 (proj1 Hh)))) as Hlen.
  rewrite <- Hlen, Nat2Z.id.
  exact (read_from_holds l s Hh Hms (length l) 0%nat eq_refl).
Qed.

End Sequence.




Lemma pop_back_removes_last_witness :
  exists s' : state Z, pop_back straddling = Ok tt s' /\ holds [] s'.
Proof.
  apply (pop_back_removes_last 7 [] straddling).
  - exact straddling_holds.
  - vm_compute. discriminate.
Defined.

Lemma pop_front_removes_first_witness :
  exists s' : state Z, pop_front straddling = Ok tt s' /\ holds [] s'.
Proof.
  apply (pop_front_removes_first 7 [] straddling).
  - exact straddling_holds.
  - vm_compute. discriminate.
Defined.

Lemma index_reads_sequence_witness :
  exists r : ref,
    subscript 0 straddling = Ok r straddling /\ at_ 0 straddling = Ok r straddling /\
    Iterator.deref (ith (self straddling) 0) straddling = Ok r straddling /\
    load r straddling = Ok 7 straddling.
Proof.
  apply (index_reads_sequence [7] straddling 0 7).
  - exact straddling_holds.
  - vm_compute. discriminate.
  - reflexivity.
Defined.

Lemma read_all_returns_sequence_witness : read_all straddling = Ok [7] straddling.
Proof.
  apply (read_all_returns_sequence [7] straddling).
  - exact straddling_holds.
  - vm_compute. discriminate.
Defined.

(** ** Constructors that push back *)

Lemma packed_push_back (m : ptr) (d : Deque) :
  cursors_wf d -> packed d -> _map_size d <= 2 ^ 55 ->
  packed (after_push_back m d).
Proof.
  intros Hcw (Hso0 & Hhalf & Hfew) Hms.
  pose proof (grown_layout false d Hcw Hms) as Hg. cbv beta iota zeta in Hg.
  destruct Hg as (Ec & Enms & Ens & Efb & Hc & Hnms & Hns1 & _ & Hroom).
  pose proof Hcw as (Hsb & Hle & Hfb & Hso & Hfo & Hsz & Heq).
  unfold size_equation, BLOCK_SIZE in *.
  unfold after_push_back, packed, BLOCK_SIZE.
  destruct (Z.eqb_spec (_finish_offset d) 64) as [E|E]; cbv zeta; [|fields; lia].
  rewrite (wrap_small (_finish_block d + 1)) by lia.
  destruct (Z.geb_spec (_finish_block d + 1) (_map_size d)) as [G|G].
  - unfold grown. cbv zeta. rewrite Ec, Enms, Ens, Efb. fields.
    set (c := _finish_block d - _start_block d + 1) in *.
    set (nms := Z.max 8 (_map_size d * 2)) in *.
    pose proof (Z.max_spec 8 (_map_size d * 2)) as Hmax.
    pose proof (Z.div_mod nms 2 ltac:(lia)) as D2.
    pose proof (Z.mod_pos_bound nms 2 ltac:(lia)) as M2.
    pose proof (Z.div_mod c 2 ltac:(lia)) as Dc.
    pose proof (Z.mod_pos_bound c 2 ltac:(lia)) as Mc.
    rewrite (wrap_small (nms / 2 - c / 2 + c - 1 + 1)) by lia.
    subst c. lia.
  - fields. rewrite (wrap_small (_finish_block d + 1)) by lia. lia.
Qed.

Lemma packed_map_bound (d : Deque) :
  cursors_wf d -> packed d -> 16 * _map_size d <= _size d + 128.
Proof.
  intros (Hsb & Hle & Hfb & Hso & Hfo & Hsz & Heq) (Hso0 & Hhalf & Hfew).
  unfold size_equation, BLOCK_SIZE in *. lia.
Qed.

Section PushingBack.

Context {T : Type}.
Implicit Types (s : state T) (l : list T) (d : Deque).

Lemma holds_length l s : holds l s -> Z.of_nat (length l) = _size (self s).
Proof. intros Hh. exact (proj1 (proj2 (proj2 (proj1 Hh)))). Qed.

Lemma push_back_packed (v : T) l s :
  holds l s -> packed (self s) -> Z.of_nat (length l) <= 2 ^ 58 ->
  exists s', push_back v s = Ok tt s' /\ holds (l ++ [v]) s' /\ packed (self s').
Proof.
  intros Hh Hp Hlen. pose proof (holds_cursors_wf _ _ Hh) as Hcw.
  pose proof (packed_map_bound _ Hcw Hp) as Hb.
  rewrite <- (holds_length _ _ Hh) in Hb.
  assert (_map_size (self s) <= 2 ^ 55) as Hms by lia.
  destruct (push_back_holds v l s Hh Hms) as (s' & Hrun & Hh').
  exists s'. split; [exact Hrun|]. split; [exact Hh'|].
  rewrite (push_back_self v s s' Hrun). apply packed_push_back; assumption.
Qed.

(** [for (const auto& elem : init) push_back(elem);] *)
Lemma push_back_each (init : list T) :
  forall l s,
    holds l s -> packed (self s) ->
    Z.of_nat (length l) + Z.of_nat (length init) <= 2 ^ 58 ->
    exists s',
      foldr (fun elem k => push_back elem ;; k) (ret tt) init s = Ok tt s' /\
      holds (l ++ init) s' /\ packed (self s').
Proof.
  induction init as [|v init IH]; intros l s Hh Hp Hlen.
  - exists s. rewrite app_nil_r. auto.
  - cbn [foldr length] in *.
    destruct (push_back_packed v l s Hh Hp ltac:(lia)) as (s1 & Hrun & Hh1 & Hp1).
    rewrite (bind_ok _ _ _ _ _ Hrun).
    destruct (IH (l ++ [v]) s1 Hh1 Hp1) as (s' & Hrest & Hh' & Hp').
    { rewrite length_app. cbn [length]. lia. }
    exists s'. rewrite <- app_assoc in Hh'. auto.
Qed.


Lemma Deque_default_packed s0 s :
  Deque_default s0 = Ok tt s -> packed (self s).
Proof.
  unfold Deque_default, allocate_map, allocate_block. exec.
  change (8 <? 8) with false. cbv iota. rewrite bind_new. exec.
  change (8 / 2) with 4. rewrite bind_new. exec.
  unfold map_store. fields.
  repeat case_match; try (intros; discriminate).
  intros [= <-]. unfold packed. fields. lia.
Qed.

Lemma Deque_init_holds (init : list T) (s0 : state T) :
  heap_wf (mem s0) -> Z.of_nat (length init) <= 2 ^ 58 ->
  exists s, Deque_init init s0 = Ok tt s /\ holds init s.
Proof.
  intros Hheap Hlen. unfold Deque_init.
  destruct (Deque_default_holds s0 Hheap) as (s1 & Hrun & Hh1 & _).
  rewrite (bind_ok _ _ _ _ _ Hrun).
  destruct (push_back_each init [] s1 Hh1 (Deque_default_packed _ _ Hrun))
    as (s & Hrest & Hh & _).
  { cbn [length]. lia. }
  exists s. auto.
Qed.




End PushingBack.

Lemma demo_holds : holds [3; 5; 4; 6; 9] demo.
Proof.
  destruct (Deque_init_holds [3; 5; 4; 6; 9] boot boot_heap_wf) as (s & Hrun & Hh).
  { vm_compute. discriminate. }
  assert (demo = s) as ->; [|exact Hh].
  rewrite (proj1 scenarios_are_runs). unfold after. rewrite Hrun. reflexivity.
Qed.



(** ** [resize] *)

Lemma after_push_back_size (m : ptr) (d : Deque) :
  _size (after_push_back m d) = wrap (_size d + 1).
Proof.
  unfold after_push_back, grown.
  destruct (_finish_offset d =? BLOCK_SIZE); [|reflexivity].
  destruct (wrap (_finish_block d + 1) >=? _map_size d); reflexivity.
Qed.

Section Resize.

Context {T : Type}.
Implicit Types (s : state T) (l : list T) (d : Deque) (h : heap T).

Lemma grow_loop_pushes (new_size : Z) (v : T) (k : nat) :
  forall (i : Z) s,
    Z.of_nat k = new_size - _size (self s) -> 0 <= _size (self s) ->
    new_size < 2 ^ 64 ->
    grow_loop k new_size v s = for_from k i (fun _ => push_back v) s.
Proof.
  induction k as [|k IH]; intros i s Hk Hsz Hns; [reflexivity|].
  cbn [grow_loop for_from]. rewrite bind_get.
  destruct (Z.ltb_spec (_size (self s)) new_size) as [_|Hge]; [|lia].
  unfold bind. destruct (push_back v s) as [[] s1|s1|] eqn:E; try reflexivity.
  fold (@bind T unit unit).
  pose proof (push_back_self v s s1 E) as Hself.
  assert (_size (self s1) = _size (self s) + 1) as Hsz1.
  { rewrite Hself, after_push_back_size. apply wrap_small. lia. }
  apply IH; lia.
Qed.

Lemma resize_as_pushes (new_size : Z) (v : T) s :
  0 <= _size (self s) < new_size -> new_size < 2 ^ 64 ->
  resize new_size v s = times (new_size - _size (self s)) (push_back v) s.
Proof.
  intros Hsz Hns. unfold resize, times, for_upto. rewrite bind_get.
  destruct (Z.ltb_spec new_size (_size (self s))) as [|_]; [lia|].
  destruct (Z.ltb_spec (_size (self s)) new_size) as [_|]; [|lia].
  apply grow_loop_pushes; lia.
Qed.

Lemma bind_bind_under {A B C D} (c : M T A) (f : A -> M T B) (g : B -> M T C)
    (k : C -> M T D) s :
  bind c (fun a => bind (bind (f a) g) k) s
  = bind c (fun a => bind (f a) (fun x => bind (g x) k)) s.
Proof. apply bind_ext. intros a s1. apply bind_bind. Qed.

(** Stepping to a cell and destroying it depends on the object only through
    its map pointer, and cannot throw. *)
Lemma destroy_step (m : ptr) (b o : Z) h :
  exists res : option (heap T),
    forall d B (K : unit -> M T B),
      (r <- map_elem m b o ;; bind (destroy_at r) K) (State h d)
      = match res with
        | Some h' => K tt (State h' d)
        | None => UB
        end.
Proof.
  unfold map_elem, map_load, destroy_at, cell_update, bind, ret, undefined.
  cbn [mem self fst snd].
  repeat (cbn [mem self fst snd]; case_match);
    first [ exists None; intros; reflexivity
          | eexists (Some _); intros; reflexivity ].
Qed.

(** The destruction walk of [resize] and repeated [pop_back] take the same
    steps. *)
Lemma walk_both (m : ptr) (k : nat) :
  forall (i b o : Z) h,
  exists res : option (heap T * (Z * Z)),
    (forall d, _map d = m ->
       resize_walk k b o (State h d)
       = match res with
         | Some (h', bo) => Ok bo (State h' d)
         | None => UB
         end) /\
    (forall d, _map d = m -> _finish_block d = b -> _finish_offset d = o ->
       Z.of_nat k <= _size d < 2 ^ 64 ->
       for_from k i (fun _ => pop_back) (State h d)
       = match res with
         | Some (h', bo) =>
             Ok tt (State h' (with_size (_size d - Z.of_nat k)
                                (with_finish_offset bo.2
                                   (with_finish_block bo.1 d))))
         | None => UB
         end).
Proof.
  induction k as [|k IH]; intros i b o h.
  - exists (Some (h, (b, o))). split.
    + intros d _. reflexivity.
    + intros d _ Hb Ho Hk. cbn [for_from fst snd]. rewrite Z.sub_0_r.
      destruct d. cbn in *. subst. reflexivity.
  - set (b' := if o =? 0 then wrap (b - 1) else b).
    set (o' := wrap ((if o =? 0 then BLOCK_SIZE else o) - 1)).
    destruct (destroy_step m b' o' h) as [[h'|] Hstep].
    + destruct (IH (wrap (i + 1)) b' o' h') as (res & Hwalk & Hpops).
      exists res. split.
      * intros d Hm. cbn [resize_walk]. cbv zeta. rewrite bind_get. fields.
        rewrite Hm. fold b' o'. rewrite Hstep. apply Hwalk. exact Hm.
      * intros d Hm Hb Ho Hk. cbn [for_from].
        unfold pop_back at 1, empty, block_pointer.
        rewrite bind_bind, bind_get. fields.
        destruct (Z.eqb_spec (_size d) 0) as [E0|_]; [lia|].
        rewrite bind_bind, bind_get. fields. rewrite Ho.
        assert (forall B (K : unit -> M T B),
                  bind (if o =? 0
                        then finish_block <- get _finish_block ;;
                             set (with_finish_block (wrap (finish_block - 1))) ;;
                             set (with_finish_offset (BLOCK_SIZE - 1))
                        else set (with_finish_offset (wrap (o - 1)))) K (State h d)
                  = K tt (State h (with_finish_offset o' (with_finish_block b' d))))
          as Hcur.
        { intros B K. subst b' o'. destruct (o =? 0); exec; rewrite ?Hb.
          - reflexivity.
          - destruct d; cbn in *; subst; reflexivity. }
        rewrite !bind_bind. rewrite Hcur. exec. rewrite Hm, bind_bind_under, Hstep. exec.
        rewrite (wrap_small (_size d - 1)) by lia.
        rewrite Hpops; fields; try reflexivity; try assumption; try lia.
        destruct res as [[h'' [b1 o1]]|]; [|reflexivity].
        cbn [fst snd]. destruct d as [d1 d2 d3 d4 d5 d6 d7].
        cbv [with_size with_finish_offset with_finish_block _map _size _map_size
             _start_block _start_offset _finish_block _finish_offset].
        do 3 f_equal. lia.
    + exists None. split.
      * intros d Hm. cbn [resize_walk]. cbv zeta. rewrite bind_get. fields.
        rewrite Hm. fold b' o'. rewrite Hstep. reflexivity.
      * intros d Hm Hb Ho Hk. cbn [for_from].
        unfold pop_back at 1, empty, block_pointer.
        rewrite bind_bind, bind_get. fields.
        destruct (Z.eqb_spec (_size d) 0) as [E0|_]; [lia|].
        rewrite bind_bind, bind_get. fields. rewrite Ho.
        assert (forall B (K : unit -> M T B),
                  bind (if o =? 0
                        then finish_block <- get _finish_block ;;
                             set (with_finish_block (wrap (finish_block - 1))) ;;
                             set (with_finish_offset (BLOCK_SIZE - 1))
                        else set (with_finish_offset (wrap (o - 1)))) K (State h d)
                  = K tt (State h (with_finish_offset o' (with_finish_block b' d))))
          as Hcur.
        { intros B K. subst b' o'. destruct (o =? 0); exec; rewrite ?Hb.
          - reflexivity.
          - destruct d; cbn in *; subst; reflexivity. }
        rewrite !bind_bind. rewrite Hcur. exec. rewrite Hm, bind_bind_under, Hstep.
        reflexivity.
Qed.

Lemma resize_as_pops (new_size : Z) (v : T) s :
  0 <= new_size < _size (self s) -> _size (self s) < 2 ^ 64 ->
  resize new_size v s = times (_size (self s) - new_size) pop_back s.
Proof.
  destruct s as [h d]. fields. intros Hns Hsz. unfold resize, times, for_upto. exec.
  destruct (Z.ltb_spec new_size (_size d)) as [_|]; [|lia].
  rewrite (wrap_small (_size d - new_size)) by lia.
  destruct (walk_both (_map d) (Z.to_nat (_size d - new_size)) 0
              (_finish_block d) (_finish_offset d) h)
    as (res & Hwalk & Hpops).
  rewrite (Hpops d eq_refl eq_refl eq_refl ltac:(lia)).
  pose proof (Hwalk d eq_refl) as Hw. exec.
  destruct res as [[h' [b1 o1]]|];
    [rewrite (bind_ok _ _ _ _ _ Hw) | apply bind_undefined; exact Hw].
  exec. cbn [fst snd]. rewrite Z2Nat.id by lia.
  replace (_size d - (_size d - new_size)) with new_size by lia. reflexivity.
Qed.

Lemma after_pop_back_map_size (d : Deque) :
  _map_size (after_pop_back d) = _map_size d.
Proof. unfold after_pop_back. destruct (_finish_offset d =? 0); reflexivity. Qed.

Lemma pop_back_run (k : nat) :
  forall (i : Z) l s,
    holds l s -> _map_size (self s) <= 2 ^ 55 -> (k <= length l)%nat ->
    exists s',
      for_from k i (fun _ => pop_back) s = Ok tt s' /\
      holds (take (length l - k) l) s'.
Proof.
  induction k as [|k IH]; intros i l s Hh Hms Hk.
  - exists s. rewrite Nat.sub_0_r, firstn_all. auto.
  - destruct l as [|v l _] using rev_ind; [cbn in Hk; lia|].
    rewrite length_app in *. cbn [length] in *.
    destruct (pop_back_holds v l s Hh Hms) as (s1 & Hrun & Hh1).
    pose proof (pop_back_self s s1 Hrun) as [_ Hself].
    cbn [for_from]. rewrite (bind_ok _ _ _ _ _ Hrun).
    destruct (IH (wrap (i + 1)) l s1 Hh1) as (s' & Hrest & Hh').
    { rewrite Hself, after_pop_back_map_size. exact Hms. }
    { lia. }
    exists s'. split; [exact Hrest|].
    replace (length l + 1 - S k)%nat with (length l - k)%nat by lia.
    rewrite take_app_le by lia. exact Hh'.
Qed.

(** X18. [resize(n, v)] with [n] above [size()] is [n - size()] calls of
    [push_back(v)]: the same final state and the same outcome, whatever
    the state. *)
Theorem resize_grows_by_push_back (new_size : Z) (v : T) s :
  0 <= _size (self s) < new_size -> new_size < 2 ^ 64 ->
  resize new_size v s = times (new_size - _size (self s)) (push_back v) s.
Proof. exact (resize_as_pushes new_size v s). Qed.

(** X19. [resize(n, v)] with [n] below [size()] is [size() - n] calls of
    [pop_back()]: the same final state and the same outcome, whatever
    the state. *)
Theorem resize_shrinks_by_pop_back (new_size : Z) (v : T) s :
  0 <= new_size < _size (self s) -> _size (self s) < 2 ^ 64 ->
  resize new_size v s = times (_size (self s) - new_size) pop_back s.
Proof. exact (resize_as_pops new_size v s). Qed.

(** X20. [resize(n, v)] on a container that holds [l], with [n] below
    [size()], ends normally and leaves a container that holds the first [n]
    elements of [l]. *)
Theorem resize_truncates (n : nat) (v : T) l s :
  holds l s -> _map_size (self s) <= 2 ^ 55 -> (n < length l)%nat ->
  exists s', resize (Z.of_nat n) v s = Ok tt s' /\ holds (take n l) s'.
Proof.
  intros Hh Hms Hn. pose proof (holds_length _ _ Hh) as Hlen.
  pose proof (holds_cursors_wf _ _ Hh) as (Hsb & Hle & Hfb & Hso & Hfo & Hsz & Heq).
  unfold size_equation, BLOCK_SIZE in *.
  rewrite resize_as_pops by lia. unfold times, for_upto.
  destruct (pop_back_run (Z.to_nat (_size (self s) - Z.of_nat n)) 0 l s Hh Hms
              ltac:(lia)) as (s' & Hrun & Hh').
  exists s'. split; [exact Hrun|].
  replace (length l - Z.to_nat (_size (self s) - Z.of_nat n))%nat with n in Hh' by lia.
  exact Hh'.
Qed.

End Resize.

Lemma resize_grows_by_push_back_witness :
  resize 3 9 straddling = times 2 (push_back 9) straddling.
Proof.
  apply (resize_grows_by_push_back 3 9 straddling).
  - vm_compute. split; [discriminate | reflexivity].
  - vm_compute. reflexivity.
Defined.

Lemma resize_shrinks_by_pop_back_witness :
  resize 2 0 demo = times 3 pop_back demo.
Proof.
  apply (resize_shrinks_by_pop_back 2 0 demo).
  - vm_compute. split; [discriminate | reflexivity].
  - vm_compute. reflexivity.
Defined.


Lemma resize_truncates_witness :
  exists s' : state Z, resize 2 0 demo = Ok tt s' /\ holds [3; 5] s'.
Proof.
  apply (resize_truncates 2 0 [3; 5; 4; 6; 9] demo).
  - exact demo_holds.
  - vm_compute. discriminate.
  - vm_compute. lia.
Defined.

(** ** Assignment through [operator[]], [insert] and [erase] *)

Section Positions.

Context {T : Type}.
Implicit Types (s : state T) (l : list T) (d : Deque) (h : heap T)
  (slots : list ptr) (p b m : loc).

Lemma holds_store l s (i : nat) (v : T) :
  holds l s -> _map_size (self s) <= 2 ^ 57 -> (i < length l)%nat ->
  exists (r : ref) s',
    subscript (Z.of_nat i) s = Ok r s /\ store r v s = Ok tt s' /\
    holds (<[i := v]> l) s' /\ self s' = self s.
Proof.
  intros [Hst Hso64] Hms Hi.
  destruct (lookup_lt_is_Some_2 l i Hi) as [x Hx].
  destruct (stored_cell l s i x Hst Hx)
    as (m & slots & b & cells & Hmap & Hm & Hk & Hs & Hb & Hc).
  pose proof Hst as (Hheap & Hcur & Hlen & _).
  destruct (slot_spec (self s) (Z.of_nat i)) as [Hsp Ho].
  pose proof Hcur as (Hsb & Hle & Hfb & Hso' & Hfo & Hsz & Heq).
  unfold size_equation, BLOCK_SIZE in *.
  pose proof (lookup_lt_Some _ _ _ Hc) as Hcl.
  exists (b, slot_offset (self s) (Z.of_nat i)). eexists.
  split; [|split; [|split]].
  - rewrite subscript_slot by (unfold BLOCK_SIZE; lia). rewrite Hmap.
    eapply map_elem_ok; eassumption.
  - unfold store.
    apply (cell_update_ok s b cells (slot_offset (self s) (Z.of_nat i)) (Some v) Hb
             ltac:(lia) Hcl).
  - split; [|exact Hso64].
    apply (stored_write l (<[i := v]> l) s (slot_block (self s) (Z.of_nat i))
             (slot_offset (self s) (Z.of_nat i)) (Some v) b cells);
      try exact Hst; try reflexivity; try lia.
    + exact Hcur.
    + rewrite length_insert. exact Hlen.
    + unfold BLOCK_SIZE. lia.
    + intros m0 slots0 E1 E2. rewrite Hmap in E1. injection E1 as <-.
      rewrite Hm in E2. injection E2 as <-. exact Hs.
    + exact Hb.
    + intros j x' Hj.
      destruct (slot_spec (self s) (Z.of_nat j)) as [Hspj Hoj].
      unfold BLOCK_SIZE in *.
      destruct (decide (j = i)) as [->|Hne].
      * rewrite list_lookup_insert_eq in Hj by exact Hi. injection Hj as <-.
        rewrite decide_True by auto. reflexivity.
      * rewrite list_lookup_insert_ne in Hj by congruence.
        rewrite decide_False by lia. exists j. auto.
  - reflexivity.
Qed.

Lemma holds_length_bound l s :
  holds l s -> _map_size (self s) <= 2 ^ 57 -> Z.of_nat (length l) <= 2 ^ 63.
Proof.
  intros Hh Hms. rewrite (holds_length _ _ Hh).
  pose proof (stored_map_size l s (proj1 Hh)) as [_ Hb].
  unfold BLOCK_SIZE in Hb. lia.
Qed.


(** The loop [for (i = index; i < size() - 1; ++i)] that assigns element
    [i + 1] to element [i] moves the elements after [index] down by one. *)
Lemma shift_left_holds (fuel : nat) :
  forall (i : nat) l s,
    holds l s -> _map_size (self s) <= 2 ^ 57 ->
    (i < length l)%nat -> (length l - 1 - i <= fuel)%nat ->
    exists l' s',
      shift_left fuel (Z.of_nat i) s = Ok tt s' /\
      holds l' s' /\ self s' = self s /\ length l' = length l /\
      forall j : nat,
        l' !! j = if decide (i <= j < length l - 1)%nat then l !! (j + 1)%nat else l !! j.
Proof.
  induction fuel as [|fuel IH]; intros i l s Hh Hms Hi Hfuel.
  - exists l, s. split; [reflexivity|]. split; [exact Hh|]. split; [reflexivity|].
    split; [reflexivity|]. intros j. rewrite decide_False by lia. reflexivity.
  - cbn [shift_left]. rewrite bind_get. unfold size.
    pose proof (holds_length_bound l s Hh Hms) as Hbound.
    pose proof (holds_length _ _ Hh) as Hlen. rewrite <- Hlen.
    rewrite (wrap_small (Z.of_nat (length l) - 1)) by lia.
    destruct (Z.ltb_spec (Z.of_nat i) (Z.of_nat (length l) - 1)) as [Hlt|Hge].
    + destruct (lookup_lt_is_Some_2 l (i + 1) ltac:(lia)) as [x Hx].
      destruct (holds_store l s i x Hh Hms ltac:(lia)) as (dst & s1 & Hdst & Hstore & Hh1 & Hself1).
      destruct (holds_subscript l s (i + 1) x Hh Hms Hx) as (src & Hsrc & _ & Hload).
      rewrite (bind_ok _ _ _ _ _ Hdst).
      rewrite (wrap_small (Z.of_nat i + 1)) by lia.
      replace (Z.of_nat i + 1) with (Z.of_nat (i + 1)) by lia.
      rewrite (bind_ok _ _ _ _ _ Hsrc), (bind_ok _ _ _ _ _ Hload).
      rewrite (bind_ok _ _ _ _ _ Hstore).
      destruct (IH (i + 1)%nat (<[i := x]> l) s1 Hh1) as (l' & s' & Hrun & Hh' & Hself' & Hlen' & Hpt).
      { rewrite Hself1. exact Hms. }
      { rewrite length_insert. lia. }
      { rewrite length_insert. lia. }
      exists l', s'. split; [exact Hrun|]. split; [exact Hh'|].
      split; [congruence|]. split; [rewrite Hlen'; apply length_insert|].
      intros j. rewrite Hpt. rewrite length_insert.
      destruct (decide (i + 1 <= j < length l - 1)%nat) as [Hin|Hout].
      * rewrite decide_True by lia. apply list_lookup_insert_ne. lia.
      * destruct (decide (j = i)) as [->|Hne].
        -- rewrite decide_True by lia.
           rewrite list_lookup_insert_eq by lia. symmetry. exact Hx.
        -- rewrite decide_False by lia. apply list_lookup_insert_ne. lia.
    + exists l, s. split; [reflexivity|]. split; [exact Hh|]. split; [reflexivity|].
      split; [reflexivity|]. intros j. rewrite decide_False by lia. reflexivity.
Qed.

End Positions.


Lemma plus_begin_is_ith (d : Deque) (i : Z) :
  cursors_wf d -> _map_size d <= 2 ^ 56 -> 0 <= i <= _size d ->
  Iterator.plus (begin d) (to_signed i) = ith d i.
Proof.
  intros (Hsb & Hle & Hfb & Hso & Hfo & Hsz & Heq) Hms Hi.
  unfold size_equation, BLOCK_SIZE in *.
  rewrite (to_signed_small i) by lia.
  rewrite ith_slot by (unfold BLOCK_SIZE; lia).
  rewrite plus_nonnegative;
    unfold begin, BLOCK_SIZE;
    cbn [Iterator._block Iterator._offset Iterator._map_ptr]; try lia.
  reflexivity.
Qed.


Section InsertErase.

Context {T : Type}.
Implicit Types (s : state T) (l : list T) (d : Deque).



Lemma erased_pointwise l l1 (y : T) l1' (i : nat) :
  (i < length l)%nat -> l1' ++ [y] = l1 -> length l1 = length l ->
  (forall j : nat,
     l1 !! j = if decide (i <= j < length l - 1)%nat
               then l !! (j + 1)%nat else l !! j) ->
  l1' = delete i l.
Proof.
  intros Hi <- Hlen Hpt. rewrite length_app in Hlen. cbn [length] in Hlen.
  apply list_eq. intros j.
  destruct (Nat.lt_ge_cases j (length l1')) as [Hlt|Hge].
  - rewrite <- (lookup_app_l l1' [y]) by exact Hlt. rewrite Hpt.
    destruct (Nat.lt_ge_cases j i) as [Hji|Hji].
    + rewrite decide_False by lia. rewrite list_lookup_delete_lt by exact Hji. reflexivity.
    + rewrite decide_True by lia. rewrite list_lookup_delete_ge by exact Hji.
      f_equal. lia.
  - rewrite (proj2 (lookup_ge_None _ _)) by exact Hge.
    symmetry. apply lookup_ge_None. rewrite length_delete; [lia|].
    apply lookup_lt_is_Some_2. exact Hi.
Qed.

Lemma erase_holds (pos : Iterator.t) l s (i : nat) :
  holds l s -> _map_size (self s) <= 2 ^ 55 ->
  wrap (Iterator.diff pos (begin (self s))) = Z.of_nat i ->
  (i < length l)%nat ->
  exists (it : Iterator.t) s',
    erase pos s = Ok it s' /\ holds (delete i l) s' /\
    it = ith (self s') (Z.of_nat i).
Proof.
  intros Hh Hms Hpos Hi. pose proof (holds_length _ _ Hh) as Hlen.
  pose proof (holds_length_bound l s Hh ltac:(lia)) as Hbound.
  unfold erase. rewrite !bind_get. rewrite Hpos. unfold size. rewrite <- Hlen.
  rewrite (wrap_small (Z.of_nat (length l) - 1)) by lia.
  destruct (shift_left_holds (Z.to_nat (Z.of_nat (length l) - 1)) i l s Hh
              ltac:(lia) Hi ltac:(lia))
    as (l1 & s1 & Hshift & Hh1 & Hself1 & Hlen1 & Hpt).
  rewrite (bind_ok _ _ _ _ _ Hshift).
  destruct l1 as [|y l1' _] using rev_ind; [cbn in Hlen1; lia|].
  destruct (pop_back_holds y l1' s1 Hh1 ltac:(rewrite Hself1; exact Hms))
    as (s2 & Hpop & Hh2).
  rewrite (bind_ok _ _ _ _ _ Hpop). rewrite bind_get.
  pose proof (erased_pointwise l (l1' ++ [y]) y l1' i Hi eq_refl Hlen1 Hpt) as E.
  eexists. exists s2. split; [reflexivity|]. rewrite <- E. split; [exact Hh2|].
  apply plus_begin_is_ith.
  - exact (holds_cursors_wf _ _ Hh2).
  - pose proof (pop_back_self s1 s2 Hpop) as [_ Hself2].
    rewrite Hself2, after_pop_back_map_size, Hself1. lia.
  - rewrite <- (holds_length _ _ Hh2).
    rewrite length_app in Hlen1. cbn [length] in Hlen1. lia.
Qed.

End InsertErase.

Section Positional.

Context {T : Type}.
Implicit Types (s : state T) (l : list T) (d : Deque).

(** X21. Assigning [v] through the reference [operator[](i)] returns, on a
    container that holds [l], leaves a container that holds [l] with its
    [i]-th element replaced by [v]; cursors, map and size are unchanged. *)
Theorem assignment_replaces_element l s (i : nat) (v : T) :
  holds l s -> _map_size (self s) <= 2 ^ 55 -> (i < length l)%nat ->
  exists (r : ref) s',
    subscript (Z.of_nat i) s = Ok r s /\ store r v s = Ok tt s' /\
    holds (<[i := v]> l) s' /\ self s' = self s.
Proof.
  intros Hh Hms Hi. apply holds_store; [exact Hh | lia | exact Hi].
Qed.


(** X23. [erase(pos)] with [pos] at distance [i < size()] from [begin()], on
    a container that holds [l], ends normally, leaves a container that holds
    [l] without its [i]-th element, and returns the iterator [i] increments
    after [begin()]. *)
Theorem erase_removes_element (pos : Iterator.t) l s (i : nat) :
  holds l s -> _map_size (self s) <= 2 ^ 55 ->
  wrap (Iterator.diff pos (begin (self s))) = Z.of_nat i ->
  (i < length l)%nat ->
  exists (it : Iterator.t) s',
    erase pos s = Ok it s' /\ holds (delete i l) s' /\
    it = ith (self s') (Z.of_nat i).
Proof. exact (erase_holds pos l s i). Qed.

End Positional.

Lemma assignment_replaces_element_witness :
  exists (r : ref) (s' : state Z),
    subscript 1 demo = Ok r demo /\ store r 8 demo = Ok tt s' /\
    holds [3; 8; 4; 6; 9] s' /\ self s' = self demo.
Proof.
  apply (assignment_replaces_element [3; 5; 4; 6; 9] demo 1 8).
  - exact demo_holds.
  - vm_compute. discriminate.
  - vm_compute. lia.
Defined.


Lemma erase_removes_element_witness :
  exists (it : Iterator.t) (s' : state Z),
    erase (ith (self demo) 1) demo = Ok it s' /\
    holds [3; 4; 6; 9] s' /\ it = ith (self s') 1.
Proof.
  apply (erase_removes_element (ith (self demo) 1) [3; 5; 4; 6; 9] demo 1).
  - exact demo_holds.
  - vm_compute. discriminate.
  - vm_compute. reflexivity.
  - vm_compute. lia.
Defined.

(** ** Exceptions, capacity, [emplace_back] and [emplace_front] *)

Section NeverThrows.

Context {T : Type}.
Implicit Types (s : state T) (l : list T) (d : Deque).

Lemma no_throw_reallocate_map f : no_throw (@reallocate_map T f).
Proof. unfold reallocate_map, for_upto. cbv zeta. repeat no_throw_step. Qed.

Lemma no_throw_allocate_block i : no_throw (@allocate_block T i).
Proof. unfold allocate_block. repeat no_throw_step. Qed.

Lemma no_throw_deallocate_block i : no_throw (@deallocate_block T i).
Proof. unfold deallocate_block. repeat no_throw_step. Qed.

Lemma no_throw_map_elem m b o : no_throw (@map_elem T m b o).
Proof. unfold map_elem. repeat no_throw_step. Qed.

Lemma no_throw_push_back v : no_throw (@push_back T v).
Proof.
  unfold push_back, construct_at.
  repeat first [ apply no_throw_reallocate_map | apply no_throw_allocate_block
               | apply no_throw_map_elem | no_throw_step ].
Qed.

Lemma no_throw_push_front v : no_throw (@push_front T v).
Proof.
  unfold push_front, construct_at.
  repeat first [ apply no_throw_reallocate_map | apply no_throw_allocate_block
               | apply no_throw_map_elem | no_throw_step ].
Qed.

Lemma no_throw_emplace_back v : no_throw (@emplace_back T v).
Proof.
  unfold emplace_back, construct_at.
  repeat first [ apply no_throw_reallocate_map | apply no_throw_allocate_block
               | apply no_throw_map_elem | no_throw_step ].
Qed.

Lemma no_throw_emplace_front v : no_throw (@emplace_front T v).
Proof.
  unfold emplace_front, construct_at.
  repeat first [ apply no_throw_reallocate_map | apply no_throw_allocate_block
               | apply no_throw_map_elem | no_throw_step ].
Qed.

Lemma no_throw_front : no_throw (@front T).
Proof. unfold front. repeat first [apply no_throw_map_elem | no_throw_step]. Qed.

Lemma no_throw_back : no_throw (@back T).
Proof.
  unfold back. cbv zeta. repeat first [apply no_throw_map_elem | no_throw_step].
Qed.

Lemma no_throw_clear_walk (k : nat) : forall b o, no_throw (@clear_walk T k b o).
Proof.
  induction k as [|k IH]; intros b o; cbn [clear_walk].
  - apply no_throw_ret.
  - unfold destroy_at.
    repeat first [ apply IH | apply no_throw_map_elem | no_throw_step ].
Qed.

Lemma no_throw_clear : no_throw (@clear T).
Proof.
  unfold clear, allocate_map, for_upto. cbv zeta.
  repeat first [ apply no_throw_clear_walk | apply no_throw_deallocate_block
               | no_throw_step ].
Qed.

Lemma no_throw_resize_walk (k : nat) : forall b o, no_throw (@resize_walk T k b o).
Proof.
  induction k as [|k IH]; intros b o; cbn [resize_walk].
  - apply no_throw_ret.
  - cbv zeta. unfold destroy_at.
    repeat first [ apply IH | apply no_throw_map_elem | no_throw_step ].
Qed.

Lemma no_throw_grow_loop (k : nat) n v : no_throw (@grow_loop T k n v).
Proof.
  induction k as [|k IH]; cbn [grow_loop].
  - apply no_throw_ret.
  - repeat first [ apply IH | apply no_throw_push_back | no_throw_step ].
Qed.

Lemma no_throw_resize n v : no_throw (@resize T n v).
Proof.
  unfold resize.
  repeat first [ apply no_throw_resize_walk | apply no_throw_grow_loop
               | no_throw_step ].
Qed.

Lemma no_throw_shift_right (k : nat) : forall i index, no_throw (@shift_right T k i index).
Proof.
  induction k as [|k IH]; intros i index; cbn [shift_right].
  - apply no_throw_ret.
  - unfold store.
    repeat first [ apply IH | apply no_throw_subscript | no_throw_step ].
Qed.

Lemma no_throw_read (a : const_reference T) : no_throw (read a).
Proof. destruct a as [v|r]; [apply no_throw_ret | apply no_throw_load]. Qed.

Lemma no_throw_insert pos (a : const_reference T) : no_throw (insert pos a).
Proof.
  unfold insert, store. cbv zeta.
  repeat first [ apply no_throw_shift_right | apply no_throw_subscript
               | apply no_throw_push_back | apply no_throw_back
               | apply no_throw_read | no_throw_step ].
Qed.

Lemma no_throw_emplace pos v : no_throw (@emplace T pos v).
Proof.
  unfold emplace, resize_map, destroy_at, construct_at. cbv zeta.
  repeat first [ apply no_throw_shift_right | apply no_throw_map_elem
               | no_throw_step ].
Qed.

(** X24. Of the members of the embedding only [at], [pop_back], [pop_front]
    (and [erase], through [pop_back]) can leave by [std::out_of_range]:
    [push_back], [push_front], [emplace_back], [emplace_front], [operator[]],
    [front], [back], [clear], [resize], [insert], [emplace] and the
    storage helpers never throw, in any state. *)
Theorem members_that_never_throw (v : T) (i n : Z) (pos : Iterator.t)
    (a : const_reference T) :
  no_throw (push_back v) /\ no_throw (push_front v) /\
  no_throw (emplace_back v) /\ no_throw (emplace_front v) /\
  no_throw (@subscript T i) /\ no_throw (@front T) /\ no_throw (@back T) /\
  no_throw (@clear T) /\ no_throw (resize n v) /\
  no_throw (insert pos a) /\ no_throw (emplace pos v) /\
  no_throw (@destroy_all T) /\ no_throw (@reallocate_map T true) /\
  no_throw (@reallocate_map T false).
Proof.
  repeat split;
    [ apply no_throw_push_back | apply no_throw_push_front
    | apply no_throw_emplace_back | apply no_throw_emplace_front
    | apply no_throw_subscript | apply no_throw_front | apply no_throw_back
    | apply no_throw_clear | apply no_throw_resize | apply no_throw_insert
    | apply no_throw_emplace | apply no_throw_destroy_all
    | apply no_throw_reallocate_map | apply no_throw_reallocate_map ].
Qed.

(** X25. On every container built by construction and push/pop at the ends,
    [size()] is at most [capacity()], and [capacity()] is 64 elements per
    map slot. *)
Theorem size_within_capacity (s : state T) :
  reachable_by_ends s -> _map_size (self s) <= 2 ^ 55 ->
  size (self s) <= capacity (self s) /\
  capacity (self s) = _map_size (self s) * BLOCK_SIZE.
Proof.
  intros Hr Hms. apply reachable_by_ends_cursors in Hr.
  destruct Hr as (Hsb & Hle & Hfb & Hso & Hfo & Hsz & Heq).
  unfold size_equation, size, capacity, BLOCK_SIZE in *.
  rewrite wrap_small by lia. lia.
Qed.

End NeverThrows.

Lemma size_within_capacity_witness :
  size (self straddling) <= capacity (self straddling) /\
  capacity (self straddling) = _map_size (self straddling) * BLOCK_SIZE.
Proof.
  apply (size_within_capacity straddling).
  - exact straddling_reachable.
  - vm_compute. discriminate.
Defined.

Section Emplace.

Context {T : Type}.
Implicit Types (s : state T) (l : list T) (d : Deque) (h : heap T).

Lemma bind_ext_on {A B} (c : M T A) (k k' : A -> M T B) s :
  (forall a s1, c s = Ok a s1 -> k a s1 = k' a s1) -> bind c k s = bind c k' s.
Proof. intros H. unfold bind. destruct (c s) eqn:E; auto. Qed.

Lemma bind_congr {A B} (c c' : M T A) (k : A -> M T B) s :
  c s = c' s -> bind c k s = bind c' k s.
Proof. intros H. unfold bind. rewrite H. reflexivity. Qed.

(** [map_elem] reads the free store only. *)
Lemma map_elem_frame (m : ptr) (b o : Z) h d d' :
  map_elem m b o (State h d')
  = match map_elem m b o (State h d) with
    | Ok r _ => Ok r (State h d')
    | Throw _ => Throw (State h d')
    | UB => UB
    end.
Proof.
  unfold map_elem, bind, map_load, ret, undefined. cbn [mem self].
  destruct m as [l|]; [|reflexivity].
  destruct (objs h !! l) as [[slots|cells]|]; try reflexivity.
  destruct (slots !! Z.to_nat b) as [p|]; try reflexivity.
  destruct (0 <=? b); try reflexivity.
  destruct p; reflexivity.
Qed.

Lemma emplace_back_steps (v : T) s :
  emplace_back v s
  = (room_at_back ;;
     m <- get _map ;;
     finish_block <- get _finish_block ;;
     finish_offset <- get _finish_offset ;;
     r <- map_elem m finish_block finish_offset ;;
     construct_at r v ;;
     n <- get _size ;;
     set (with_size (wrap (n + 1))) ;;
     r' <- map_elem m finish_block finish_offset ;;
     set (with_finish_offset (wrap (finish_offset + 1))) ;;
     ret r') s.
Proof.
  unfold emplace_back, room_at_back, ensure_block. exec.
  destruct (_finish_offset (self s) =? BLOCK_SIZE); [|reflexivity].
  exec. apply bind_ext. intros [] s1. exec.
  apply bind_ext. intros p s2. rewrite !bind_bind. reflexivity.
Qed.

Lemma room_at_back_offset s s1 :
  room_at_back s = Ok tt s1 -> 0 <= _finish_offset (self s) <= BLOCK_SIZE ->
  0 <= _finish_offset (self s1) < BLOCK_SIZE.
Proof.
  unfold room_at_back, BLOCK_SIZE. rewrite bind_get.
  destruct (Z.eqb_spec (_finish_offset (self s)) 64) as [E|E].
  - rewrite !bind_get. intros H _.
    apply bind_ok_inv in H as ([] & s2 & _ & H). rewrite bind_get in H.
    apply bind_ok_inv in H as ([] & s3 & _ & H).
    revert H. exec. intros [= <-]. fields. lia.
  - intros [= <-] H. lia.
Qed.

Lemma emplace_back_as_push_back (v : T) s :
  0 <= _finish_offset (self s) <= BLOCK_SIZE ->
  emplace_back v s = (push_back v ;; back) s.
Proof.
  intros Hfo. rewrite emplace_back_steps.
  assert ((push_back v ;; back) s = (room_at_back ;; construct_back v ;; back) s) as ->.
  { rewrite (bind_congr _ _ _ _ (push_back_steps v s)). apply bind_bind. }
  apply bind_ext_on. intros [] s1 Hroom.
  pose proof (room_at_back_offset s s1 Hroom Hfo) as Hfo1. unfold BLOCK_SIZE in Hfo1.
  unfold construct_back, back. cbv zeta. rewrite !bind_bind. exec.
  apply bind_ext_on. intros r s2 Helem.
  apply map_elem_state in Helem. subst s2. rewrite !bind_bind.
  unfold construct_at.
  apply bind_ext_on. intros [] s3 Hcons.
  pose proof (keeps_self_cell_update _ _ _ _ _ Hcons) as Hself. exec.
  rewrite Hself.
  rewrite (wrap_small (_finish_offset (self s1) + 1)) by lia.
  destruct (Z.eqb_spec (_finish_offset (self s1) + 1) 0) as [E0|_]; [lia|].
  replace (_finish_offset (self s1) + 1 - 1) with (_finish_offset (self s1)) by lia.
  rewrite (wrap_small (_finish_offset (self s1))) by lia.
  set (dE := with_size _ (self s1)).
  set (dP := with_size _ (with_finish_offset _ (self s1))).
  unfold bind at 1. rewrite (map_elem_frame _ _ _ (mem s3) dP dE).
  destruct (map_elem (_map (self s1)) (_finish_block (self s1))
              (_finish_offset (self s1)) (State (mem s3) dP)) as [r' s4|s4|] eqn:E.
  - apply map_elem_state in E. subst s4. unfold bind. cbn [set ret mem self].
    subst dE dP. destruct (self s1) as [a1 a2 a3 a4 a5 a6 a7]. reflexivity.
  - exfalso. exact (no_throw_map_elem _ _ _ _ _ E).
  - reflexivity.
Qed.

Lemma emplace_front_steps (v : T) s :
  emplace_front v s
  = (room_at_front ;;
     start_offset <- get _start_offset ;;
     set (with_start_offset (wrap (start_offset - 1))) ;;
     m <- get _map ;;
     start_block <- get _start_block ;;
     start_offset <- get _start_offset ;;
     r <- map_elem m start_block start_offset ;;
     construct_at r v ;;
     n <- get _size ;;
     set (with_size (wrap (n + 1))) ;;
     map_elem m start_block start_offset) s.
Proof.
  unfold emplace_front, room_at_front, ensure_block. exec.
  destruct (_start_offset (self s) =? 0); [|reflexivity].
  exec. apply bind_ext. intros [] s1. exec.
  apply bind_ext. intros p s2. rewrite !bind_bind. reflexivity.
Qed.

Lemma emplace_front_as_push_front (v : T) s :
  emplace_front v s = (push_front v ;; front) s.
Proof.
  rewrite emplace_front_steps.
  assert ((push_front v ;; front) s = (room_at_front ;; construct_front v ;; front) s) as ->.
  { rewrite (bind_congr _ _ _ _ (push_front_steps v s)). apply bind_bind. }
  apply bind_ext. intros [] s1.
  unfold construct_front, front. rewrite !bind_bind. exec.
  set (s1' := State (mem s1) _).
  apply bind_ext_on. intros r s2 Helem.
  apply map_elem_state in Helem. subst s2. rewrite !bind_bind.
  unfold construct_at.
  apply bind_ext_on. intros [] s3 Hcons.
  pose proof (keeps_self_cell_update _ _ _ _ _ Hcons) as Hself. exec.
  rewrite Hself. subst s1'. fields. reflexivity.
Qed.

(** X26. [emplace_back(v)] is [push_back(v)] followed by [back()]: the same
    final state, the same outcome, and the reference it returns is the one
    [back()] returns afterwards, provided the finish offset is in range. *)
Theorem emplace_back_is_push_back_then_back (v : T) s :
  0 <= _finish_offset (self s) <= BLOCK_SIZE ->
  emplace_back v s = (push_back v ;; back) s.
Proof. exact (emplace_back_as_push_back v s). Qed.

(** X27. [emplace_front(v)] is [push_front(v)] followed by [front()], in every
    state. *)
Theorem emplace_front_is_push_front_then_front (v : T) s :
  emplace_front v s = (push_front v ;; front) s.
Proof. exact (emplace_front_as_push_front v s). Qed.

End Emplace.

Lemma emplace_back_is_push_back_then_back_witness :
  emplace_back 8 full_block = (push_back 8 ;; back) full_block.
Proof.
  apply (emplace_back_is_push_back_then_back 8 full_block).
  vm_compute. split; discriminate.
Defined.

(** ** [emplace] at a position *)

Section EmplaceAt.

Context {T : Type}.
Implicit Types (s : state T) (l : list T) (d : Deque) (h : heap T).

Lemma emplace_below_start (pos : Iterator.t) (v : T) l s :
  holds l s -> _map_size (self s) <= 2 ^ 55 ->
  wrap (Iterator.diff pos (begin (self s))) / BLOCK_SIZE < _start_block (self s) ->
  emplace pos v s = UB.
Proof.
  intros [Hst Hso64] Hms Hidx.
  pose proof Hst as (Hheap & Hcur & Hlen & m & slots & Hmap & Hm & Hslots & Hwf
                     & Hnull & Hlive & Hel).
  pose proof Hcur as (Hsb & Hle & Hfb & Hso & Hfo & Hsz & Heq).
  unfold size_equation, BLOCK_SIZE in *.
  set (index := wrap (Iterator.diff pos (begin (self s)))) in *.
  assert (0 <= index / 64) as Hi0.
  { apply Z.div_pos; [|lia]. subst index. apply wrap_range. }
  unfold emplace. cbv zeta. rewrite !bind_get. fold index.
  unfold capacity, BLOCK_SIZE. rewrite (wrap_small (_map_size (self s) * 64)) by lia.
  destruct (Z.eqb_spec (_size (self s)) (_map_size (self s) * 64)) as [E|_]; [lia|].
  rewrite bind_ret.
  destruct (shift_right (Z.to_nat (_size (self s))) (_size (self s)) index s)
    as [[] s2|s2|] eqn:Eshift.
  - destruct (shift_right_keeps_map _ _ _ _ _ _ _ Eshift Hm) as [Hself2 Hm2].
    rewrite (bind_ok _ _ _ _ _ Eshift). rewrite bind_get, Hself2, Hmap.
    apply bind_undefined.
    apply (map_elem_null_slot s2 m slots); [exact Hm2|].
    left. apply Hnull. lia.
  - exfalso. exact (no_throw_shift_right _ _ _ _ _ Eshift).
  - apply bind_undefined. exact Eshift.
Qed.

(** X28. [emplace(pos, v)] computes the block of the new element as
    [index / 64] from the head of the map instead of from the start cursor:
    on a container that holds a sequence, whenever that slot lies before the
    start block the call has undefined behaviour (it goes through a null
    block pointer) and never completes. *)
Theorem emplace_before_start_block_is_undefined (pos : Iterator.t) (v : T) l s :
  holds l s -> _map_size (self s) <= 2 ^ 55 ->
  wrap (Iterator.diff pos (begin (self s))) / BLOCK_SIZE < _start_block (self s) ->
  emplace pos v s = UB.
Proof. exact (emplace_below_start pos v l s). Qed.

End EmplaceAt.

Lemma emplace_before_start_block_is_undefined_witness :
  emplace (begin (self demo)) 8 demo = UB.
Proof.
  apply (emplace_before_start_block_is_undefined (begin (self demo)) 8
           [3; 5; 4; 6; 9] demo).
  - exact demo_holds.
  - vm_compute. discriminate.
  - vm_compute. reflexivity.
Defined.

(** ** [Const_Iterator] *)

(** X29. [Const_Iterator::operator++] agrees with [Iterator::operator++] on
    every offset below 64, and differs on the offset 64 that [end()] and
    [cend()] hand out for a full last block: there the constant iterator
    moves to the head of the next block and the mutable one to offset 65.
    [operator--] and [operator+] agree everywhere. *)
Theorem const_increment_differs_at_block_end (it : Iterator.t) (n : Z) :
  0 <= Iterator._offset it <= BLOCK_SIZE ->
  (Iterator._offset it < BLOCK_SIZE ->
   Const_Iterator.incr (Const_Iterator.of_iterator it)
   = Const_Iterator.of_iterator (Iterator.incr it)) /\
  (Iterator._offset it = BLOCK_SIZE ->
   Const_Iterator.incr (Const_Iterator.of_iterator it)
   = Const_Iterator.Make (Iterator._map_ptr it) (wrap (Iterator._block it + 1)) 0 /\
   Iterator.incr it
   = Iterator.Make (Iterator._map_ptr it) (Iterator._block it) (BLOCK_SIZE + 1)) /\
  Const_Iterator.decr (Const_Iterator.of_iterator it)
  = Const_Iterator.of_iterator (Iterator.decr it) /\
  Const_Iterator.plus (Const_Iterator.of_iterator it) n
  = Const_Iterator.of_iterator (Iterator.plus it n).
Proof.
  unfold BLOCK_SIZE. intros Ho. split; [|split; [|split]].
  - intros Hlt. unfold Const_Iterator.incr, Iterator.incr, Const_Iterator.of_iterator,
      BLOCK_SIZE. cbn [Const_Iterator._offset Const_Iterator._block
                        Const_Iterator._map_ptr].
    rewrite (wrap_small (Iterator._offset it + 1)) by lia.
    destruct (Z.geb_spec (Iterator._offset it + 1) 64);
      destruct (Z.eqb_spec (Iterator._offset it + 1) 64); try lia; reflexivity.
  - intros E. unfold Const_Iterator.incr, Iterator.incr, Const_Iterator.of_iterator,
      BLOCK_SIZE. cbn [Const_Iterator._offset Const_Iterator._block
                        Const_Iterator._map_ptr].
    rewrite E. split; reflexivity.
  - unfold Const_Iterator.decr, Iterator.decr, Const_Iterator.of_iterator.
    cbn [Const_Iterator._offset Const_Iterator._block Const_Iterator._map_ptr].
    destruct (Iterator._offset it =? 0); reflexivity.
  - unfold Const_Iterator.plus, Iterator.plus, Const_Iterator.of_iterator.
    cbn [Const_Iterator._offset Const_Iterator._block Const_Iterator._map_ptr].
    cbv zeta.
    destruct (wrap (to_signed (to_signed (Iterator._offset it) + n)) mod BLOCK_SIZE <? 0);
      reflexivity.
Qed.

Lemma const_increment_differs_at_block_end_witness :
  Const_Iterator.incr (cend (self full_block))
  = Const_Iterator.Make (_map (self full_block)) 5 0 /\
  Iterator.incr (end_ (self full_block))
  = Iterator.Make (_map (self full_block)) 4 65.
Proof.
  destruct (const_increment_differs_at_block_end (end_ (self full_block)) 0)
    as (_ & H & _).
  - vm_compute. split; discriminate.
  - apply H. vm_compute. reflexivity.
Defined.

(** ** Releasing the storage: [clear], [destroy_all] and the destructor *)

Section Release.

Context {T : Type}.
Implicit Types (s : state T) (l : list T) (d : Deque) (h : heap T)
  (slots : list ptr) (p b m : loc).










End Release.

Section Destructor.

Context {T : Type}.
Implicit Types (s : state T) (l : list T) (d : Deque) (h : heap T)
  (slots : list ptr) (p b m : loc).




End Destructor.
Section DestructorSpec.

Context {T : Type}.
Implicit Types (s : state T) (l : list T) (d : Deque) (h : heap T)
  (slots : list ptr) (p b m : loc).




End DestructorSpec.

